(** * weekly-link-giver: the link service, embedded and verified

    The development follows [server.js (GitHub-backed, fixed)]: the storage
    helpers [ghGetOrInit], [ghPut], [ghUpdate], [ghRead], the metadata probe
    [getPageMeta], the in-memory admin tokens and the Express routes. The
    older [server.js], which keeps the documents in local files, is embedded
    next to it as [LocalFile].

    - JSON data is an inductive type [value]; a JavaScript expression that may
      be [undefined] has type [option value].
    - The documents kept in the repository ([data/urls.json], [data/pins.json],
      [data/state.json]) are JSON objects, type [doc]; everything below the
      top level is arbitrary JSON, and the code's dynamic checks on it
      ([||], [?.], [===], [typeof]) are modelled as written.
    - Everything the process asks of the outside (the GitHub contents API, the
      page fetch, [nanoid], [Date.now], sending the HTTP response) is an
      effect [eff]; the code is a program [prog] over these effects with
      exceptions, and [run] interprets a program against any handler of the
      effects, recording the trace of effects in order.
    - [Store] is a sequential in-memory versioned store used to run whole
      scenarios; what is proved against every handler holds for it and for
      any other store.

    The embedding comes first; the properties follow, each route with the
    definitions that state it. *)

From stdpp Require Import base strings list gmap pretty.
From Stdlib Require Import ZArith.

Local Open Scope Z_scope.
Set Warnings "-register-all".

(** ** JSON values and the JavaScript operators the code applies to them *)

Inductive value : Type :=
| VNull
| VBool (b : bool)
| VNum (n : Z)
| VStr (s : string)
| VArr (xs : list value)
| VObj (fields : list (string * value)).

(** A parsed document: the fields of a JSON object, in insertion order. *)
Abbreviation doc := (list (string * value)) (only parsing).

(** Truthiness: [null], [false], [0] and the empty string are falsy. *)
Definition truthy (v : value) : bool :=
  match v with
  | VNull => false
  | VBool b => b
  | VNum n => negb (n =? 0)
  | VStr s => negb (bool_decide (s = ""))
  | VArr _ | VObj _ => true
  end.

(** [undefined] is falsy. *)
Definition truthy_opt (o : option value) : bool :=
  match o with
  | Some v => truthy v
  | None => false
  end.

(** [a || b] *)
Definition js_or (a b : option value) : option value :=
  if truthy_opt a then a else b.

(** [a || d] where [d] is a defined value. *)
Definition js_or_val (a : option value) (d : value) : value :=
  match a with
  | Some v => if truthy v then v else d
  | None => d
  end.

(** Own-property lookup in an object literal. *)
Fixpoint obj_lookup (k : string) (fs : list (string * value)) : option value :=
  match fs with
  | [] => None
  | (k', v) :: fs' => if bool_decide (k' = k) then Some v else obj_lookup k fs'
  end.

(** [o.k = v] on an object: an existing property keeps its position, a new
    one is appended. *)
Fixpoint obj_set (k : string) (v : value) (fs : list (string * value))
  : list (string * value) :=
  match fs with
  | [] => [(k, v)]
  | (k', v') :: fs' =>
      if bool_decide (k' = k) then (k, v) :: fs' else (k', v') :: obj_set k v fs'
  end.

(** An object literal some of whose properties may be [undefined]: such
    properties do not survive [JSON.stringify], so they are left out. *)
Definition obj_of (fs : list (string * option value)) : value :=
  VObj (omap (fun kv => match kv.2 with
                        | Some v => Some (kv.1, v)
                        | None => None
                        end) fs).

(** The exceptions that occur. [AxiosError st] carries [e.response?.status];
    the other two have no [response]. *)
Inductive exn : Type :=
| AxiosError (status : option nat)
| SyntaxError
| TypeError.

Definition response_status (e : exn) : option nat :=
  match e with
  | AxiosError st => st
  | SyntaxError | TypeError => None
  end.

Inductive result (A : Type) : Type :=
| Ok (a : A)
| Err (e : exn).
Arguments Ok {A} a.
Arguments Err {A} e.

Definition rbind {A B} (r : result A) (f : A -> result B) : result B :=
  match r with
  | Ok a => f a
  | Err e => Err e
  end.

Notation "'let?' x ':=' r 'in' k" := (rbind r (fun x => k))
  (at level 10, x pattern, r at level 100, k at level 200).

(** [v.k] for the data properties the code reads ([id], [title], [favicon],
    [url], [active]); none of them is defined on a built-in prototype, so
    only an object can have one, and reading a property of [null] throws. *)
Definition get_prop (v : value) (k : string) : result (option value) :=
  match v with
  | VNull => Err TypeError
  | VObj fs => Ok (obj_lookup k fs)
  | VBool _ | VNum _ | VStr _ | VArr _ => Ok None
  end.

(** [x === s] for a string [s]. *)
Definition strict_eq_str (x : option value) (s : string) : bool :=
  match x with
  | Some (VStr t) => bool_decide (t = s)
  | _ => false
  end.

(** [x !== false] *)
Definition not_false (x : option value) : bool :=
  match x with
  | Some (VBool false) => false
  | _ => true
  end.

(** [String(n)] for a number: the shortest decimal digits that denote the
    double, written out in full below 10^21 and with an exponent from
    there on. [VNum n] is the number a JSON text with the digits of [n]
    parses to, so [n] is first taken to the nearest double, ties to the
    even one; from 2^1024 on that is [Infinity]. *)
Definition round_double (m : Z) : Z :=
  if m <? 2 ^ 53 then m
  else
    let e := Z.log2 m - 52 in
    let q := m / 2 ^ e in
    let r := m mod 2 ^ e in
    let half := 2 ^ (e - 1) in
    (if (half <? r) || ((r =? half) && Z.odd q) then q + 1 else q) * 2 ^ e.

(** The number with the fewest significant digits that is taken to the
    double [x], the nearest to [x] among those, the one with the even last
    digit of two equally near; [k] is the number of significant digits
    tried, [digits] the number of digits of [x]. *)
Fixpoint shortest (fuel : nat) (k : Z) (digits : Z) (x : Z) : Z :=
  match fuel with
  | O => x
  | S fuel' =>
      let p := 10 ^ (digits - k) in
      let lo := (x / p) * p in
      let hi := lo + p in
      let ok_lo := round_double lo =? x in
      let ok_hi := round_double hi =? x in
      if ok_lo && ok_hi then
        if x - lo <? hi - x then lo
        else if hi - x <? x - lo then hi
        else if Z.even (x / p) then lo else hi
      else if ok_lo then lo
      else if ok_hi then hi
      else shortest fuel' (k + 1) digits x
  end.

Fixpoint strip_zeros (fuel : nat) (v : Z) : Z :=
  match fuel with
  | O => v
  | S fuel' => if v mod 10 =? 0 then strip_zeros fuel' (v / 10) else v
  end.

Definition positive_to_string (m : Z) : string :=
  let x := round_double m in
  if 2 ^ 1024 <=? x then "Infinity"
  else
    let digits := Z.of_nat (String.length (pretty x)) in
    let v := shortest (Z.to_nat digits) 1 digits x in
    let n := Z.of_nat (String.length (pretty v)) in
    if n <=? 21 then pretty v
    else
      match pretty (strip_zeros (Z.to_nat n) v) with
      | String c "" => String c "" +:+ "e+" +:+ pretty (n - 1)
      | String c rest => String c "" +:+ "." +:+ rest +:+ "e+" +:+ pretty (n - 1)
      | EmptyString => EmptyString
      end.

Definition number_to_string (n : Z) : string :=
  if n =? 0 then "0"
  else if n <? 0 then "-" +:+ positive_to_string (- n)
  else positive_to_string n.

(** [String(v)]. An object is converted by its [toString]: that of the
    prototype gives ["[object Object]"]; an own property of that name,
    which in parsed JSON is never a function, makes the conversion throw.
    An array joins the conversions of its elements, [null] giving the
    empty string, and throws where one of them does. *)
Fixpoint js_String (v : value) : result string :=
  match v with
  | VNull => Ok "null"
  | VBool true => Ok "true"
  | VBool false => Ok "false"
  | VNum n => Ok (number_to_string n)
  | VStr s => Ok s
  | VArr xs =>
      (fix join (l : list value) : result string :=
         match l with
         | [] => Ok ""
         | x :: l' =>
             let? sx := match x with VNull => Ok "" | _ => js_String x end in
             match l' with
             | [] => Ok sx
             | _ :: _ => let? rest := join l' in Ok (sx +:+ "," +:+ rest)
             end
         end) xs
  | VObj fs =>
      match obj_lookup "toString" fs with
      | Some _ => Err TypeError
      | None => Ok "[object Object]"
      end
  end.

(** [xs.map(String)] *)
Fixpoint strings_of (xs : list value) : result (list string) :=
  match xs with
  | [] => Ok []
  | x :: xs' =>
      let? s := js_String x in
      let? r := strings_of xs' in
      Ok (s :: r)
  end.

(** [strip_prefix pat s] is what follows [pat] in [s] when [s] starts with
    [pat]. *)
Fixpoint strip_prefix (pat s : string) : option string :=
  match pat, s with
  | EmptyString, _ => Some s
  | String a pat', String b s' =>
      if bool_decide (a = b) then strip_prefix pat' s' else None
  | String _ _, EmptyString => None
  end.

(** [s.replace(pat, "")] with a string pattern: the first occurrence of
    [pat], wherever it is, is removed. *)
Fixpoint remove_first (pat s : string) : string :=
  match strip_prefix pat s with
  | Some rest => rest
  | None =>
      match s with
      | EmptyString => EmptyString
      | String c s' => String c (remove_first pat s')
      end
  end.

(** [s.includes(pat)]: whether the pattern occurs in the string. *)
Fixpoint occurs (pat s : string) : bool :=
  match strip_prefix pat s with
  | Some _ => true
  | None =>
      match s with
      | EmptyString => false
      | String _ s' => occurs pat s'
      end
  end.

(** Array callbacks that may throw. *)
Fixpoint filterM (f : value -> result bool) (xs : list value) : result (list value) :=
  match xs with
  | [] => Ok []
  | x :: xs' =>
      let? b := f x in
      let? r := filterM f xs' in
      Ok (if b then x :: r else r)
  end.

Fixpoint findM (f : value -> result bool) (xs : list value) : result (option value) :=
  match xs with
  | [] => Ok None
  | x :: xs' =>
      let? b := f x in
      if b then Ok (Some x) else findM f xs'
  end.

(** [findIndex]: [None] stands for [-1]. *)
Fixpoint findIndexM (f : value -> result bool) (xs : list value) : result (option nat) :=
  match xs with
  | [] => Ok None
  | x :: xs' =>
      let? b := f x in
      if b then Ok (Some 0%nat)
      else let? r := findIndexM f xs' in Ok (S <$> r)
  end.

Fixpoint mapM (f : value -> result value) (xs : list value) : result (list value) :=
  match xs with
  | [] => Ok []
  | x :: xs' =>
      let? y := f x in
      let? r := mapM f xs' in
      Ok (y :: r)
  end.

(** ** Effects, programs and their interpretation *)

(** What [gh.get] resolves to: [data.content] (base64 of the file) and
    [data.sha]. The file content is kept decoded: empty, the text of a JSON
    object, or text that [JSON.parse] rejects. *)
Inductive raw_content : Type :=
| RawEmpty
| RawJson (d : doc)
| RawMalformed.

Record get_data : Type := GetData {
  data_content : raw_content;
  data_sha : string
}.

(** The body of a [gh.put]; [pl_content] stands for the base64 of
    [JSON.stringify(jsonValue, null, 2)]. *)
Record payload : Type := Payload {
  pl_message : string;
  pl_content : doc;
  pl_branch : string;
  pl_sha : option string
}.

(** What the scraper reads off a fetched page:
    [$("title").first().text().trim()] and the [href] of the first
    [<link>] matching each of the three [rel] selectors. *)
Record page : Type := Page {
  pg_title : string;
  pg_icon : option string;
  pg_shortcut_icon : option string;
  pg_apple_touch_icon : option string
}.

Record response : Type := Response {
  res_status : nat;
  res_body : value
}.

Inductive eff : Type -> Type :=
| GhGet (path : string) : eff (result get_data)
| GhPut (path : string) (pl : payload) : eff (result string)
| AxiosGet (url : value) : eff (option page)
| Nanoid (size : nat) : eff string
| DateNow : eff Z
| Respond (r : response) : eff unit.

Inductive prog (A : Type) : Type :=
| Ret (a : A)
| Throw (e : exn)
| Vis {X : Type} (e : eff X) (k : X -> prog A).
Arguments Ret {A} a.
Arguments Throw {A} e.
Arguments Vis {A X} e k.

Fixpoint bind {A B} (p : prog A) (f : A -> prog B) : prog B :=
  match p with
  | Ret a => f a
  | Throw e => Throw e
  | Vis e k => Vis e (fun x => bind (k x) f)
  end.

(** [try { p } catch (e) { h e }] *)
Fixpoint try_catch {A} (p : prog A) (h : exn -> prog A) : prog A :=
  match p with
  | Ret a => Ret a
  | Throw e => h e
  | Vis e k => Vis e (fun x => try_catch (k x) h)
  end.

Definition trigger {X} (e : eff X) : prog X := Vis e Ret.

(** A pure computation that may throw, run inside a program. *)
Definition lift {A} (r : result A) : prog A :=
  match r with
  | Ok a => Ret a
  | Err e => Throw e
  end.

Notation "'let*' x ':=' p 'in' k" := (bind p (fun x => k))
  (at level 10, x pattern, p at level 100, k at level 200).

(** One effect together with its answer. *)
Inductive event : Type :=
| Ev {X : Type} (e : eff X) (x : X).

Section Run.
Context {W : Type}.
Variable handle : forall X, eff X -> W -> X * W.

Fixpoint run {A} (p : prog A) (w : W) : list event * W * result A :=
  match p with
  | Ret a => ([], w, Ok a)
  | Throw e => ([], w, Err e)
  | Vis e k =>
      let '(x, w1) := handle _ e w in
      let '(t, w2, r) := run (k x) w1 in
      (Ev e x :: t, w2, r)
  end.

Lemma run_bind {A B} (p : prog A) (f : A -> prog B) (w : W) :
  run (bind p f) w =
  match run p w with
  | (t, w1, Ok a) => let '(t', w2, r) := run (f a) w1 in (t ++ t', w2, r)
  | (t, w1, Err e) => (t, w1, Err e)
  end.
Proof.
  revert w. induction p as [a|e|X e k IH]; intros w; simpl.
  - by destruct (run (f a) w) as [[t' w2] r].
  - done.
  - destruct (handle X e w) as [x w1]. rewrite IH.
    destruct (run (k x) w1) as [[t w2] [a|e']]; [|done].
    by destruct (run (f a) w2) as [[t' w3] r].
Qed.

Lemma run_try_catch {A} (p : prog A) (h : exn -> prog A) (w : W) :
  run (try_catch p h) w =
  match run p w with
  | (t, w1, Ok a) => (t, w1, Ok a)
  | (t, w1, Err e) => let '(t', w2, r) := run (h e) w1 in (t ++ t', w2, r)
  end.
Proof.
  revert w. induction p as [a|e|X e k IH]; intros w; simpl.
  - done.
  - by destruct (run (h e) w) as [[t' w2] r].
  - destruct (handle X e w) as [x w1]. rewrite IH.
    destruct (run (k x) w1) as [[t w2] [a|e']]; [done|].
    by destruct (run (h e') w2) as [[t' w3] r].
Qed.

Lemma run_Ret {A} (a : A) (w : W) : run (Ret a) w = ([], w, Ok a).
Proof. reflexivity. Qed.

Lemma run_Throw {A} (e : exn) (w : W) : run (@Throw A e) w = ([], w, Err e).
Proof. reflexivity. Qed.

Lemma run_lift {A} (r : result A) (w : W) : run (lift r) w = ([], w, r).
Proof. by destruct r. Qed.

Lemma run_trigger {X} (e : eff X) (w : W) :
  run (trigger e) w = ([Ev e (handle X e w).1], (handle X e w).2, Ok (handle X e w).1).
Proof. unfold trigger. simpl. by destruct (handle X e w). Qed.
End Run.

Arguments run : simpl never.
Arguments bind : simpl never.
Arguments try_catch : simpl never.
Arguments trigger : simpl never.
Arguments lift : simpl never.

(** ** GitHub storage helpers *)

Definition GITHUB_BRANCH : string := "main".
Definition URLS_PATH : string := "data/urls.json".
Definition PINS_PATH : string := "data/pins.json".
Definition STATE_PATH : string := "data/state.json".

(** [JSON.parse(content || "{}")] *)
Definition parse_content (c : raw_content) : result doc :=
  match c with
  | RawEmpty => Ok []
  | RawJson d => Ok d
  | RawMalformed => Err SyntaxError
  end.

(** [ghPut(jsonPath, jsonValue, sha, message)]; [sha] is [null] ([None]) or a
    string, and only a truthy [sha] goes into the payload. Resolves to
    [data.content.sha]. *)
Definition ghPut (jsonPath : string) (jsonValue : doc) (sha : option string)
    (message : string) : prog string :=
  let payload :=
    {| pl_message := if bool_decide (message = "")
                     then "update " +:+ jsonPath else message;
       pl_content := jsonValue;
       pl_branch := GITHUB_BRANCH;
       pl_sha := match sha with
                 | Some s => if bool_decide (s = "") then None else Some s
                 | None => None
                 end |} in
  let* r := trigger (GhPut jsonPath payload) in
  lift r.

(** What [ghGetOrInit] returns, [{ json, sha }]. [f_is_init] records that
    [json] is the very object passed as [initValue] (the 404 branch returns
    it, not a copy), which matters to a caller that mutates [json]. *)
Record fetched : Type := Fetched {
  f_json : doc;
  f_sha : string;
  f_is_init : bool
}.

Definition ghGetOrInit (jsonPath : string) (initValue : doc) : prog fetched :=
  try_catch
    (let* r := trigger (GhGet jsonPath) in
     let* data := lift r in
     let* json := lift (parse_content (data_content data)) in
     Ret (Fetched json (data_sha data) false))
    (fun e =>
       if bool_decide (response_status e = Some 404%nat) then
         let* sha := ghPut jsonPath initValue None ("init " +:+ jsonPath) in
         Ret (Fetched initValue sha true)
       else Throw e).

(** The outcome of one call of a mutator on [db]: the object it returns,
    the content of [db] after the call (the mutators of the routes change
    [db] in place), and what the closure assigned to variables of the
    enclosing route ([removed] in the remove route). *)
Record mutated (B : Type) : Type := Mutated {
  m_result : doc;
  m_arg : doc;
  m_aux : B
}.
Arguments Mutated {B} m_result m_arg m_aux.
Arguments m_result {B} m.
Arguments m_arg {B} m.
Arguments m_aux {B} m.

(** Update with a single retry on conflict. The mutator may itself call
    [nanoid] and [Date.now], so it is a program. When the first
    [ghGetOrInit] returned [initValue] itself, the mutator's changes to its
    argument are changes to [initValue], which the retry passes on. *)
Definition ghUpdate {B} (jsonPath : string) (mutator : doc -> prog (mutated B))
    (initValue : doc) (commitMsg : string) : prog (doc * B) :=
  let* f := ghGetOrInit jsonPath initValue in
  let* m := mutator (f_json f) in
  let initValue' := if f_is_init f then m_arg m else initValue in
  try_catch
    (let* _ := ghPut jsonPath (m_result m) (Some (f_sha f)) commitMsg in
     Ret (m_result m, m_aux m))
    (fun e =>
       if bool_decide (response_status e = Some 409%nat) then
         let* fresh := ghGetOrInit jsonPath initValue' in
         let* m2 := mutator (f_json fresh) in
         let* _ := ghPut jsonPath (m_result m2) (Some (f_sha fresh))
                     (commitMsg +:+ " (retry)") in
         Ret (m_result m2, m_aux m2)
       else Throw e).

Definition ghRead (jsonPath : string) (initValue : doc) : prog doc :=
  let* f := ghGetOrInit jsonPath initValue in
  Ret (f_json f).

(** ** Page meta probe *)

(** The WHATWG [URL] constructor, which the code uses but does not define:
    [url_origin s] is [new URL(s).origin], [url_hostname s] is
    [new URL(s).hostname], [url_href r b] is [new URL(r, b).href]; [None]
    when the constructor throws. *)
Class URLApi : Type := {
  url_origin : string -> option string;
  url_hostname : string -> option string;
  url_href : string -> string -> option string
}.

Record page_meta : Type := PageMeta {
  meta_title : string;
  meta_favicon : string
}.

(** [a || b] on an attribute that may be missing, giving a string
    ([""] when neither is truthy is added by the caller). *)
Definition attr_or (a : option string) (b : option string) : option string :=
  match a with
  | Some s => if bool_decide (s = "") then b else a
  | None => b
  end.

Section Probe.
Context `{URLApi}.

(** [new URL(v)] on a value converts it with [String] first; where the
    conversion throws, the constructor throws. [URL_origin v] is
    [new URL(v).origin], [URL_hostname v] is [new URL(v).hostname] and
    [URL_href r b] is [new URL(r, b).href] for a text [r]. *)
Definition URL_origin (v : value) : option string :=
  match js_String v with
  | Ok s => url_origin s
  | Err _ => None
  end.

Definition URL_hostname (v : value) : option string :=
  match js_String v with
  | Ok s => url_hostname s
  | Err _ => None
  end.

Definition URL_href (r : string) (b : value) : option string :=
  match js_String b with
  | Ok s => url_href r s
  | Err _ => None
  end.

(** The [catch] block of [getPageMeta], entered with the value [title] has
    at that point. *)
Definition getPageMeta_catch (targetUrl : value) (title : string) : page_meta :=
  match URL_origin targetUrl with
  | Some origin => PageMeta title (origin +:+ "/favicon.ico")
  | None => PageMeta title ""
  end.

(** [getPageMeta(targetUrl)]. The [try] body fails either at the fetch or
    the parse of the page, with [title] still empty, or at one of its two
    [new URL], with [title] already assigned; either way the [catch] block
    runs next and nothing is thrown. *)
Definition getPageMeta (targetUrl : value) : prog page_meta :=
  let* resp := trigger (AxiosGet targetUrl) in
  match resp with
  | None => Ret (getPageMeta_catch targetUrl "")
  | Some pg =>
      let title := pg_title pg in
      let iconHref :=
        default "" (attr_or (pg_icon pg)
                      (attr_or (pg_shortcut_icon pg)
                         (attr_or (pg_apple_touch_icon pg) (Some "")))) in
      if bool_decide (iconHref = "") then
        match URL_origin targetUrl with
        | Some origin => Ret (PageMeta title (origin +:+ "/favicon.ico"))
        | None => Ret (getPageMeta_catch targetUrl title)
        end
      else
        match URL_href iconHref targetUrl with
        | Some href => Ret (PageMeta title href)
        | None => Ret (getPageMeta_catch targetUrl title)
        end
  end.
End Probe.

(** ** Admin tokens and the routes *)

(** [res.json(body)] and [res.status(st).json(body)]. *)
Definition respond (st : nat) (body : value) : prog unit :=
  trigger (Respond (Response st body)).

Definition fail_body (msg : string) : value :=
  VObj [("ok", VBool false); ("error", VStr msg)].

(** [const { k } = req.body || {}] *)
Definition body_field (body : option value) (k : string) : option value :=
  match body with
  | Some (VObj fs) => obj_lookup k fs
  | _ => None
  end.

(** [a === b], for values that are not aliases of one another: two objects
    or two arrays are then never identical. *)
Definition strict_eq (a b : option value) : bool :=
  match a, b with
  | None, None => true
  | Some VNull, Some VNull => true
  | Some (VBool x), Some (VBool y) => bool_decide (x = y)
  | Some (VNum x), Some (VNum y) => bool_decide (x = y)
  | Some (VStr x), Some (VStr y) => bool_decide (x = y)
  | _, _ => false
  end.

(** [x.k] where [x] may be [undefined]. *)
Definition get_prop_opt (x : option value) (k : string) : result (option value) :=
  match x with
  | Some v => get_prop v k
  | None => Err TypeError
  end.

(** [({ id, title, favicon, url }) => ({ id, title, favicon, url })] *)
Definition project (u : value) : result value :=
  let? id := get_prop u "id" in
  let? title := get_prop u "title" in
  let? favicon := get_prop u "favicon" in
  let? url := get_prop u "url" in
  Ok (obj_of [("id", id); ("title", title); ("favicon", favicon); ("url", url)]).

Definition randomToken : prog string :=
  let* n := trigger (Nanoid 16) in
  Ret ("adm_" +:+ n).

(** [pins.pins?.map(String).includes(String(pin))]; the result is used only
    under [!], so [undefined] is given as [false]. The entries are
    converted first, then the pin; either conversion may throw. *)
Definition checkPin (pin : value) : prog bool :=
  let* pins := ghRead PINS_PATH [("pins", VArr [VStr "1234"])] in
  match obj_lookup "pins" pins with
  | None | Some VNull => Ret false
  | Some (VArr xs) =>
      let* entries := lift (strings_of xs) in
      let* p := lift (js_String pin) in
      Ret (bool_decide (p ∈ entries))
  | Some _ => Throw TypeError
  end.

(** GET /api/urls; [all] is [req.query.all]. *)
Definition list_urls (all : option string) : prog unit :=
  try_catch
    (let* urls := ghRead URLS_PATH [("urls", VArr [])] in
     let* state := ghRead STATE_PATH [("enabled", VBool true)] in
     let* onlyActive :=
       lift (match obj_lookup "urls" urls with
             | Some (VArr xs) =>
                 if bool_decide (all = Some "1") then Ok xs
                 else filterM (fun u => let? a := get_prop u "active" in
                                        Ok (not_false a)) xs
             | _ => Err TypeError
             end) in
     let* out := lift (mapM project onlyActive) in
     respond 200
       (VObj [("ok", VBool true);
              ("enabled", VBool (truthy_opt (obj_lookup "enabled" state)));
              ("urls", VArr out)]))
    (fun _ => respond 500 (fail_body "read failed")).

(** GET /api/resolve/:id *)
Definition resolve (id : string) : prog unit :=
  try_catch
    (let* state := ghRead STATE_PATH [("enabled", VBool true)] in
     if negb (truthy_opt (obj_lookup "enabled" state)) then
       respond 403 (fail_body "Access disabled")
     else
       let* urls := ghRead URLS_PATH [("urls", VArr [])] in
       let* item :=
         lift (match obj_lookup "urls" urls with
               | Some (VArr xs) =>
                   findM (fun u =>
                            let? i := get_prop u "id" in
                            if strict_eq_str i id then
                              let? a := get_prop u "active" in Ok (not_false a)
                            else Ok false) xs
               | _ => Err TypeError
               end) in
       match item with
       | None => respond 404 (fail_body "Not found")
       | Some it =>
           let* id' := lift (get_prop it "id") in
           let* title := lift (get_prop it "title") in
           let* favicon := lift (get_prop it "favicon") in
           let* url := lift (get_prop it "url") in
           respond 200
             (obj_of [("ok", Some (VBool true)); ("id", id'); ("title", title);
                      ("favicon", favicon); ("url", url)])
       end)
    (fun _ => respond 500 (fail_body "resolve failed")).

(** POST /api/admin/login; returns the token set after the request. An
    exception of [checkPin] is not caught by the route. *)
Definition login (body : option value) (tokens : gset string) : prog (gset string) :=
  let pin := body_field body "pin" in
  let* bad :=
    match pin with
    | Some p => if truthy p then let* ok := checkPin p in Ret (negb ok)
                else Ret true
    | None => Ret true
    end in
  if bad : bool then
    let* _ := respond 401 (fail_body "bad pin") in Ret tokens
  else
    let* token := randomToken in
    let tokens' := {[token]} ∪ tokens in
    let* _ := respond 200 (VObj [("ok", VBool true); ("token", VStr token)]) in
    Ret tokens'.

(** The middleware [auth]: [authorization] is [req.headers.authorization]
    and [next] the route behind it. *)
Definition auth (authorization : option string) (tokens : gset string)
    (next : prog unit) : prog unit :=
  let hdr := default "" authorization in
  let token := remove_first "Bearer " hdr in
  if bool_decide (token = "") || negb (bool_decide (token ∈ tokens)) then
    respond 401 (fail_body "unauthorized")
  else next.

(** The mutator of the remove route; the auxiliary output is [removed]. *)
Definition remove_mutator (id : string) (db : doc) : prog (mutated Z) :=
  match js_or_val (obj_lookup "urls" db) (VArr []) with
  | VArr xs =>
      let before := Z.of_nat (length xs) in
      let* kept := lift (filterM (fun u => let? i := get_prop u "id" in
                                           Ok (negb (strict_eq_str i id))) xs) in
      let db' := obj_set "urls" (VArr kept) db in
      Ret (Mutated db' db' (before - Z.of_nat (length kept)))
  | _ => Throw TypeError
  end.

(** DELETE /api/admin/remove/:id, behind [auth]. [removed] starts at 0 and
    is what the last call of the mutator assigned. *)
Definition remove (id : string) : prog unit :=
  try_catch
    (let* r := ghUpdate URLS_PATH (remove_mutator id) [("urls", VArr [])]
                 "admin remove url" in
     respond 200 (VObj [("ok", VBool true); ("removed", VNum r.2)]))
    (fun _ => respond 500 (fail_body "remove failed")).

(** POST /api/admin/toggle, behind [auth]. *)
Definition toggle (body : option value) : prog unit :=
  match body_field body "enabled" with
  | Some (VBool enabled) =>
      try_catch
        (let* r := ghUpdate STATE_PATH
                     (fun db => Ret (Mutated [("enabled", VBool enabled)] db tt))
                     [("enabled", VBool true)] "toggle service state" in
         respond 200 (obj_of [("ok", Some (VBool true));
                              ("enabled", obj_lookup "enabled" r.1)]))
        (fun _ => respond 500 (fail_body "toggle failed"))
  | _ => respond 400 (fail_body "enabled boolean required")
  end.

(** [o.k = x] on an element of an array: only an object takes the property
    (the module is strict code, so a primitive throws; an element that is
    itself an array cannot be the one [findIndex] found, having no [id]). *)
Definition set_prop (v : value) (k : string) (x : value) : result value :=
  match v with
  | VObj fs => Ok (VObj (obj_set k x fs))
  | _ => Err TypeError
  end.

(** The record the add route pushes. *)
Definition new_record (id : string) (url : value) (title favicon : option value)
    (now : Z) : value :=
  VObj [("id", VStr id); ("url", url);
        ("title", js_or_val title (VStr ""));
        ("favicon", js_or_val favicon (VStr ""));
        ("active", VBool true); ("createdAt", VNum now)].

(** The mutator of the add route. The arguments of [push] are evaluated
    before the call fails on a [urls] that is not an array. *)
Definition add_mutator (url : value) (title favicon : option value) (db : doc)
  : prog (mutated unit) :=
  let urls := js_or_val (obj_lookup "urls" db) (VArr []) in
  let db1 := obj_set "urls" urls db in
  let* id := trigger (Nanoid 10) in
  let* now := trigger DateNow in
  match urls with
  | VArr xs =>
      let db2 := obj_set "urls" (VArr (xs ++ [new_record id url title favicon now])) db1 in
      Ret (Mutated db2 db2 tt)
  | _ => Throw TypeError
  end.

(** [result.urls[result.urls.length - 1]] on what the add mutator returned,
    whose [urls] is an array. *)
Definition last_url (updated : doc) : result (option value) :=
  match obj_lookup "urls" updated with
  | Some (VArr xs) => Ok (last xs)
  | _ => Err TypeError
  end.

(** The requests the service answers. *)
Inductive request : Type :=
| GetUrls (all : option string)
| GetResolve (id : string)
| PostProbe (body : option value)
| PostLogin (body : option value)
| PostAdd (authorization : option string) (body : option value)
| DeleteRemove (authorization : option string) (id : string)
| PostToggle (authorization : option string) (body : option value)
| GetRoot.

Section Routes.
Context `{URLApi}.

(** [new URL(url).hostname] *)
Definition hostname_of (url : value) : result value :=
  match URL_hostname url with
  | Some h => Ok (VStr h)
  | None => Err TypeError
  end.

(** The mutator of the backfill in the add route. *)
Definition backfill_mutator (url : value) (last : option value)
    (meta : page_meta) (db : doc) : prog (mutated unit) :=
  lift
    (match obj_lookup "urls" db with
     | Some (VArr xs) =>
         let? idx := findIndexM (fun u => let? i := get_prop u "id" in
                                          let? j := get_prop_opt last "id" in
                                          Ok (strict_eq i j)) xs in
         match idx with
         | Some n =>
             match xs !! n with
             | Some u =>
                 let? t0 := get_prop u "title" in
                 let? t :=
                   match js_or t0 (Some (VStr (meta_title meta))) with
                   | Some t => if truthy t then Ok t else hostname_of url
                   | None => hostname_of url
                   end in
                 let? u1 := set_prop u "title" t in
                 let? f0 := get_prop u1 "favicon" in
                 let f := js_or_val (js_or f0 (Some (VStr (meta_favicon meta))))
                            (VStr "") in
                 let? u2 := set_prop u1 "favicon" f in
                 let db' := obj_set "urls" (VArr (<[n := u2]> xs)) db in
                 Ok (Mutated db' db' tt)
             | None => Err TypeError
             end
         | None => Ok (Mutated db db tt)
         end
     | _ => Err TypeError
     end).

(** The inner [try { ... } catch {}] of the add route: probe, then patch the
    record just added. *)
Definition backfill (url : value) (last : option value) : prog unit :=
  try_catch
    (let* meta := getPageMeta url in
     let* _ := ghUpdate URLS_PATH (backfill_mutator url last meta)
                 [("urls", VArr [])] "fill title/favicon" in
     Ret tt)
    (fun _ => Ret tt).

(** POST /api/admin/add, behind [auth]. *)
Definition add (body : option value) : prog unit :=
  let url := body_field body "url" in
  let title := body_field body "title" in
  let favicon := body_field body "favicon" in
  match url with
  | Some url =>
      if truthy url then
        try_catch
          (let* r := ghUpdate URLS_PATH (add_mutator url title favicon)
                       [("urls", VArr [])] "admin add url" in
           let* last := lift (last_url r.1) in
           let* _ :=
             if negb (truthy_opt title) || negb (truthy_opt favicon)
             then backfill url last
             else Ret tt in
           let* id := lift (get_prop_opt last "id") in
           respond 200 (obj_of [("ok", Some (VBool true)); ("id", id)]))
          (fun _ => respond 500 (fail_body "add failed"))
      else respond 400 (fail_body "url required")
  | None => respond 400 (fail_body "url required")
  end.

(** POST /api/probe *)
Definition probe (body : option value) : prog unit :=
  match body_field body "url" with
  | Some url =>
      if truthy url then
        try_catch
          (let* meta := getPageMeta url in
           respond 200
             (VObj [("ok", VBool true);
                    ("meta", VObj [("title", VStr (meta_title meta));
                                   ("favicon", VStr (meta_favicon meta))])]))
          (fun _ => respond 500 (fail_body "probe failed"))
      else respond 400 (fail_body "url required")
  | None => respond 400 (fail_body "url required")
  end.

(** The service as a transition on the token set. *)
Definition serve (req : request) (tokens : gset string) : prog (gset string) :=
  match req with
  | GetUrls all => let* _ := list_urls all in Ret tokens
  | GetResolve id => let* _ := resolve id in Ret tokens
  | PostProbe body => let* _ := probe body in Ret tokens
  | PostLogin body => login body tokens
  | PostAdd hdr body => let* _ := auth hdr tokens (add body) in Ret tokens
  | DeleteRemove hdr id => let* _ := auth hdr tokens (remove id) in Ret tokens
  | PostToggle hdr body => let* _ := auth hdr tokens (toggle body) in Ret tokens
  | GetRoot =>
      let* _ := respond 200
                  (VObj [("ok", VBool true);
                         ("service", VStr "weekly-link-giver (github-backed)")]) in
      Ret tokens
  end.
End Routes.

(** ** The local-file variant

    [server.js] keeps the three documents in files under [./data] and has
    the same routes without the storage helpers: a route reads a file,
    changes the parsed object and writes it back. The files exist once the
    process has started (the bootstrap writes the missing ones); each holds
    a JSON object. The token set, [auth] and [getPageMeta] are as above. *)
Module LocalFile.

Record files : Type := Files {
  urls_file : doc;
  pins_file : doc;
  state_file : doc
}.

(** What the bootstrap writes when nothing is there. *)
Definition bootstrap : files :=
  Files [("urls", VArr [])] [("pins", VArr [VStr "1234"])] [("enabled", VBool true)].

(** GET /api/urls *)
Definition list_urls (fs : files) (all : option string) : prog unit :=
  let urls := obj_lookup "urls" (urls_file fs) in
  let enabled := obj_lookup "enabled" (state_file fs) in
  let* onlyActive :=
    lift (match urls with
          | Some (VArr xs) =>
              if bool_decide (all = Some "1") then Ok xs
              else filterM (fun u => let? a := get_prop u "active" in
                                     Ok (not_false a)) xs
          | _ => Err TypeError
          end) in
  let* out := lift (mapM project onlyActive) in
  respond 200 (obj_of [("ok", Some (VBool true)); ("enabled", enabled);
                       ("urls", Some (VArr out))]).

(** GET /api/resolve/:id *)
Definition resolve (fs : files) (id : string) : prog unit :=
  if negb (truthy_opt (obj_lookup "enabled" (state_file fs))) then
    respond 403 (fail_body "Access disabled")
  else
    let* item :=
      lift (match obj_lookup "urls" (urls_file fs) with
            | Some (VArr xs) =>
                findM (fun u =>
                         let? i := get_prop u "id" in
                         if strict_eq_str i id then
                           let? a := get_prop u "active" in Ok (not_false a)
                         else Ok false) xs
            | _ => Err TypeError
            end) in
    match item with
    | None => respond 404 (fail_body "Not found")
    | Some it =>
        let* title := lift (get_prop it "title") in
        let* favicon := lift (get_prop it "favicon") in
        let* url := lift (get_prop it "url") in
        respond 200
          (obj_of [("ok", Some (VBool true)); ("id", Some (VStr id));
                   ("title", title); ("favicon", favicon); ("url", url)])
    end.

(** [pins.includes(String(pin))]: membership in an array, and, [includes]
    being a method of strings too, containment in a string. The
    conversion of the pin may throw; what has no [includes] throws
    whatever the pin. *)
Definition checkPin (fs : files) (pin : value) : result bool :=
  match obj_lookup "pins" (pins_file fs) with
  | Some (VArr xs) =>
      let? p := js_String pin in
      Ok (existsb (fun x => strict_eq_str (Some x) p) xs)
  | Some (VStr s) =>
      let? p := js_String pin in
      Ok (occurs p s)
  | _ => Err TypeError
  end.

(** POST /api/admin/login; returns the token set after the request. The
    set is created by the first login; before that it is empty here. *)
Definition login (fs : files) (body : option value) (tokens : gset string)
  : prog (gset string) :=
  let* bad :=
    match body_field body "pin" with
    | Some p => if truthy p then let* ok := lift (checkPin fs p) in Ret (negb ok)
                else Ret true
    | None => Ret true
    end in
  if bad : bool then
    let* _ := respond 401 (fail_body "bad pin") in Ret tokens
  else
    let* n := trigger (Nanoid 16) in
    let token := "adm_" +:+ n in
    let* _ := respond 200 (VObj [("ok", VBool true); ("token", VStr token)]) in
    Ret ({[token]} ∪ tokens).

(** DELETE /api/admin/remove/:id, behind [auth]; returns the files after
    the request. *)
Definition remove (fs : files) (id : string) : prog files :=
  match obj_lookup "urls" (urls_file fs) with
  | Some (VArr xs) =>
      let* kept := lift (filterM (fun u => let? i := get_prop u "id" in
                                           Ok (negb (strict_eq_str i id))) xs) in
      let db := obj_set "urls" (VArr kept) (urls_file fs) in
      let* _ := respond 200
                  (VObj [("ok", VBool true);
                         ("removed", VNum (Z.of_nat (length xs)
                                           - Z.of_nat (length kept)))]) in
      Ret (Files db (pins_file fs) (state_file fs))
  | _ => Throw TypeError
  end.

(** POST /api/admin/toggle, behind [auth]. *)
Definition toggle (fs : files) (body : option value) : prog files :=
  match body_field body "enabled" with
  | Some (VBool enabled) =>
      let* _ := respond 200 (VObj [("ok", VBool true); ("enabled", VBool enabled)]) in
      Ret (Files (urls_file fs) (pins_file fs) [("enabled", VBool enabled)])
  | _ =>
      let* _ := respond 400 (fail_body "enabled boolean required") in Ret fs
  end.

Section Add.
Context `{URLApi}.

(** POST /api/admin/add, behind [auth]. The probe is awaited before the
    record is pushed and the file written; an exception of the [catch]
    block itself is not caught by the route. *)
Definition add (fs : files) (body : option value) : prog files :=
  match body_field body "url" with
  | Some url =>
      if truthy url then
        let db := urls_file fs in
        let* id := trigger (Nanoid 10) in
        let title0 := js_or_val (body_field body "title") (VStr "") in
        let favicon0 := js_or_val (body_field body "favicon") (VStr "") in
        let* meta :=
          if negb (truthy title0) || negb (truthy favicon0) then
            let* pr := getPageMeta url in
            let* title :=
              if truthy title0 then Ret title0
              else if bool_decide (meta_title pr = "") then lift (hostname_of url)
                   else Ret (VStr (meta_title pr)) in
            Ret (title, if truthy favicon0 then favicon0 else VStr (meta_favicon pr))
          else Ret (title0, favicon0) in
        match obj_lookup "urls" db with
        | None | Some VNull => Throw TypeError
        | Some urls =>
            let* now := trigger DateNow in
            match urls with
            | VArr xs =>
                let record :=
                  VObj [("id", VStr id); ("url", url); ("title", meta.1);
                        ("favicon", meta.2); ("active", VBool true);
                        ("createdAt", VNum now)] in
                let db' := obj_set "urls" (VArr (xs ++ [record])) db in
                let* _ := respond 200 (VObj [("ok", VBool true); ("id", VStr id)]) in
                Ret (Files db' (pins_file fs) (state_file fs))
            | _ => Throw TypeError
            end
        end
      else let* _ := respond 400 (fail_body "url required") in Ret fs
  | None => let* _ := respond 400 (fail_body "url required") in Ret fs
  end.
End Add.

End LocalFile.

(** ** A sequential versioned store

    The contents API as the helpers rely on it and as the specification
    states the contract of its store, with one writer: reading a
    path that holds no file answers 404; a write that names a version token
    succeeds only if the file exists with that token, and answers 409
    otherwise; a write that names none always succeeds. Every write gives
    the file a new token. The page fetch, [nanoid] and the clock are
    oracles of the world. *)
Module Store.

Record world : Type := World {
  docs : gmap string (doc * string);
  version : nat;
  web : value -> option page;
  ids : nat -> string;
  next_id : nat;
  clock : Z
}.

(** The version token of the [n]-th write. *)
Fixpoint sha_of (n : nat) : string :=
  match n with
  | O => "v"
  | S n' => "x" +:+ sha_of n'
  end.

Definition write (path : string) (d : doc) (w : world) : result string * world :=
  (Ok (sha_of (version w)),
   World (<[path := (d, sha_of (version w))]> (docs w)) (S (version w))
     (web w) (ids w) (next_id w) (clock w)).

Definition conflict (w : world) : result string * world :=
  (Err (AxiosError (Some 409%nat)), w).

Definition handle (X : Type) (e : eff X) (w : world) : X * world :=
  match e in eff X return X * world with
  | GhGet path =>
      (match docs w !! path with
       | Some (d, sha) => Ok (GetData (RawJson d) sha)
       | None => Err (AxiosError (Some 404%nat))
       end, w)
  | GhPut path pl =>
      match docs w !! path, pl_sha pl with
      | Some (_, sha), Some sha' =>
          if bool_decide (sha = sha') then write path (pl_content pl) w
          else conflict w
      | None, Some _ => conflict w
      | _, None => write path (pl_content pl) w
      end
  | AxiosGet url => (web w url, w)
  | Nanoid _ =>
      (ids w (next_id w),
       World (docs w) (version w) (web w) (ids w) (S (next_id w)) (clock w))
  | DateNow => (clock w, w)
  | Respond _ => (tt, w)
  end.

(** A second writer: before each write of the service, the next scripted
    foreign write (if any) reaches the store first. *)
Definition racing : Type := world * list (option (string * doc)).

Definition handle_racing (X : Type) (e : eff X) (r : racing) : X * racing :=
  match e in eff X return X * racing with
  | GhPut path pl =>
      let '(w, script) := r in
      let w1 := match script with
                | Some (p, d) :: _ => (write p d w).2
                | _ => w
                end in
      let '(x, w2) := handle _ (GhPut path pl) w1 in
      (x, (w2, tail script))
  | e' => let '(x, w1) := handle _ e' r.1 in (x, (w1, r.2))
  end.

End Store.

(** The responses sent during a run, in order. *)
Definition responses (t : list event) : list response :=
  omap (fun ev => match ev with
                  | Ev (Respond r) _ => Some r
                  | Ev _ _ => None
                  end) t.

Definition trace_of {W A} (o : list event * W * result A) : list event := o.1.1.
Definition world_of {W A} (o : list event * W * result A) : W := o.1.2.
Definition result_of {W A} (o : list event * W * result A) : result A := o.2.

Lemma trace_of_triple {W A} (t : list event) (w : W) (r : result A) :
  trace_of (t, w, r) = t.
Proof. reflexivity. Qed.

(** ** The update helper against any store *)

Section Update.
Context {W : Type}.
Variable handle : forall X, eff X -> W -> X * W.
Context {B : Type}.

(** How one round of the update ends. [RoundPutFailed e initial'] is a
    failure of the put itself, [initial'] being the content the initial
    value has by then. *)
Inductive round_outcome : Type :=
| RoundDone (r : doc * B)
| RoundPutFailed (e : exn) (initial' : doc)
| RoundFailed (e : exn).

(** One round in the words of the specification: get-or-initialise, apply
    [mutate] to the value obtained, put with the version obtained. *)
Definition update_round (path : string) (mutate : doc -> prog (mutated B))
    (initial : doc) (msg : string) (w : W) : list event * W * round_outcome :=
  match run handle (ghGetOrInit path initial) w with
  | (t0, w0, Err e) => (t0, w0, RoundFailed e)
  | (t0, w0, Ok f) =>
      match run handle (mutate (f_json f)) w0 with
      | (t1, w1, Err e) => (t0 ++ t1, w1, RoundFailed e)
      | (t1, w1, Ok m) =>
          match run handle (ghPut path (m_result m) (Some (f_sha f)) msg) w1 with
          | (t2, w2, Ok _) => (t0 ++ t1 ++ t2, w2, RoundDone (m_result m, m_aux m))
          | (t2, w2, Err e) =>
              (t0 ++ t1 ++ t2, w2,
               RoundPutFailed e (if f_is_init f then m_arg m else initial))
          end
      end
  end.

(** The update in the words of the specification: one round; if and only
    if its put fails with a version conflict (409), one more round, all of
    whose failures are final; every other failure is final at once. *)
Definition update_spec (path : string) (mutate : doc -> prog (mutated B))
    (initial : doc) (msg : string) (w : W) : list event * W * result (doc * B) :=
  match update_round path mutate initial msg w with
  | (t, w1, RoundDone r) => (t, w1, Ok r)
  | (t, w1, RoundFailed e) => (t, w1, Err e)
  | (t, w1, RoundPutFailed e initial') =>
      if bool_decide (response_status e = Some 409%nat) then
        match update_round path mutate initial' (msg +:+ " (retry)") w1 with
        | (t', w2, RoundDone r) => (t ++ t', w2, Ok r)
        | (t', w2, RoundPutFailed e' _) => (t ++ t', w2, Err e')
        | (t', w2, RoundFailed e') => (t ++ t', w2, Err e')
        end
      else (t, w1, Err e)
  end.

(** A put is one request; with a non-empty version token it is
    conditional on that token. *)
Lemma run_ghPut (path : string) (d : doc) (sha : option string) (msg : string) (w : W) :
  run handle (ghPut path d sha msg) w =
  let pl := Payload (if bool_decide (msg = "") then "update " +:+ path else msg)
              d GITHUB_BRANCH
              (match sha with
               | Some s => if bool_decide (s = "") then None else Some s
               | None => None
               end) in
  ([Ev (GhPut path pl) (handle _ (GhPut path pl) w).1],
   (handle _ (GhPut path pl) w).2, (handle _ (GhPut path pl) w).1).
Proof.
  unfold ghPut. rewrite run_bind, run_trigger. simpl.
  by rewrite run_lift.
Qed.

Lemma run_ghUpdate (path : string) (mutate : doc -> prog (mutated B))
    (initial : doc) (msg : string) (w : W) :
  run handle (ghUpdate path mutate initial msg) w
  = update_spec path mutate initial msg w.
Proof.
  unfold ghUpdate, update_spec, update_round.
  rewrite run_bind.
  destruct (run handle (ghGetOrInit path initial) w) as [[t0 w0] [f|e]]; [|done].
  rewrite run_bind.
  destruct (run handle (mutate (f_json f)) w0) as [[t1 w1] [m|e]]; [|done].
  rewrite run_try_catch, run_bind.
  destruct (run handle (ghPut path (m_result m) (Some (f_sha f)) msg) w1)
    as [[t2 w2] [s|e]]; simpl.
  { by rewrite !app_nil_r. }
  case_bool_decide; simpl; [|by rewrite !app_nil_r].
  rewrite run_bind.
  destruct (run handle (ghGetOrInit path _) w2) as [[t3 w3] [f'|e']];
    [|by rewrite <- !app_assoc].
  rewrite run_bind.
  destruct (run handle (mutate (f_json f')) w3) as [[t4 w4] [m'|e']];
    [|by rewrite <- !app_assoc].
  rewrite run_bind.
  destruct (run handle (ghPut path (m_result m') (Some (f_sha f')) _) w4)
    as [[t5 w5] [s'|e']]; simpl; by rewrite ?app_nil_r, <- ?app_assoc.
Qed.

(** C1. For every path, mutator and initial value, against every store:
    the update gets-or-initialises, applies the mutator and puts with the
    version token obtained (a conditional put); exactly when that put
    fails with a version conflict it runs one more round (re-fetch,
    re-apply the mutator to the fresh value, put with the fresh token),
    whose failures, a second conflict included, reach the caller; any
    other failure of the first round reaches the caller with no retry. *)
Theorem ghUpdate_retries_once (path : string) (mutate : doc -> prog (mutated B))
    (initial : doc) (msg : string) (w : W) :
  run handle (ghUpdate path mutate initial msg) w
  = update_spec path mutate initial msg w
  /\ (forall d sha w', sha <> "" ->
        trace_of (run handle (ghPut path d (Some sha) msg) w')
        = [Ev (GhPut path (Payload (if bool_decide (msg = "")
                                    then "update " +:+ path else msg)
                             d GITHUB_BRANCH (Some sha)))
             (handle _ (GhPut path (Payload (if bool_decide (msg = "")
                                             then "update " +:+ path else msg)
                                      d GITHUB_BRANCH (Some sha))) w').1]).
Proof.
  split; [apply run_ghUpdate|].
  intros d sha w' Hsha. rewrite run_ghPut. unfold trace_of. simpl.
  destruct (bool_decide (sha = "")) eqn:E; [by apply bool_decide_eq_true in E|done].
Qed.
End Update.

(** ** The helpers on the sequential store *)

Ltac run_steps :=
  repeat first
    [ rewrite run_bind | rewrite run_try_catch | rewrite run_trigger
    | rewrite run_lift | rewrite run_Ret | rewrite run_Throw | progress simpl ].

Module StoreFacts.
Import Store.

Lemma sha_of_nonempty (n : nat) : sha_of n <> "".
Proof. by destruct n. Qed.

(** The payload [ghPut] sends. *)
Definition put_payload (path : string) (d : doc) (sha : option string)
    (msg : string) : payload :=
  Payload (if bool_decide (msg = "") then "update " +:+ path else msg)
    d GITHUB_BRANCH
    (match sha with
     | Some s => if bool_decide (s = "") then None else Some s
     | None => None
     end).

(** A put that names the current token of the file, or no token, writes. *)
Lemma put_current (path : string) (d d0 : doc) (s : string) (msg : string) (w : world) :
  docs w !! path = Some (d0, s) ->
  run handle (ghPut path d (Some s) msg) w
  = ([Ev (GhPut path (put_payload path d (Some s) msg)) (Ok (sha_of (version w)))],
     (write path d w).2, Ok (sha_of (version w))).
Proof.
  intros Hd. rewrite run_ghPut. fold (put_payload path d (Some s) msg).
  unfold handle, put_payload. simpl. rewrite Hd.
  destruct (bool_decide (s = "")) eqn:E; simpl; [done|].
  by rewrite (bool_decide_eq_true_2 (s = s)).
Qed.

Lemma put_init (path : string) (d : doc) (msg : string) (w : world) :
  run handle (ghPut path d None msg) w
  = ([Ev (GhPut path (put_payload path d None msg)) (Ok (sha_of (version w)))],
     (write path d w).2, Ok (sha_of (version w))).
Proof.
  rewrite run_ghPut. fold (put_payload path d None msg).
  unfold handle, put_payload. simpl. by destruct (docs w !! path) as [[? ?]|].
Qed.

(** What [ghGetOrInit] does on the store: the trace, the world and the
    object returned. *)
Definition get_or_init (path : string) (init : doc) (w : world)
  : list event * world * fetched :=
  match docs w !! path with
  | Some (d, s) =>
      ([Ev (GhGet path) (Ok (GetData (RawJson d) s))], w, Fetched d s false)
  | None =>
      ([Ev (GhGet path) (Err (AxiosError (Some 404%nat)));
        Ev (GhPut path (put_payload path init None ("init " +:+ path)))
          (Ok (sha_of (version w)))],
       (write path init w).2, Fetched init (sha_of (version w)) true)
  end.

Lemma run_ghGetOrInit (path : string) (init : doc) (w : world) :
  run handle (ghGetOrInit path init) w
  = ((get_or_init path init w).1.1, (get_or_init path init w).1.2,
     Ok (get_or_init path init w).2).
Proof.
  unfold ghGetOrInit, get_or_init.
  rewrite run_try_catch, run_bind, run_trigger. simpl.
  destruct (docs w !! path) as [[d s]|] eqn:Hd; run_steps; [done|].
  rewrite put_init. by run_steps.
Qed.

Lemma get_or_init_docs (path : string) (init : doc) (w : world) :
  docs (get_or_init path init w).1.2 !! path
  = Some (f_json (get_or_init path init w).2, f_sha (get_or_init path init w).2).
Proof.
  unfold get_or_init. destruct (docs w !! path) as [[d s]|] eqn:Hd; simpl; [done|].
  by rewrite lookup_insert_eq.
Qed.

Lemma get_or_init_other (path q : string) (init : doc) (w : world) :
  path <> q ->
  docs (get_or_init path init w).1.2 !! q = docs w !! q.
Proof.
  intros Hq. unfold get_or_init.
  destruct (docs w !! path) as [[d s]|] eqn:Hd; simpl; [done|].
  by rewrite lookup_insert_ne.
Qed.

(** On the sequential store the first put of an update names the current
    token, so the update never needs its retry. *)
Lemma run_ghUpdate_ok {B} (path : string) (mutate : doc -> prog (mutated B))
    (init : doc) (msg : string) (w w1 : world) (t1 : list event) (m : mutated B) :
  run handle (mutate (f_json (get_or_init path init w).2)) (get_or_init path init w).1.2
  = (t1, w1, Ok m) ->
  docs w1 = docs (get_or_init path init w).1.2 ->
  run handle (ghUpdate path mutate init msg) w
  = ((get_or_init path init w).1.1 ++ t1 ++
     [Ev (GhPut path (put_payload path (m_result m)
                        (Some (f_sha (get_or_init path init w).2)) msg))
        (Ok (sha_of (version w1)))],
     (write path (m_result m) w1).2, Ok (m_result m, m_aux m)).
Proof.
  intros Hm Hdocs.
  rewrite run_ghUpdate.
  unfold update_spec, update_round.
  rewrite run_ghGetOrInit, Hm.
  erewrite put_current; [done|].
  rewrite Hdocs. apply get_or_init_docs.
Qed.

Lemma run_ghUpdate_err {B} (path : string) (mutate : doc -> prog (mutated B))
    (init : doc) (msg : string) (w w1 : world) (t1 : list event) (e : exn) :
  run handle (mutate (f_json (get_or_init path init w).2)) (get_or_init path init w).1.2
  = (t1, w1, Err e) ->
  run handle (ghUpdate path mutate init msg) w
  = ((get_or_init path init w).1.1 ++ t1, w1, Err e).
Proof.
  intros Hm.
  rewrite run_ghUpdate.
  unfold update_spec, update_round.
  by rewrite run_ghGetOrInit, Hm.
Qed.

Lemma run_ghRead (path : string) (init : doc) (w : world) :
  run handle (ghRead path init) w
  = ((get_or_init path init w).1.1, (get_or_init path init w).1.2,
     Ok (f_json (get_or_init path init w).2)).
Proof.
  unfold ghRead. rewrite run_bind, run_ghGetOrInit. run_steps.
  by rewrite app_nil_r.
Qed.
End StoreFacts.

(** ** Get-or-initialise against any store *)

(** The event is a request to the contents API about [path]. *)
Definition on_path (path : string) (ev : event) : Prop :=
  match ev with
  | Ev (GhGet p) _ => p = path
  | Ev (GhPut p _) _ => p = path
  | Ev _ _ => False
  end.

Section GetOrInit.
Context {W : Type}.
Variable handle : forall X, eff X -> W -> X * W.

(** Get-or-initialise in the words of the specification: the value and
    version of an existing document; a missing document (404) is created
    with [initial], by a put that names no version, and [initial] comes
    back with the version the put assigned; every other failure, of the
    get or of the creating put, is the caller's. *)
Definition getOrInit_spec (path : string) (initial : doc) (w : W)
  : list event * W * result fetched :=
  let '(r, w1) := handle _ (GhGet path) w in
  match r with
  | Ok data =>
      ([Ev (GhGet path) r], w1,
       match parse_content (data_content data) with
       | Ok json => Ok (Fetched json (data_sha data) false)
       | Err e => Err e
       end)
  | Err e =>
      if bool_decide (response_status e = Some 404%nat) then
        let create := GhPut path (Payload ("init " +:+ path) initial GITHUB_BRANCH None) in
        let '(x, w2) := handle _ create w1 in
        ([Ev (GhGet path) r; Ev create x], w2,
         match x with
         | Ok sha => Ok (Fetched initial sha true)
         | Err e' => Err e'
         end)
      else ([Ev (GhGet path) r], w1, Err e)
  end.

Lemma run_ghGetOrInit_any (path : string) (initial : doc) (w : W) :
  run handle (ghGetOrInit path initial) w = getOrInit_spec path initial w.
Proof.
  unfold ghGetOrInit, getOrInit_spec.
  rewrite run_try_catch, run_bind, run_trigger.
  destruct (handle _ (GhGet path) w) as [[data|e] w1]; run_steps.
  - by destruct data as [[|d|] sha]; run_steps.
  - case_bool_decide; run_steps; [|done].
    rewrite run_ghPut. simpl.
    destruct (handle _ _ w1) as [[sha|e'] w2]; by run_steps.
Qed.

(** Get-or-initialise talks to the store about its own path only. *)
Lemma ghGetOrInit_on_path (path : string) (initial : doc) (w : W) :
  Forall (on_path path) (trace_of (run handle (ghGetOrInit path initial) w)).
Proof.
  rewrite run_ghGetOrInit_any. unfold getOrInit_spec, trace_of.
  destruct (handle _ (GhGet path) w) as [[data|e] w1]; simpl.
  - by repeat constructor.
  - case_bool_decide; [|by repeat constructor].
    destruct (handle _ _ w1) as [x w2]. by repeat constructor.
Qed.

Lemma ghRead_on_path (path : string) (initial : doc) (w : W) :
  Forall (on_path path) (trace_of (run handle (ghRead path initial) w)).
Proof.
  pose proof (ghGetOrInit_on_path path initial w) as Hp.
  unfold ghRead. rewrite run_bind.
  destruct (run handle (ghGetOrInit path initial) w) as [[t w1] [f|e]]; [|done].
  run_steps. by rewrite app_nil_r.
Qed.
End GetOrInit.

(** C7. Against every store, get-or-initialise on a document that is not
    there (404) creates it with the initial value given and returns that
    value with the version token the creation assigned; not-found is the
    only failure it absorbs. On the sequential store the document is there
    afterwards, and against an empty store GET /api/urls answers
    [{ok: true, enabled: true, urls: []}]. *)
Theorem ghGetOrInit_creates_missing :
  (forall W (handle : forall X, eff X -> W -> X * W) path initial w,
     run handle (ghGetOrInit path initial) w = getOrInit_spec handle path initial w)
  /\ (forall (w : Store.world) path initial,
        Store.docs w !! path = None ->
        exists sha,
          result_of (run Store.handle (ghGetOrInit path initial) w)
          = Ok (Fetched initial sha true)
          /\ Store.docs (world_of (run Store.handle (ghGetOrInit path initial) w))
             = <[path := (initial, sha)]> (Store.docs w))
  /\ (forall (w : Store.world) all,
        Store.docs w = ∅ ->
        responses (trace_of (run Store.handle (list_urls all) w))
        = [Response 200 (VObj [("ok", VBool true); ("enabled", VBool true);
                               ("urls", VArr [])])]).
Proof.
  split; [|split].
  - intros. apply run_ghGetOrInit_any.
  - intros w path initial Hd. exists (Store.sha_of (Store.version w)).
    rewrite StoreFacts.run_ghGetOrInit. unfold StoreFacts.get_or_init.
    by rewrite Hd.
  - intros w all Hd. unfold list_urls.
    rewrite run_try_catch, run_bind, StoreFacts.run_ghRead.
    unfold StoreFacts.get_or_init at 1 2 3. rewrite Hd, lookup_empty. simpl.
    rewrite run_bind, StoreFacts.run_ghRead.
    unfold StoreFacts.get_or_init. simpl.
    rewrite Hd, lookup_insert_ne, lookup_empty by done. simpl.
    rewrite run_bind, run_lift. simpl.
    by case_bool_decide; run_steps.
Qed.

Definition empty_world : Store.world :=
  Store.World ∅ 0 (fun _ => None) (fun n => "id" +:+ pretty n) 0 1700000000000.

Lemma ghGetOrInit_creates_missing_witness :
  (exists sha,
     result_of (run Store.handle (ghGetOrInit URLS_PATH [("urls", VArr [])]) empty_world)
     = Ok (Fetched [("urls", VArr [])] sha true)
     /\ Store.docs (world_of (run Store.handle
                                (ghGetOrInit URLS_PATH [("urls", VArr [])]) empty_world))
        = <[URLS_PATH := ([("urls", VArr [])], sha)]> (Store.docs empty_world))
  /\ responses (trace_of (run Store.handle (list_urls None) empty_world))
     = [Response 200 (VObj [("ok", VBool true); ("enabled", VBool true);
                            ("urls", VArr [])])].
Proof.
  destruct ghGetOrInit_creates_missing as (_ & Hcreate & Hlist).
  split.
  - apply Hcreate. reflexivity.
  - apply Hlist. reflexivity.
Defined.

(** ** Resolve *)

(** [u.k] as a value that may be [undefined], for [u] other than [null]. *)
Definition field (u : value) (k : string) : option value :=
  match u with
  | VObj fs => obj_lookup k fs
  | _ => None
  end.

(** The record has the given id and is not switched off. *)
Definition is_active_with_id (id : string) (u : value) : bool :=
  strict_eq_str (field u "id") id && not_false (field u "active").

Lemma get_prop_field (u : value) (k : string) :
  u <> VNull -> get_prop u k = Ok (field u k).
Proof. by destruct u. Qed.

Lemma findM_active (id : string) (xs : list value) :
  Forall (fun u => u <> VNull) xs ->
  findM (fun u => let? i := get_prop u "id" in
                  if strict_eq_str i id then
                    let? a := get_prop u "active" in Ok (not_false a)
                  else Ok false) xs
  = Ok (List.find (is_active_with_id id) xs).
Proof.
  induction 1 as [|u xs Hu _ IH]; [done|].
  simpl. rewrite !get_prop_field by done. simpl.
  unfold is_active_with_id.
  destruct (strict_eq_str (field u "id") id); simpl; [|done].
  by destruct (not_false (field u "active")).
Qed.

Lemma responses_app (t1 t2 : list event) :
  responses (t1 ++ t2) = responses t1 ++ responses t2.
Proof. apply omap_app. Qed.

Lemma responses_on_path (path : string) (t : list event) :
  Forall (on_path path) t -> responses t = [].
Proof.
  induction 1 as [|ev t Hev _ IH]; [done|].
  destruct ev as [X e x]. by destruct e.
Qed.

Lemma on_path_other (p q : string) (t : list event) :
  p <> q -> Forall (on_path p) t -> Forall (fun ev => ~ on_path q ev) t.
Proof.
  intros Hpq Hp. eapply Forall_impl; [exact Hp|]. intros [X e x] Hev.
  destruct e; simpl in *; congruence.
Qed.

Section Resolve.
Context {W : Type}.
Variable handle : forall X, eff X -> W -> X * W.

Lemma run_respond (st : nat) (body : value) (w : W) :
  run handle (respond st body) w
  = ([Ev (Respond (Response st body)) tt],
     (handle _ (Respond (Response st body)) w).2, Ok tt).
Proof.
  unfold respond. rewrite run_trigger.
  by destruct (handle _ _ w) as [[] w1].
Qed.

(** The resolve route when the service is closed. *)
Lemma run_resolve_closed (w : W) (id : string) (t1 : list event) (w1 : W) (state : doc) :
  run handle (ghRead STATE_PATH [("enabled", VBool true)]) w = (t1, w1, Ok state) ->
  truthy_opt (obj_lookup "enabled" state) = false ->
  trace_of (run handle (resolve id) w)
  = t1 ++ [Ev (Respond (Response 403 (fail_body "Access disabled"))) tt].
Proof.
  intros Hstate Hoff. unfold resolve.
  rewrite run_try_catch, run_bind, Hstate, Hoff. simpl.
  by rewrite run_respond.
Qed.

(** The resolve route when the service is open and the catalog is read. *)
Lemma resolve_responses_open (w : W) (id : string) (t1 t2 : list event) (w1 w2 : W)
    (state urls : doc) (xs : list value) :
  run handle (ghRead STATE_PATH [("enabled", VBool true)]) w = (t1, w1, Ok state) ->
  truthy_opt (obj_lookup "enabled" state) = true ->
  run handle (ghRead URLS_PATH [("urls", VArr [])]) w1 = (t2, w2, Ok urls) ->
  obj_lookup "urls" urls = Some (VArr xs) ->
  Forall (fun u => u <> VNull) xs ->
  responses (trace_of (run handle (resolve id) w))
  = [match List.find (is_active_with_id id) xs with
     | None => Response 404 (fail_body "Not found")
     | Some it =>
         Response 200
           (obj_of [("ok", Some (VBool true)); ("id", field it "id");
                    ("title", field it "title");
                    ("favicon", field it "favicon");
                    ("url", field it "url")])
     end].
Proof.
  intros Hstate Hon Hurls Hxs Hnn.
  pose proof (ghRead_on_path handle STATE_PATH [("enabled", VBool true)] w) as Hp1.
  rewrite Hstate in Hp1. unfold trace_of in Hp1. simpl in Hp1.
  pose proof (ghRead_on_path handle URLS_PATH [("urls", VArr [])] w1) as Hp2.
  rewrite Hurls in Hp2. unfold trace_of in Hp2. simpl in Hp2.
  unfold resolve. rewrite run_try_catch, run_bind, Hstate, Hon. simpl.
  rewrite run_bind, Hurls, Hxs. simpl.
  rewrite run_bind, run_lift, findM_active by done. simpl.
  destruct (List.find (is_active_with_id id) xs) as [it|] eqn:Hfind.
  - apply find_some in Hfind as [Hin Hact].
    assert (it <> VNull) as Hit.
    { rewrite Forall_forall in Hnn. apply Hnn. by apply list_elem_of_In. }
    rewrite !run_bind, !get_prop_field by done. run_steps.
    rewrite run_respond. unfold trace_of. simpl.
    rewrite !responses_app, (responses_on_path _ _ Hp1), (responses_on_path _ _ Hp2).
    done.
  - rewrite run_respond. unfold trace_of. simpl.
    rewrite !responses_app, (responses_on_path _ _ Hp1), (responses_on_path _ _ Hp2).
    done.
Qed.

(** C2. For every id, once the state document is read: if [enabled] is
    false (or otherwise falsy) the answer is 403 "Access disabled", sent
    right after the state was read, with no request about the catalog;
    if it is truthy and the catalog is read, the answer is 404 when no
    record has that id with [active] other than [false], and otherwise
    [{ok, id, title, favicon, url}] of the first such record. *)
Theorem resolve_gated (w : W) (id : string) (t1 : list event) (w1 : W) (state : doc) :
  run handle (ghRead STATE_PATH [("enabled", VBool true)]) w = (t1, w1, Ok state) ->
  (truthy_opt (obj_lookup "enabled" state) = false ->
     trace_of (run handle (resolve id) w)
     = t1 ++ [Ev (Respond (Response 403 (fail_body "Access disabled"))) tt]
     /\ Forall (fun ev => ~ on_path URLS_PATH ev) (trace_of (run handle (resolve id) w)))
  /\ (truthy_opt (obj_lookup "enabled" state) = true ->
      forall t2 w2 urls xs,
        run handle (ghRead URLS_PATH [("urls", VArr [])]) w1 = (t2, w2, Ok urls) ->
        obj_lookup "urls" urls = Some (VArr xs) ->
        Forall (fun u => u <> VNull) xs ->
        responses (trace_of (run handle (resolve id) w))
        = [match List.find (is_active_with_id id) xs with
           | None => Response 404 (fail_body "Not found")
           | Some it =>
               Response 200
                 (obj_of [("ok", Some (VBool true)); ("id", field it "id");
                          ("title", field it "title");
                          ("favicon", field it "favicon");
                          ("url", field it "url")])
           end]).
Proof.
  intros Hstate. split.
  - intros Hoff.
    pose proof (ghRead_on_path handle STATE_PATH [("enabled", VBool true)] w) as Hp1.
    rewrite Hstate in Hp1. unfold trace_of in Hp1. simpl in Hp1.
    rewrite (run_resolve_closed w id t1 w1 state Hstate Hoff).
    split; [done|]. apply Forall_app. split.
    + by apply (on_path_other STATE_PATH).
    + repeat constructor. simpl. tauto.
  - intros Hon t2 w2 urls xs Hurls Hxs Hnn.
    by apply (resolve_responses_open w id t1 t2 w1 w2 state urls xs).
Qed.
End Resolve.

(** Two stores to run scenarios on: a catalog of two records, the second
    switched off; the service open in the first store and closed in the
    second. *)
Definition record (id url title favicon : string) (active : bool) : value :=
  VObj [("id", VStr id); ("url", VStr url); ("title", VStr title);
        ("favicon", VStr favicon); ("active", VBool active);
        ("createdAt", VNum 1690000000000)].

Definition demo_catalog : doc :=
  [("urls", VArr [record "aaa" "http://a.example" "A" "http://a.example/i.png" true;
                  record "bbb" "http://b.example" "B" "" false])].

Definition demo_docs (enabled : bool) : gmap string (doc * string) :=
  <[URLS_PATH := (demo_catalog, "u1")]>
    (<[PINS_PATH := ([("pins", VArr [VStr "1234"; VStr "9999"])], "p1")]>
       (<[STATE_PATH := ([("enabled", VBool enabled)], "s1")]> ∅)).

Definition demo_world (enabled : bool) : Store.world :=
  Store.World (demo_docs enabled) 5 (fun _ => None) (fun n => "id" +:+ pretty n)
    0 1700000000000.

Lemma resolve_gated_witness :
  trace_of (run Store.handle (resolve "aaa") (demo_world false))
  = [Ev (GhGet STATE_PATH) (Ok (GetData (RawJson [("enabled", VBool false)]) "s1"));
     Ev (Respond (Response 403 (fail_body "Access disabled"))) tt]
  /\ responses (trace_of (run Store.handle (resolve "aaa") (demo_world true)))
     = [Response 200
          (VObj [("ok", VBool true); ("id", VStr "aaa"); ("title", VStr "A");
                 ("favicon", VStr "http://a.example/i.png");
                 ("url", VStr "http://a.example")])]
  /\ responses (trace_of (run Store.handle (resolve "bbb") (demo_world true)))
     = [Response 404 (fail_body "Not found")].
Proof.
  split; [|split].
  - apply (proj1 (resolve_gated Store.handle (demo_world false) "aaa"
                    [Ev (GhGet STATE_PATH)
                       (Ok (GetData (RawJson [("enabled", VBool false)]) "s1"))]
                    (demo_world false) [("enabled", VBool false)] eq_refl)).
    reflexivity.
  - apply (proj2 (resolve_gated Store.handle (demo_world true) "aaa"
                    [Ev (GhGet STATE_PATH)
                       (Ok (GetData (RawJson [("enabled", VBool true)]) "s1"))]
                    (demo_world true) [("enabled", VBool true)] eq_refl)
             eq_refl
             [Ev (GhGet URLS_PATH) (Ok (GetData (RawJson demo_catalog) "u1"))]
             (demo_world true) demo_catalog _ eq_refl eq_refl).
    repeat constructor; discriminate.
  - apply (proj2 (resolve_gated Store.handle (demo_world true) "bbb"
                    [Ev (GhGet STATE_PATH)
                       (Ok (GetData (RawJson [("enabled", VBool true)]) "s1"))]
                    (demo_world true) [("enabled", VBool true)] eq_refl)
             eq_refl
             [Ev (GhGet URLS_PATH) (Ok (GetData (RawJson demo_catalog) "u1"))]
             (demo_world true) demo_catalog _ eq_refl eq_refl).
    repeat constructor; discriminate.
Defined.

(** ** The probe *)

(** The first non-empty [href] among the [icon], [shortcut icon] and
    [apple-touch-icon] links, in that order. *)
Definition first_icon (pg : page) : option string :=
  head (filter (fun s => s <> "")
          (omap id [pg_icon pg; pg_shortcut_icon pg; pg_apple_touch_icon pg])).

Section ProbeFacts.
Context `{URLApi} {W : Type}.
Variable handle : forall X, eff X -> W -> X * W.

(** [<origin>/favicon.ico], or the empty string when the page URL has no
    origin because it does not parse. *)
Definition favicon_fallback (targetUrl : value) : string :=
  match URL_origin targetUrl with
  | Some origin => origin +:+ "/favicon.ico"
  | None => ""
  end.

(** What the probe answers, in the words of the specification. *)
Definition probe_spec (targetUrl : value) (fetched : option page) : page_meta :=
  match fetched with
  | None => PageMeta "" (favicon_fallback targetUrl)
  | Some pg =>
      PageMeta (pg_title pg)
        (match first_icon pg with
         | Some href =>
             match URL_href href targetUrl with
             | Some absolute => absolute
             | None => favicon_fallback targetUrl
             end
         | None => favicon_fallback targetUrl
         end)
  end.

Lemma attr_or_first (pg : page) :
  default "" (attr_or (pg_icon pg)
                (attr_or (pg_shortcut_icon pg)
                   (attr_or (pg_apple_touch_icon pg) (Some ""))))
  = default "" (first_icon pg).
Proof.
  unfold first_icon, attr_or.
  destruct pg as [t [a|] [b|] [c|]]; simpl;
    repeat (rewrite ?filter_cons, ?filter_nil; simpl;
            repeat case_bool_decide; repeat case_decide; simpl; try done).
Qed.

Lemma first_icon_nonempty (pg : page) (href : string) :
  first_icon pg = Some href -> href <> "".
Proof.
  unfold first_icon. intros Hh. apply head_Some_elem_of in Hh.
  by apply list_elem_of_filter in Hh as [? _].
Qed.

Lemma run_getPageMeta (targetUrl : value) (w : W) :
  run handle (getPageMeta targetUrl) w
  = ([Ev (AxiosGet targetUrl) (handle _ (AxiosGet targetUrl) w).1],
     (handle _ (AxiosGet targetUrl) w).2,
     Ok (probe_spec targetUrl (handle _ (AxiosGet targetUrl) w).1)).
Proof.
  unfold getPageMeta. rewrite run_bind, run_trigger. simpl.
  destruct (handle _ (AxiosGet targetUrl) w) as [[pg|] w1]; simpl.
  - rewrite attr_or_first. unfold probe_spec, getPageMeta_catch, favicon_fallback.
    destruct (first_icon pg) as [href|] eqn:Hicon; simpl.
    + rewrite bool_decide_eq_false_2 by by eapply first_icon_nonempty.
      destruct (URL_href href targetUrl); run_steps; [done|].
      by destruct (URL_origin targetUrl).
    + by destruct (URL_origin targetUrl); run_steps.
  - run_steps. unfold getPageMeta_catch, favicon_fallback.
    by destruct (URL_origin targetUrl).
Qed.

(** C8, as the code has it. For every input the probe makes one fetch,
    returns and never throws. When the page is fetched, the title is the
    page's title and the favicon is the first non-empty of the [icon],
    [shortcut icon] and [apple-touch-icon] references, in that order and
    without merging, resolved against the page URL; when there is none, or
    it does not resolve, the favicon is the fallback. When the fetch fails
    the title is empty and the favicon is the fallback. The fallback is
    [<origin>/favicon.ico], and the empty string if the input itself does
    not parse as a URL. *)
Theorem getPageMeta_never_throws (targetUrl : value) (w : W) :
  exists meta,
    run handle (getPageMeta targetUrl) w
    = ([Ev (AxiosGet targetUrl) (handle _ (AxiosGet targetUrl) w).1],
       (handle _ (AxiosGet targetUrl) w).2, Ok meta)
    /\ ((handle _ (AxiosGet targetUrl) w).1 = None ->
        meta_title meta = "" /\ meta_favicon meta = favicon_fallback targetUrl)
    /\ (forall pg,
          (handle _ (AxiosGet targetUrl) w).1 = Some pg ->
          meta_title meta = pg_title pg
          /\ (forall href absolute,
                first_icon pg = Some href ->
                URL_href href targetUrl = Some absolute ->
                meta_favicon meta = absolute)
          /\ (forall href,
                first_icon pg = Some href ->
                URL_href href targetUrl = None ->
                meta_favicon meta = favicon_fallback targetUrl)
          /\ (first_icon pg = None ->
              meta_favicon meta = favicon_fallback targetUrl))
    /\ (forall origin,
          URL_origin targetUrl = Some origin ->
          favicon_fallback targetUrl = origin +:+ "/favicon.ico")
    /\ (URL_origin targetUrl = None -> favicon_fallback targetUrl = "").
Proof.
  exists (probe_spec targetUrl (handle _ (AxiosGet targetUrl) w).1).
  split; [apply run_getPageMeta|].
  split; [by intros ->|]. split; [|split].
  - intros pg ->. simpl. split; [done|]. split; [|split].
    + by intros href absolute -> ->.
    + by intros href -> ->.
    + by intros ->.
  - intros origin Ho. unfold favicon_fallback. by rewrite Ho.
  - intros Ho. unfold favicon_fallback. by rewrite Ho.
Qed.
End ProbeFacts.

(** A small URL parser to run scenarios with: [http://host] or
    [https://host], then an optional path. A reference that has one of the
    two schemes must parse by itself; any other is taken relative to the
    origin of the base. *)
Fixpoint split_host (s : string) : string * string :=
  match s with
  | EmptyString => ("", "")
  | String c s' =>
      if bool_decide (String c "" = "/") then ("", s)
      else let '(h, p) := split_host s' in (String c h, p)
  end.

Definition split_url (s : string) : option (string * string * string) :=
  let after scheme :=
    match strip_prefix scheme s with
    | Some rest =>
        let '(h, p) := split_host rest in
        if bool_decide (h = "") then None else Some (scheme +:+ h, h, p)
    | None => None
    end in
  match after "http://" with
  | Some r => Some r
  | None => after "https://"
  end.

Definition simple_urls : URLApi :=
  {| url_origin s := (fun r => r.1.1) <$> split_url s;
     url_hostname s := (fun r => r.1.2) <$> split_url s;
     url_href r b :=
       match strip_prefix "http://" r, strip_prefix "https://" r with
       | None, None =>
           match split_url b, strip_prefix "/" r with
           | Some (origin, _, _), Some _ => Some (origin +:+ r)
           | Some (origin, _, _), None => Some (origin +:+ "/" +:+ r)
           | None, _ => None
           end
       | _, _ => match split_url r with
                 | Some _ => Some r
                 | None => None
                 end
       end |}.

(** A world whose web serves three pages: one with a title and none of the
    three icon links; one whose [icon] link has an empty [href] and whose
    other two links have one; one whose [icon] reference, "http://", is not
    a URL. *)
Definition example_web (url : value) : option page :=
  match url with
  | VStr "http://example.com" => Some (Page "Example Domain" None None None)
  | VStr "http://icons.example/home" =>
      Some (Page "Icons" (Some "") (Some "/s.ico") (Some "/a.png"))
  | VStr "http://broken.example" => Some (Page "Broken" (Some "http://") None None)
  | _ => None
  end.

Definition web_world : Store.world :=
  Store.World ∅ 0 example_web (fun n => "id" +:+ pretty n) 0 1700000000000.

Lemma getPageMeta_never_throws_witness :
  exists meta,
    run Store.handle (@getPageMeta simple_urls (VStr "http://icons.example/home")) web_world
    = ([Ev (AxiosGet (VStr "http://icons.example/home"))
          (Some (Page "Icons" (Some "") (Some "/s.ico") (Some "/a.png")))],
       web_world, Ok meta)
    /\ meta_title meta = "Icons"
    /\ meta_favicon meta = "http://icons.example/s.ico".
Proof.
  destruct (@getPageMeta_never_throws simple_urls Store.world Store.handle
              (VStr "http://icons.example/home") web_world)
    as (meta & Hrun & _ & Hpage & _).
  exists meta. split; [exact Hrun|].
  destruct (Hpage (Page "Icons" (Some "") (Some "/s.ico") (Some "/a.png")) eq_refl)
    as (Htitle & Hicon & _).
  split; [exact Htitle|].
  apply (Hicon "/s.ico" "http://icons.example/s.ico"); reflexivity.
Defined.

(** C8 as stated fails in three places. A fetch that fails on an input that
    does not parse as a URL leaves the favicon empty: there is no origin to
    fall back to. When none of the icon links is present the title is the
    page's, not the empty string. And a first non-empty reference that does
    not resolve is not the favicon: the fallback is. *)
Lemma getPageMeta_counterexample :
  (exists m, result_of (run Store.handle (@getPageMeta simple_urls (VStr "not a url"))
                          web_world) = Ok m
             /\ example_web (VStr "not a url") = None
             /\ meta_favicon m = ""
             /\ forall origin, meta_favicon m <> origin +:+ "/favicon.ico")
  /\ (exists m, result_of (run Store.handle
                             (@getPageMeta simple_urls (VStr "http://example.com"))
                             web_world) = Ok m
                /\ first_icon (Page "Example Domain" None None None) = None
                /\ meta_favicon m = "http://example.com/favicon.ico"
                /\ meta_title m <> "")
  /\ (exists m, result_of (run Store.handle
                             (@getPageMeta simple_urls (VStr "http://broken.example"))
                             web_world) = Ok m
                /\ first_icon (Page "Broken" (Some "http://") None None) = Some "http://"
                /\ meta_favicon m = "http://broken.example/favicon.ico").
Proof.
  split; [|split].
  - exists (PageMeta "" ""). split; [reflexivity|]. split; [reflexivity|].
    split; [reflexivity|]. intros origin. simpl. by destruct origin.
  - exists (PageMeta "Example Domain" "http://example.com/favicon.ico").
    split; [reflexivity|]. split; [reflexivity|]. split; [reflexivity|]. done.
  - exists (PageMeta "Broken" "http://broken.example/favicon.ico").
    split; [reflexivity|]. split; reflexivity.
Qed.

(** ** Admin tokens *)

Lemma strip_prefix_app (pat t : string) : strip_prefix pat (pat +:+ t) = Some t.
Proof.
  induction pat as [|a pat IH]; simpl; [done|].
  by rewrite bool_decide_eq_true_2.
Qed.

Lemma strip_prefix_Some (pat s rest : string) :
  strip_prefix pat s = Some rest -> s = pat +:+ rest.
Proof.
  revert s. induction pat as [|a pat IH]; intros s; simpl.
  - by intros [= ->].
  - destruct s as [|b s]; [done|]. case_bool_decide; [|done].
    intros Hs. subst b. by rewrite (IH _ Hs).
Qed.

Lemma remove_first_unfold (pat s : string) :
  remove_first pat s
  = match strip_prefix pat s with
    | Some rest => rest
    | None =>
        match s with
        | EmptyString => EmptyString
        | String c s' => String c (remove_first pat s')
        end
    end.
Proof. by destruct s. Qed.

(** A header that starts with the pattern loses exactly that prefix. *)
Lemma remove_first_prefix (pat t : string) : remove_first pat (pat +:+ t) = t.
Proof. by rewrite remove_first_unfold, strip_prefix_app. Qed.

(** A string in which the pattern does not occur is left as it is. *)
Lemma remove_first_absent (pat s : string) :
  (forall a b, s <> a +:+ pat +:+ b) -> remove_first pat s = s.
Proof.
  induction s as [|c s IH]; intros Habs; rewrite remove_first_unfold.
  - destruct (strip_prefix pat "") as [rest|] eqn:Hp; [|done].
    apply strip_prefix_Some in Hp. by destruct (Habs "" rest).
  - destruct (strip_prefix pat (String c s)) as [rest|] eqn:Hp.
    + apply strip_prefix_Some in Hp. by destruct (Habs "" rest).
    + f_equal. apply IH. intros a b Hs. apply (Habs (String c a) b).
      simpl. by rewrite Hs.
Qed.

Lemma occurs_prefix (pat t : string) : occurs pat (pat +:+ t) = true.
Proof.
  assert (forall s, occurs pat s
                    = match strip_prefix pat s with
                      | Some _ => true
                      | None => match s with
                                | EmptyString => false
                                | String _ s' => occurs pat s'
                                end
                      end) as Hunfold by by intros [|? ?].
  by rewrite Hunfold, strip_prefix_app.
Qed.

Lemma occurs_false (pat s : string) :
  occurs pat s = false -> forall a b, s <> a +:+ pat +:+ b.
Proof.
  induction s as [|c s IH]; intros Hocc a b Hs.
  - destruct a as [|c' a]; [|done].
    change ("" = pat +:+ b) in Hs. by rewrite Hs, occurs_prefix in Hocc.
  - destruct a as [|c' a].
    + change (String c s = pat +:+ b) in Hs. by rewrite Hs, occurs_prefix in Hocc.
    + injection Hs as -> Hs. simpl in Hocc.
      destruct (strip_prefix pat (String c' s)); [done|].
      by apply (IH Hocc a b).
Qed.

(** C10, as the code has it. The middleware removes the first occurrence
    of "Bearer " from the header, wherever it occurs, and lets the request
    through exactly when what is left is non-empty and a stored token. So
    "Bearer " followed by a stored token passes, and so does a stored
    token sent bare, provided it does not itself contain "Bearer ". *)
Theorem auth_strips_first_bearer (hdr : option string) (tokens : gset string)
    (next : prog unit) :
  (remove_first "Bearer " (default "" hdr) <> ""
   /\ remove_first "Bearer " (default "" hdr) ∈ tokens ->
   auth hdr tokens next = next)
  /\ (~ (remove_first "Bearer " (default "" hdr) <> ""
         /\ remove_first "Bearer " (default "" hdr) ∈ tokens) ->
      auth hdr tokens next = respond 401 (fail_body "unauthorized"))
  /\ (forall t, t ∈ tokens -> t <> "" ->
        auth (Some ("Bearer " +:+ t)) tokens next = next)
  /\ (forall t, t ∈ tokens -> t <> "" ->
        (forall a b, t <> a +:+ "Bearer " +:+ b) ->
        auth (Some t) tokens next = next).
Proof.
  assert (forall h, remove_first "Bearer " (default "" h) <> ""
                    /\ remove_first "Bearer " (default "" h) ∈ tokens ->
                    auth h tokens next = next) as Hpass.
  { intros h [Hne Hin]. unfold auth.
    by rewrite bool_decide_eq_false_2, bool_decide_eq_true_2. }
  split; [apply Hpass|]. split; [|split].
  - intros Hno. unfold auth.
    case_bool_decide; [done|]. case_bool_decide; [|done]. tauto.
  - intros t Hin Hne. apply Hpass. simpl default.
    by rewrite remove_first_prefix.
  - intros t Hin Hne Habs. apply Hpass. simpl default.
    by rewrite remove_first_absent.
Qed.

Lemma auth_strips_first_bearer_witness :
  auth (Some "Bearer adm_abc") {["adm_abc"]} (respond 200 VNull) = respond 200 VNull
  /\ auth (Some "adm_abc") {["adm_abc"]} (respond 200 VNull) = respond 200 VNull
  /\ auth (Some "Bearer adm_xyz") {["adm_abc"]} (respond 200 VNull)
     = respond 401 (fail_body "unauthorized").
Proof.
  split; [|split].
  - apply (proj1 (proj2 (proj2 (auth_strips_first_bearer
                                  None {["adm_abc"]} (respond 200 VNull))))).
    + by apply elem_of_singleton.
    + done.
  - apply (proj2 (proj2 (proj2 (auth_strips_first_bearer
                                  None {["adm_abc"]} (respond 200 VNull))))).
    + by apply elem_of_singleton.
    + done.
    + by apply occurs_false.
  - apply (proj1 (proj2 (auth_strips_first_bearer
                           (Some "Bearer adm_xyz") {["adm_abc"]} (respond 200 VNull)))).
    intros [_ Hin]. apply elem_of_singleton in Hin. by vm_compute in Hin.
Defined.

(** C10 as stated fails: a header that is neither a stored token nor
    "Bearer " followed by one is let through, because the "Bearer " removed
    need not be at the start. *)
Lemma auth_counterexample :
  auth (Some "adm_Bearer abc") {["adm_abc"]} (remove "aaa") = remove "aaa"
  /\ "adm_Bearer abc" <> "adm_abc"
  /\ "adm_Bearer abc" <> "Bearer " +:+ "adm_abc"
  /\ remove "aaa" <> respond 401 (fail_body "unauthorized").
Proof.
  split; [|split; [done|split; [done|]]].
  - unfold auth. simpl default.
    change (remove_first "Bearer " "adm_Bearer abc") with "adm_abc".
    rewrite bool_decide_eq_false_2 by done.
    by rewrite bool_decide_eq_true_2 by by apply elem_of_singleton.
  - vm_compute. discriminate.
Qed.

Lemma strings_of_strings (ps : list string) : strings_of (VStr <$> ps) = Ok ps.
Proof. induction ps as [|p ps IH]; [done|]. rewrite fmap_cons. simpl. by rewrite IH. Qed.

Section Login.
Context {W : Type}.
Variable handle : forall X, eff X -> W -> X * W.

Lemma run_checkPin (pin : value) (w w1 : W) (t1 : list event) (pins : doc)
    (xs : list value) :
  run handle (ghRead PINS_PATH [("pins", VArr [VStr "1234"])]) w = (t1, w1, Ok pins) ->
  obj_lookup "pins" pins = Some (VArr xs) ->
  run handle (checkPin pin) w
  = (t1, w1,
     let? entries := strings_of xs in
     let? p := js_String pin in
     Ok (bool_decide (p ∈ entries))).
Proof.
  intros Hread Hxs. unfold checkPin.
  rewrite run_bind, Hread, Hxs. simpl. rewrite run_bind, run_lift.
  destruct (strings_of xs) as [entries|e]; simpl; [|by rewrite app_nil_r].
  rewrite run_bind, run_lift.
  destruct (js_String pin) as [p|e]; simpl; by rewrite ?run_Ret, ?app_nil_r.
Qed.

(** C6, as the code has it. A pin that is missing or falsy (the empty
    string included) is refused with 401 before the PinSet is read. For
    every non-empty pin string, once the PinSet, an array of strings, is
    read: if the pin is among its entries, the login answers with a fresh
    token ["adm_" + nanoid(16)], the token joins the token set, and
    "Bearer " followed by it passes [auth] from then on; otherwise the
    login is refused with 401 and the token set stays as it was. *)
Theorem login_issues_token (w : W) (body : option value) (tokens : gset string) :
  (truthy_opt (body_field body "pin") = false ->
     trace_of (run handle (login body tokens) w)
     = [Ev (Respond (Response 401 (fail_body "bad pin"))) tt]
     /\ result_of (run handle (login body tokens) w) = Ok tokens)
  /\ (forall p t1 w1 pins ps,
        body_field body "pin" = Some (VStr p) ->
        p <> "" ->
        run handle (ghRead PINS_PATH [("pins", VArr [VStr "1234"])]) w
        = (t1, w1, Ok pins) ->
        obj_lookup "pins" pins = Some (VArr (VStr <$> ps)) ->
        (p ∈ ps ->
           let token := "adm_" +:+ (handle _ (Nanoid 16) w1).1 in
           result_of (run handle (login body tokens) w) = Ok ({[token]} ∪ tokens)
           /\ responses (trace_of (run handle (login body tokens) w))
              = [Response 200 (VObj [("ok", VBool true); ("token", VStr token)])]
           /\ forall next : prog unit,
                auth (Some ("Bearer " +:+ token)) ({[token]} ∪ tokens) next = next)
        /\ (p ∉ ps ->
            result_of (run handle (login body tokens) w) = Ok tokens
            /\ responses (trace_of (run handle (login body tokens) w))
               = [Response 401 (fail_body "bad pin")])).
Proof.
  split.
  - intros Hpin. unfold login.
    assert (run handle
              (match body_field body "pin" with
               | Some p => if truthy p
                           then let* ok := checkPin p in Ret (negb ok)
                           else Ret true
               | None => Ret true
               end) w = ([], w, Ok true)) as Hbad.
    { destruct (body_field body "pin") as [p|]; simpl in Hpin; [|done].
      by rewrite Hpin. }
    rewrite run_bind, Hbad. simpl. rewrite run_bind, run_respond. by run_steps.
  - intros p t1 w1 pins ps Hbody Hpin Hread Hxs.
    pose proof (ghRead_on_path handle PINS_PATH [("pins", VArr [VStr "1234"])] w) as Hp.
    rewrite Hread in Hp. unfold trace_of in Hp. simpl in Hp.
    apply responses_on_path in Hp.
    unfold login. rewrite Hbody. simpl truthy.
    rewrite (bool_decide_eq_false_2 _ Hpin). simpl negb. cbv iota.
    rewrite !run_bind, (run_checkPin (VStr p) w w1 t1 pins _ Hread Hxs).
    rewrite strings_of_strings. simpl.
    split.
    + intros Hin. rewrite bool_decide_eq_true_2 by done. run_steps.
      unfold randomToken. run_steps. rewrite run_respond. run_steps.
      unfold result_of, trace_of. simpl. split; [done|]. split.
      * by rewrite app_nil_r, responses_app, Hp.
      * intros next. unfold auth. simpl default. rewrite remove_first_prefix.
        rewrite bool_decide_eq_false_2 by done.
        rewrite bool_decide_eq_true_2; [done|].
        apply elem_of_union_l. by apply elem_of_singleton.
    + intros Hout. rewrite bool_decide_eq_false_2 by done. run_steps.
      rewrite run_respond. run_steps. unfold result_of, trace_of. simpl.
      split; [done|]. by rewrite app_nil_r, responses_app, Hp.
Qed.
End Login.

(** C6 as stated fails for the empty pin: with the empty string in the
    PinSet, a login with the empty string is refused and no token is
    issued. *)
Definition empty_pin_world : Store.world :=
  Store.World (<[PINS_PATH := ([("pins", VArr [VStr ""; VStr "1234"])], "p1")]> ∅)
    1 (fun _ => None) (fun n => "id" +:+ pretty n) 0 1700000000000.

Lemma login_counterexample :
  Store.docs empty_pin_world !! PINS_PATH
  = Some ([("pins", VArr [VStr ""; VStr "1234"])], "p1")
  /\ VStr "" ∈ [VStr ""; VStr "1234"]
  /\ responses (trace_of (run Store.handle
                            (login (Some (VObj [("pin", VStr "")])) ∅) empty_pin_world))
     = [Response 401 (fail_body "bad pin")]
  /\ result_of (run Store.handle
                  (login (Some (VObj [("pin", VStr "")])) ∅) empty_pin_world)
     = Ok ∅.
Proof.
  split; [reflexivity|]. split; [by left|]. split; reflexivity.
Qed.

Lemma login_issues_token_witness :
  (trace_of (run Store.handle (login (Some (VObj [])) ∅) (demo_world true))
   = [Ev (Respond (Response 401 (fail_body "bad pin"))) tt]
   /\ result_of (run Store.handle (login (Some (VObj [])) ∅) (demo_world true)) = Ok ∅)
  /\ (result_of (run Store.handle (login (Some (VObj [("pin", VStr "9999")])) ∅)
                   (demo_world true)) = Ok ({["adm_id0"]} ∪ ∅)
      /\ responses (trace_of (run Store.handle
                                (login (Some (VObj [("pin", VStr "9999")])) ∅)
                                (demo_world true)))
         = [Response 200 (VObj [("ok", VBool true); ("token", VStr "adm_id0")])]
      /\ forall next : prog unit,
           auth (Some ("Bearer " +:+ "adm_id0")) ({["adm_id0"]} ∪ ∅) next = next)
  /\ (result_of (run Store.handle (login (Some (VObj [("pin", VStr "0000")])) ∅)
                   (demo_world true)) = Ok ∅
      /\ responses (trace_of (run Store.handle
                                (login (Some (VObj [("pin", VStr "0000")])) ∅)
                                (demo_world true)))
         = [Response 401 (fail_body "bad pin")]).
Proof.
  split; [|split].
  - apply (proj1 (login_issues_token Store.handle (demo_world true)
                    (Some (VObj [])) ∅)).
    reflexivity.
  - apply (proj1 (proj2 (login_issues_token Store.handle (demo_world true)
                           (Some (VObj [("pin", VStr "9999")])) ∅)
                    "9999"
                    [Ev (GhGet PINS_PATH)
                       (Ok (GetData (RawJson [("pins", VArr [VStr "1234"; VStr "9999"])])
                              "p1"))]
                    (demo_world true) [("pins", VArr [VStr "1234"; VStr "9999"])]
                    ["1234"; "9999"] eq_refl ltac:(discriminate) eq_refl eq_refl)).
    right. left.
  - apply (proj2 (proj2 (login_issues_token Store.handle (demo_world true)
                           (Some (VObj [("pin", VStr "0000")])) ∅)
                    "0000"
                    [Ev (GhGet PINS_PATH)
                       (Ok (GetData (RawJson [("pins", VArr [VStr "1234"; VStr "9999"])])
                              "p1"))]
                    (demo_world true) [("pins", VArr [VStr "1234"; VStr "9999"])]
                    ["1234"; "9999"] eq_refl ltac:(discriminate) eq_refl eq_refl)).
    intros Hin. apply elem_of_cons in Hin as [Hin|Hin]; [done|].
    apply elem_of_cons in Hin as [Hin|Hin]; [done|]. by apply elem_of_nil in Hin.
Defined.

(** ** What a program can emit *)

(** Every effect the program can perform, whatever the answers, satisfies
    [P]. *)
Fixpoint emits {A} (P : forall X, eff X -> Prop) (p : prog A) : Prop :=
  match p with
  | Ret _ | Throw _ => True
  | Vis e k => P _ e /\ forall x, emits P (k x)
  end.

Definition event_sat (P : forall X, eff X -> Prop) (ev : event) : Prop :=
  match ev with
  | Ev e _ => P _ e
  end.

Lemma emits_bind {A B} (P : forall X, eff X -> Prop) (p : prog A) (f : A -> prog B) :
  emits P p -> (forall a, emits P (f a)) -> emits P (bind p f).
Proof.
  intros Hp Hf. induction p as [a|e|X e k IH]; simpl; [apply Hf|done|].
  destruct Hp as [He Hk]. split; [done|]. intros x. by apply IH.
Qed.

Lemma emits_try_catch {A} (P : forall X, eff X -> Prop) (p : prog A) (h : exn -> prog A) :
  emits P p -> (forall e, emits P (h e)) -> emits P (try_catch p h).
Proof.
  intros Hp Hh. induction p as [a|e|X e k IH]; simpl; [done|apply Hh|].
  destruct Hp as [He Hk]. split; [done|]. intros x. by apply IH.
Qed.

Lemma emits_trigger {X} (P : forall X, eff X -> Prop) (e : eff X) :
  P _ e -> emits P (trigger e).
Proof. intros He. by split. Qed.

Lemma emits_lift {A} (P : forall X, eff X -> Prop) (r : result A) : emits P (lift r).
Proof. by destruct r. Qed.

Lemma emits_run {W A} (handle : forall X, eff X -> W -> X * W)
    (P : forall X, eff X -> Prop) (p : prog A) (w : W) :
  emits P p -> Forall (event_sat P) (trace_of (run handle p w)).
Proof.
  revert w. induction p as [a|e|X e k IH]; intros w Hp; unfold trace_of, run;
    fold (@run W handle A); simpl; [done|done|].
  destruct Hp as [He Hk]. destruct (handle X e w) as [x w1].
  specialize (IH x w1 (Hk x)). unfold trace_of in IH.
  destruct (run handle (k x) w1) as [[t w2] r]. simpl in *. by constructor.
Qed.

(** The effect is not the sending of a response. *)
Definition silent (X : Type) (e : eff X) : Prop :=
  match e with
  | Respond _ => False
  | _ => True
  end.

(** The effect is not a request to the contents API about [path]. *)
Definition off_path (path : string) (X : Type) (e : eff X) : Prop :=
  match e with
  | GhGet p => p <> path
  | GhPut p _ => p <> path
  | _ => True
  end.

(** The effect is a request to the contents API about [path]. *)
Definition store_request (path : string) (X : Type) (e : eff X) : Prop :=
  match e with
  | GhGet p => p = path
  | GhPut p _ => p = path
  | _ => False
  end.

Lemma emits_impl {A} (P Q : forall X, eff X -> Prop) (p : prog A) :
  (forall X e, P X e -> Q X e) -> emits P p -> emits Q p.
Proof.
  intros HPQ. induction p as [a|e|X e k IH]; simpl; [done|done|].
  intros [He Hk]. split; [by apply HPQ|]. intros x. by apply IH.
Qed.

Lemma emits_ghPut (path : string) (d : doc) (sha : option string) (msg : string) :
  emits (store_request path) (ghPut path d sha msg).
Proof.
  unfold ghPut. apply emits_bind; [by apply emits_trigger|].
  intros r. apply emits_lift.
Qed.

Lemma emits_ghGetOrInit (path : string) (init : doc) :
  emits (store_request path) (ghGetOrInit path init).
Proof.
  unfold ghGetOrInit. apply emits_try_catch.
  - apply emits_bind; [by apply emits_trigger|]. intros r.
    apply emits_bind; [apply emits_lift|]. intros data.
    apply emits_bind; [apply emits_lift|]. by intros json.
  - intros e. case_bool_decide; [|done].
    apply emits_bind; [apply emits_ghPut|]. by intros sha.
Qed.

Lemma emits_ghRead (path : string) (init : doc) :
  emits (store_request path) (ghRead path init).
Proof.
  unfold ghRead. apply emits_bind; [apply emits_ghGetOrInit|]. by intros f.
Qed.

(** An update emits what its mutator emits, and requests about its path. *)
Lemma emits_ghUpdate {B} (P : forall X, eff X -> Prop) (path : string)
    (mutate : doc -> prog (mutated B)) (init : doc) (msg : string) :
  (forall X e, store_request path X e -> P X e) ->
  (forall db, emits P (mutate db)) ->
  emits P (ghUpdate path mutate init msg).
Proof.
  intros Hpath Hm. unfold ghUpdate.
  apply emits_bind; [by eapply emits_impl, emits_ghGetOrInit|]. intros f.
  apply emits_bind; [apply Hm|]. intros m.
  apply emits_try_catch.
  - apply emits_bind; [by eapply emits_impl, emits_ghPut|]. by intros s.
  - intros e. case_bool_decide; [|done].
    apply emits_bind; [by eapply emits_impl, emits_ghGetOrInit|]. intros f'.
    apply emits_bind; [apply Hm|]. intros m'.
    apply emits_bind; [by eapply emits_impl, emits_ghPut|]. by intros s.
Qed.

Lemma silent_responses (t : list event) :
  Forall (event_sat silent) t -> responses t = [].
Proof.
  induction 1 as [|ev t Hev _ IH]; [done|].
  destruct ev as [X e x]. by destruct e.
Qed.

(** ** The add route against any store *)

Lemma obj_lookup_set (k : string) (v : value) (d : doc) :
  obj_lookup k (obj_set k v d) = Some v.
Proof.
  induction d as [|[k' v'] d IH]; simpl.
  - by rewrite bool_decide_eq_true_2.
  - case_bool_decide as Hk; simpl.
    + by rewrite bool_decide_eq_true_2.
    + by rewrite bool_decide_eq_false_2.
Qed.

Lemma obj_lookup_set_ne (k k' : string) (v : value) (d : doc) :
  k <> k' -> obj_lookup k' (obj_set k v d) = obj_lookup k' d.
Proof.
  intros Hk. induction d as [|[k0 v0] d IH]; simpl.
  - by rewrite bool_decide_eq_false_2.
  - case_bool_decide as Hk0; simpl.
    + subst k0. by rewrite !bool_decide_eq_false_2.
    + by rewrite IH.
Qed.

Section AddFacts.
Context `{URLApi} {W : Type}.
Variable handle : forall X, eff X -> W -> X * W.



Lemma emits_getPageMeta (P : forall X, eff X -> Prop) (url : value) :
  (forall u, P _ (AxiosGet u)) -> emits P (getPageMeta url).
Proof.
  intros Hfetch. unfold getPageMeta. apply emits_bind; [by apply emits_trigger|].
  intros [pg|]; [|done].
  case_bool_decide.
  - by destruct (URL_origin url).
  - by destruct (URL_href _ url).
Qed.

Lemma store_request_silent (path : string) (X : Type) (e : eff X) :
  store_request path X e -> silent X e.
Proof. by destruct e. Qed.

Lemma emits_backfill (P : forall X, eff X -> Prop) (url : value) (last : option value) :
  (forall u, P _ (AxiosGet u)) ->
  (forall X e, store_request URLS_PATH X e -> P X e) ->
  emits P (backfill url last).
Proof.
  intros Hfetch Hstore. unfold backfill. apply emits_try_catch; [|done].
  apply emits_bind; [by apply emits_getPageMeta|]. intros meta.
  apply emits_bind; [|done].
  apply emits_ghUpdate; [done|].
  intros db. apply emits_lift.
Qed.

(** Whatever the probe and the second update do, the backfill ends
    normally. *)
Lemma backfill_swallows (url : value) (last : option value) (w : W) :
  result_of (run handle (backfill url last) w) = Ok tt.
Proof.
  unfold backfill. rewrite run_try_catch.
  by destruct (run handle _ w) as [[t w1] [[]|e]].
Qed.

(** The add route after its first update has succeeded. *)
Lemma run_add_any (w : W) (body : option value) (url : value) (t1 : list event)
    (w1 : W) (r : doc * unit) (record : value) (id : string) :
  body_field body "url" = Some url ->
  truthy url = true ->
  run handle (ghUpdate URLS_PATH
                (add_mutator url (body_field body "title") (body_field body "favicon"))
                [("urls", VArr [])] "admin add url") w = (t1, w1, Ok r) ->
  last_url r.1 = Ok (Some record) ->
  field record "id" = Some (VStr id) ->
  run handle (add body) w
  = let o := if negb (truthy_opt (body_field body "title"))
                || negb (truthy_opt (body_field body "favicon"))
             then run handle (backfill url (Some record)) w1
             else ([], w1, Ok tt) in
    (t1 ++ trace_of o
        ++ [Ev (Respond (Response 200 (VObj [("ok", VBool true); ("id", VStr id)]))) tt],
     (handle _ (Respond (Response 200 (VObj [("ok", VBool true); ("id", VStr id)])))
        (world_of o)).2,
     Ok tt).
Proof.
  intros Hurl Htruthy Hupd Hlast Hid.
  assert (record <> VNull) as Hrec by by destruct record.
  unfold add. rewrite Hurl, Htruthy.
  rewrite run_try_catch, run_bind, Hupd. simpl.
  rewrite run_bind, Hlast, run_lift. simpl.
  rewrite run_bind.
  destruct (negb (truthy_opt (body_field body "title"))
            || negb (truthy_opt (body_field body "favicon"))).
  - pose proof (backfill_swallows url (Some record) w1) as Hsw.
    destruct (run handle (backfill url (Some record)) w1) as [[t2 w2] r2].
    unfold result_of in Hsw. simpl in Hsw. subst r2. simpl.
    rewrite run_bind, run_lift, (get_prop_field record "id" Hrec), Hid. simpl.
    rewrite run_respond. by simpl.
  - rewrite run_Ret. simpl.
    rewrite run_bind, run_lift, (get_prop_field record "id" Hrec), Hid. simpl.
    rewrite run_respond. by simpl.
Qed.

End AddFacts.

(** ** The catalog on the sequential store *)

(** The catalog document as the routes get it: the file, or the initial
    document when there is none yet. *)
Definition catalog (w : Store.world) : doc :=
  match Store.docs w !! URLS_PATH with
  | Some (d, _) => d
  | None => [("urls", VArr [])]
  end.

(** The records of a catalog document, [db.urls || []], when that is an
    array. *)
Definition urls_of (d : doc) : option (list value) :=
  match js_or_val (obj_lookup "urls" d) (VArr []) with
  | VArr xs => Some xs
  | _ => None
  end.

(** The record has the given id. *)
Definition has_id (id : string) (u : value) : bool :=
  strict_eq_str (field u "id") id.

(** The record of an add once its backfill, if any, has run: the fields
    the caller supplied stay, an empty title is filled from the page or
    else from the host name, an empty favicon from the probe. *)
Definition backfilled_record `{URLApi} (id : string) (url : value)
    (title favicon : option value) (now : Z) (meta : page_meta) : result value :=
  let? t := if truthy_opt title then Ok (js_or_val title (VStr ""))
            else if bool_decide (meta_title meta = "") then hostname_of url
                 else Ok (VStr (meta_title meta)) in
  let f := if truthy_opt favicon then js_or_val favicon (VStr "")
           else VStr (meta_favicon meta) in
  Ok (VObj [("id", VStr id); ("url", url); ("title", t); ("favicon", f);
            ("active", VBool true); ("createdAt", VNum now)]).

Definition stored_record `{URLApi} (id : string) (url : value)
    (title favicon : option value) (now : Z) (fetched : option page) : value :=
  if truthy_opt title && truthy_opt favicon then new_record id url title favicon now
  else
    match backfilled_record id url title favicon now (probe_spec url fetched) with
    | Ok r => r
    | Err _ => new_record id url title favicon now
    end.

Lemma strict_eq_str_eq (x : option value) (s : string) :
  strict_eq x (Some (VStr s)) = strict_eq_str x s.
Proof. by destruct x as [[]|]. Qed.

Lemma findIndexM_last (f : value -> result bool) (xs : list value) (x : value) :
  Forall (fun u => f u = Ok false) xs ->
  f x = Ok true ->
  findIndexM f (xs ++ [x]) = Ok (Some (length xs)).
Proof.
  intros Hxs Hx. induction Hxs as [|u xs Hu _ IH]; simpl.
  - by rewrite Hx.
  - by rewrite Hu, IH.
Qed.

Lemma findIndexM_fresh (id : string) (xs : list value) (record : value) :
  Forall (fun u => u <> VNull) xs ->
  Forall (fun u => has_id id u = false) xs ->
  record <> VNull ->
  field record "id" = Some (VStr id) ->
  findIndexM (fun u => let? i := get_prop u "id" in
                       let? j := get_prop_opt (Some record) "id" in
                       Ok (strict_eq i j)) (xs ++ [record])
  = Ok (Some (length xs)).
Proof.
  intros Hnn Hfresh Hrec Hid. apply findIndexM_last.
  - rewrite Forall_forall in Hnn, Hfresh. apply Forall_forall. intros u Hu.
    simpl. rewrite (get_prop_field u "id") by by apply Hnn.
    rewrite (get_prop_field record "id" Hrec), Hid. simpl.
    rewrite strict_eq_str_eq. f_equal. by apply Hfresh.
  - simpl. rewrite (get_prop_field record "id" Hrec), Hid. simpl.
    by rewrite bool_decide_eq_true_2.
Qed.

Lemma insert_snoc (xs : list value) (x y : value) :
  <[length xs := x]> (xs ++ [y]) = xs ++ [x].
Proof.
  rewrite insert_app_r_alt by done.
  by replace (length xs - length xs)%nat with 0%nat by lia.
Qed.

Lemma truthy_js_or_val (a : option value) :
  truthy (js_or_val a (VStr "")) = truthy_opt a.
Proof. destruct a as [v|]; simpl; [|done]. by destruct (truthy v) eqn:E. Qed.

Section StoreAdd.
Context `{URLApi}.

Lemma backfill_mutator_new (id : string) (url : value) (title favicon : option value)
    (now : Z) (meta : page_meta) (db : doc) (xs : list value) :
  obj_lookup "urls" db = Some (VArr (xs ++ [new_record id url title favicon now])) ->
  Forall (fun u => u <> VNull) xs ->
  Forall (fun u => has_id id u = false) xs ->
  backfill_mutator url (Some (new_record id url title favicon now)) meta db
  = lift (let? r := backfilled_record id url title favicon now meta in
          let db' := obj_set "urls" (VArr (xs ++ [r])) db in
          Ok (Mutated db' db' tt)).
Proof.
  intros Hurls Hnn Hfresh. unfold backfill_mutator. f_equal.
  rewrite Hurls, (findIndexM_fresh id) by done. simpl.
  rewrite list_lookup_middle by done.
  unfold backfilled_record, js_or.
  destruct (truthy_opt title) eqn:Ht, (truthy_opt favicon) eqn:Hf,
    (bool_decide (meta_title meta = "")) eqn:Hmt,
    (bool_decide (meta_favicon meta = "")) eqn:Hmf,
    (hostname_of url) as [h|e];
    repeat (progress (simpl; rewrite ?truthy_js_or_val, ?Ht, ?Hf, ?Hmt, ?Hmf));
    rewrite ?insert_snoc; try done.
  all: apply bool_decide_eq_true in Hmf; by rewrite Hmf.
Qed.
End StoreAdd.

(** The oracles of a world with its documents replaced. *)
Definition same_oracles (w w' : Store.world) : Prop :=
  Store.web w' = Store.web w /\ Store.ids w' = Store.ids w
  /\ Store.next_id w' = Store.next_id w /\ Store.clock w' = Store.clock w.

Lemma get_or_init_catalog (w : Store.world) :
  f_json (StoreFacts.get_or_init URLS_PATH [("urls", VArr [])] w).2 = catalog w.
Proof.
  unfold StoreFacts.get_or_init, catalog.
  by destruct (Store.docs w !! URLS_PATH) as [[d s]|].
Qed.

Lemma get_or_init_insert (path : string) (init : doc) (w : Store.world) :
  Store.docs (StoreFacts.get_or_init path init w).1.2
  = <[path := (f_json (StoreFacts.get_or_init path init w).2,
               f_sha (StoreFacts.get_or_init path init w).2)]> (Store.docs w).
Proof.
  unfold StoreFacts.get_or_init.
  destruct (Store.docs w !! path) as [[d s]|] eqn:Hd; simpl; [|done].
  by rewrite insert_id.
Qed.

Lemma get_or_init_oracles (path : string) (init : doc) (w : Store.world) :
  same_oracles w (StoreFacts.get_or_init path init w).1.2.
Proof.
  unfold StoreFacts.get_or_init, same_oracles.
  by destruct (Store.docs w !! path) as [[d s]|].
Qed.

Lemma get_or_init_found (path : string) (init d : doc) (s : string) (w : Store.world) :
  Store.docs w !! path = Some (d, s) ->
  StoreFacts.get_or_init path init w
  = ([Ev (GhGet path) (Ok (GetData (RawJson d) s))], w, Fetched d s false).
Proof. intros Hd. unfold StoreFacts.get_or_init. by rewrite Hd. Qed.

(** The world after one more call of [nanoid]. *)
Definition next_world (w : Store.world) : Store.world :=
  Store.World (Store.docs w) (Store.version w) (Store.web w) (Store.ids w)
    (S (Store.next_id w)) (Store.clock w).

Lemma run_add_mutator_store (url : value) (title favicon : option value) (db : doc)
    (xs : list value) (w : Store.world) :
  urls_of db = Some xs ->
  run Store.handle (add_mutator url title favicon db) w
  = ([Ev (Nanoid 10) (Store.ids w (Store.next_id w)); Ev DateNow (Store.clock w)],
     next_world w,
     Ok (let db2 := obj_set "urls"
                      (VArr (xs ++ [new_record (Store.ids w (Store.next_id w)) url
                                      title favicon (Store.clock w)]))
                      (obj_set "urls" (VArr xs) db) in
         Mutated db2 db2 tt)).
Proof.
  unfold urls_of, add_mutator. intros Hxs.
  destruct (js_or_val (obj_lookup "urls" db) (VArr [])) as [| | | |ys|]; try done.
  injection Hxs as ->. by run_steps.
Qed.

Lemma emits_add_mutator (P : forall X, eff X -> Prop) (url : value)
    (title favicon : option value) (db : doc) :
  P _ (Nanoid 10) -> P _ DateNow ->
  emits P (add_mutator url title favicon db).
Proof.
  intros Hid Hnow.
  unfold add_mutator. apply emits_bind; [by apply emits_trigger|]. intros id.
  apply emits_bind; [by apply emits_trigger|]. intros now.
  by destruct (js_or_val (obj_lookup "urls" db) (VArr [])).
Qed.

Section StoreAddRun.
Context `{URLApi}.

(** The first update of an add on the store. *)
Lemma run_add_update_store (w : Store.world) (url : value) (title favicon : option value)
    (xs : list value) :
  urls_of (catalog w) = Some xs ->
  exists t wA db2 shaA,
    run Store.handle (ghUpdate URLS_PATH (add_mutator url title favicon)
                        [("urls", VArr [])] "admin add url") w
    = (t, wA, Ok (db2, tt))
    /\ Forall (event_sat silent) t
    /\ obj_lookup "urls" db2
       = Some (VArr (xs ++ [new_record (Store.ids w (Store.next_id w)) url title favicon
                              (Store.clock w)]))
    /\ Store.docs wA = <[URLS_PATH := (db2, shaA)]> (Store.docs w)
    /\ Store.web wA = Store.web w.
Proof.
  intros Hxs.
  pose proof (get_or_init_oracles URLS_PATH [("urls", VArr [])] w) as (Hweb & Hids & Hnext & Hclock).
  pose proof (get_or_init_insert URLS_PATH [("urls", VArr [])] w) as Hdocs.
  pose proof (run_add_mutator_store url title favicon _ xs
                (StoreFacts.get_or_init URLS_PATH [("urls", VArr [])] w).1.2
                (eq_trans (f_equal urls_of (get_or_init_catalog w)) Hxs)) as Hm.
  assert (emits silent (ghUpdate URLS_PATH (add_mutator url title favicon)
                          [("urls", VArr [])] "admin add url")) as Hem.
  { apply emits_ghUpdate; [apply store_request_silent|].
    intros db. by apply emits_add_mutator. }
  pose proof (emits_run Store.handle silent _ w Hem) as Hsilent.
  pose proof (StoreFacts.run_ghUpdate_ok URLS_PATH (add_mutator url title favicon)
                [("urls", VArr [])] "admin add url" w _ _ _ Hm eq_refl) as Hupd.
  rewrite Hupd in Hsilent |- *. unfold trace_of in Hsilent.
  simpl in Hsilent |- *.
  rewrite Hids, Hnext, Hclock in Hsilent |- *. eexists _, _, _, _.
  split; [reflexivity|]. split; [|split; [|split]].
  - exact Hsilent.
  - apply obj_lookup_set.
  - simpl. rewrite Hdocs. by rewrite insert_insert_eq.
  - done.
Qed.
End StoreAddRun.

Section StoreBackfill.
Context `{URLApi}.

(** The backfill on the store, for the record just added. *)
Lemma run_backfill_store (wA : Store.world) (url : value) (id : string)
    (title favicon : option value) (now : Z) (xs : list value) (db2 : doc)
    (shaA : string) :
  Store.docs wA !! URLS_PATH = Some (db2, shaA) ->
  obj_lookup "urls" db2 = Some (VArr (xs ++ [new_record id url title favicon now])) ->
  Forall (fun u => u <> VNull) xs ->
  Forall (fun u => has_id id u = false) xs ->
  exists t w' d' sha,
    run Store.handle (backfill url (Some (new_record id url title favicon now))) wA
    = (t, w', Ok tt)
    /\ Store.docs w' = <[URLS_PATH := (d', sha)]> (Store.docs wA)
    /\ obj_lookup "urls" d'
       = Some (VArr (xs ++ [match backfilled_record id url title favicon now
                                    (probe_spec url (Store.web wA url)) with
                            | Ok r => r
                            | Err _ => new_record id url title favicon now
                            end])).
Proof.
  intros Hdoc Hurls Hnn Hfresh. unfold backfill.
  rewrite run_try_catch, run_bind, (run_getPageMeta Store.handle). simpl.
  rewrite run_bind.
  set (meta := probe_spec url (Store.web wA url)).
  pose proof (get_or_init_found URLS_PATH [("urls", VArr [])] db2 shaA wA Hdoc) as Hg.
  pose proof (backfill_mutator_new id url title favicon now meta db2 xs Hurls Hnn Hfresh)
    as Hmut.
  destruct (backfilled_record id url title favicon now meta) as [r'|e] eqn:Hr.
  - erewrite StoreFacts.run_ghUpdate_ok;
      [|rewrite Hg; simpl; rewrite Hmut, run_lift; reflexivity|by rewrite Hg].
    rewrite Hg. run_steps.
    eexists _, _, _, _. split; [reflexivity|]. split; [reflexivity|].
    simpl. apply obj_lookup_set.
  - erewrite StoreFacts.run_ghUpdate_err;
      [|rewrite Hg; simpl; rewrite Hmut, run_lift; reflexivity].
    rewrite Hg. run_steps.
    eexists _, _, db2, shaA. split; [reflexivity|]. split; [by rewrite insert_id|].
    done.
Qed.
End StoreBackfill.

Section StoreAddWhole.
Context `{URLApi}.

(** The add route on the store: it answers with the new id, and the
    catalog gains one record at its end, as [stored_record] gives it. *)
Lemma run_add_store (w : Store.world) (body : option value) (url : value)
    (xs : list value) :
  body_field body "url" = Some url ->
  truthy url = true ->
  urls_of (catalog w) = Some xs ->
  Forall (fun u => u <> VNull) xs ->
  Forall (fun u => has_id (Store.ids w (Store.next_id w)) u = false) xs ->
  exists t w' d' sha,
    run Store.handle (add body) w
    = (t ++ [Ev (Respond (Response 200
                            (VObj [("ok", VBool true);
                                   ("id", VStr (Store.ids w (Store.next_id w)))]))) tt],
       w', Ok tt)
    /\ responses t = []
    /\ Store.docs w' = <[URLS_PATH := (d', sha)]> (Store.docs w)
    /\ obj_lookup "urls" d'
       = Some (VArr (xs ++ [stored_record (Store.ids w (Store.next_id w)) url
                              (body_field body "title") (body_field body "favicon")
                              (Store.clock w) (Store.web w url)])).
Proof.
  intros Hurl Htruthy Hxs Hnn Hfresh.
  set (id := Store.ids w (Store.next_id w)) in *.
  set (title := body_field body "title").
  set (favicon := body_field body "favicon").
  destruct (run_add_update_store w url title favicon xs Hxs)
    as (t1 & wA & db2 & shaA & Hupd & Hsil & Hurls & HdocsA & HwebA).
  fold id in Hurls.
  assert (last_url db2 = Ok (Some (new_record id url title favicon (Store.clock w))))
    as Hlast.
  { unfold last_url. rewrite Hurls. by rewrite last_snoc. }
  rewrite (run_add_any Store.handle w body url t1 wA (db2, tt) _ id
             Hurl Htruthy Hupd Hlast eq_refl).
  fold title favicon. unfold stored_record.
  destruct (truthy_opt title && truthy_opt favicon) eqn:Hboth.
  - apply andb_true_iff in Hboth as [-> ->]. simpl.
    exists t1, wA, db2, shaA.
    split; [done|]. split; [by apply silent_responses|]. done.
  - assert (negb (truthy_opt title) || negb (truthy_opt favicon) = true) as ->.
    { by destruct (truthy_opt title), (truthy_opt favicon). }
    assert (Store.docs wA !! URLS_PATH = Some (db2, shaA)) as HdocA.
    { rewrite HdocsA. apply lookup_insert_eq. }
    destruct (run_backfill_store wA url id title favicon (Store.clock w) xs db2 shaA
                HdocA Hurls Hnn Hfresh)
      as (t2 & w' & d' & sha & Hrun & Hdocs' & Hurls').
    pose proof (emits_run Store.handle silent _ wA
                  (emits_backfill silent url
                   (Some (new_record id url title favicon (Store.clock w)))
                   (fun _ => I) (store_request_silent URLS_PATH))) as Hsil2.
    rewrite Hrun in Hsil2 |- *. rewrite trace_of_triple in Hsil2 |- *.
    exists (t1 ++ t2), w', d', sha. rewrite <- app_assoc.
    split; [done|]. split.
    { by rewrite responses_app, !silent_responses. }
    split.
    { rewrite Hdocs', HdocsA. by rewrite insert_insert_eq. }
    by rewrite Hurls', HwebA.
Qed.

(** The stored record keeps what the caller supplied. *)
Lemma stored_record_shape (id : string) (url : value) (title favicon : option value)
    (now : Z) (fetched : option page) :
  exists t' f',
    stored_record id url title favicon now fetched
    = VObj [("id", VStr id); ("url", url); ("title", t'); ("favicon", f');
            ("active", VBool true); ("createdAt", VNum now)]
    /\ (truthy_opt title = true -> title = Some t')
    /\ (truthy_opt favicon = true -> favicon = Some f').
Proof.
  assert (forall a : option value, truthy_opt a = true -> a = Some (js_or_val a (VStr "")))
    as Hkeep.
  { intros [v|]; simpl; [|done]. by intros ->. }
  unfold stored_record, backfilled_record.
  destruct (truthy_opt title) eqn:Ht, (truthy_opt favicon) eqn:Hf; simpl.
  - eexists _, _. split; [reflexivity|]. split; intros _; by apply Hkeep.
  - eexists _, _. split; [reflexivity|]. split; [intros _; by apply Hkeep|done].
  - destruct (if bool_decide (meta_title (probe_spec url fetched) = "")
              then hostname_of url
              else Ok (VStr (meta_title (probe_spec url fetched)))) as [t|e]; simpl.
    + eexists _, _. split; [reflexivity|]. split; [done|intros _; by apply Hkeep].
    + eexists _, _. split; [reflexivity|]. split; [done|intros _; by apply Hkeep].
  - destruct (if bool_decide (meta_title (probe_spec url fetched) = "")
              then hostname_of url
              else Ok (VStr (meta_title (probe_spec url fetched)))) as [t|e]; simpl.
    + eexists _, _. split; [reflexivity|]. done.
    + eexists _, _. split; [reflexivity|]. done.
Qed.
End StoreAddWhole.

(** ** Add, then resolve *)

(** Whether the service is open, as the resolve route sees it: the
    [enabled] of the state file, or [true] when there is no file yet. *)
Definition service_enabled (w : Store.world) : bool :=
  match Store.docs w !! STATE_PATH with
  | Some (d, _) => truthy_opt (obj_lookup "enabled" d)
  | None => true
  end.

Lemma get_or_init_enabled (w : Store.world) :
  truthy_opt (obj_lookup "enabled"
                (f_json (StoreFacts.get_or_init STATE_PATH [("enabled", VBool true)] w).2))
  = service_enabled w.
Proof.
  unfold StoreFacts.get_or_init, service_enabled.
  by destruct (Store.docs w !! STATE_PATH) as [[d s]|].
Qed.

(** The resolve route on an open store whose catalog is well formed. *)
Lemma run_resolve_store (w : Store.world) (id : string) (d : doc) (s : string)
    (ys : list value) :
  service_enabled w = true ->
  Store.docs w !! URLS_PATH = Some (d, s) ->
  obj_lookup "urls" d = Some (VArr ys) ->
  Forall (fun u => u <> VNull) ys ->
  responses (trace_of (run Store.handle (resolve id) w))
  = [match List.find (is_active_with_id id) ys with
     | None => Response 404 (fail_body "Not found")
     | Some it =>
         Response 200
           (obj_of [("ok", Some (VBool true)); ("id", field it "id");
                    ("title", field it "title");
                    ("favicon", field it "favicon");
                    ("url", field it "url")])
     end].
Proof.
  intros Hon Hdoc Hys Hnn.
  eapply (resolve_responses_open Store.handle w id).
  - apply StoreFacts.run_ghRead.
  - by rewrite get_or_init_enabled.
  - rewrite StoreFacts.run_ghRead.
    rewrite (get_or_init_found URLS_PATH [("urls", VArr [])] d s); [done|].
    by rewrite StoreFacts.get_or_init_other.
  - done.
  - done.
Qed.

Lemma find_last_fresh (id : string) (xs : list value) (x : value) :
  Forall (fun u => has_id id u = false) xs ->
  is_active_with_id id x = true ->
  List.find (is_active_with_id id) (xs ++ [x]) = Some x.
Proof.
  intros Hfresh Hx. induction Hfresh as [|u xs Hu _ IH]; simpl.
  - by rewrite Hx.
  - unfold is_active_with_id at 1. unfold has_id in Hu. by rewrite Hu.
Qed.

Section AddResolve.
Context `{URLApi}.

(** C3. On the sequential store, with the service open, a well-formed
    catalog and a fresh id: add answers with the new id, and resolve of
    that id then answers [{ok, id, title, favicon, url}] with the url given
    and with every title or favicon the caller supplied (non-empty) exactly
    as supplied; with both supplied that is exactly [{id, T, F, url}].
    Neither the probe nor the backfill overwrites a supplied field. *)
Theorem add_then_resolve (w : Store.world) (body : option value) (url : value)
    (xs : list value) :
  body_field body "url" = Some url ->
  truthy url = true ->
  urls_of (catalog w) = Some xs ->
  Forall (fun u => u <> VNull) xs ->
  Forall (fun u => has_id (Store.ids w (Store.next_id w)) u = false) xs ->
  service_enabled w = true ->
  responses (trace_of (run Store.handle (add body) w))
  = [Response 200 (VObj [("ok", VBool true);
                         ("id", VStr (Store.ids w (Store.next_id w)))])]
  /\ exists t' f',
       responses (trace_of (run Store.handle
                              (resolve (Store.ids w (Store.next_id w)))
                              (world_of (run Store.handle (add body) w))))
       = [Response 200 (VObj [("ok", VBool true);
                              ("id", VStr (Store.ids w (Store.next_id w)));
                              ("title", t'); ("favicon", f'); ("url", url)])]
       /\ (truthy_opt (body_field body "title") = true ->
           body_field body "title" = Some t')
       /\ (truthy_opt (body_field body "favicon") = true ->
           body_field body "favicon" = Some f').
Proof.
  intros Hurl Htruthy Hxs Hnn Hfresh Hon.
  destruct (run_add_store w body url xs Hurl Htruthy Hxs Hnn Hfresh)
    as (t & w' & d' & sha & Hrun & Hresp & Hdocs & Hurls).
  rewrite Hrun, trace_of_triple. unfold world_of. simpl.
  split; [by rewrite responses_app, Hresp|].
  destruct (stored_record_shape (Store.ids w (Store.next_id w)) url
              (body_field body "title") (body_field body "favicon")
              (Store.clock w) (Store.web w url)) as (t' & f' & Hshape & Ht & Hf).
  exists t', f'. split; [|done].
  rewrite Hshape in Hurls.
  erewrite (run_resolve_store w' _ d' sha); [| |by rewrite Hdocs, lookup_insert_eq|exact Hurls|].
  - rewrite find_last_fresh; [done|done|].
    unfold is_active_with_id. simpl. by rewrite bool_decide_eq_true_2.
  - unfold service_enabled. rewrite Hdocs, lookup_insert_ne by done. exact Hon.
  - apply Forall_app. split; [done|]. by repeat constructor.
Qed.
End AddResolve.

(** ** Remove *)

(** How many records have the given id. *)
Definition count_id (id : string) (xs : list value) : nat :=
  length (List.filter (has_id id) xs).

Lemma filterM_without (id : string) (xs : list value) :
  Forall (fun u => u <> VNull) xs ->
  filterM (fun u => let? i := get_prop u "id" in Ok (negb (strict_eq_str i id))) xs
  = Ok (List.filter (fun u => negb (has_id id u)) xs).
Proof.
  induction 1 as [|u xs Hu _ IH]; [done|].
  simpl. rewrite (get_prop_field u "id" Hu), IH. simpl. unfold has_id.
  by destruct (strict_eq_str (field u "id") id).
Qed.

Lemma removed_count (id : string) (xs : list value) :
  Z.of_nat (length xs) - Z.of_nat (length (List.filter (fun u => negb (has_id id u)) xs))
  = Z.of_nat (count_id id xs).
Proof.
  unfold count_id. pose proof (List.filter_length (has_id id) xs). lia.
Qed.

Lemma run_remove_mutator {W} (handle : forall X, eff X -> W -> X * W) (id : string)
    (db : doc) (xs : list value) (w : W) :
  urls_of db = Some xs ->
  Forall (fun u => u <> VNull) xs ->
  run handle (remove_mutator id db) w
  = ([], w,
     Ok (let db' := obj_set "urls"
                      (VArr (List.filter (fun u => negb (has_id id u)) xs)) db in
         Mutated db' db' (Z.of_nat (count_id id xs)))).
Proof.
  unfold urls_of, remove_mutator. intros Hxs Hnn.
  destruct (js_or_val (obj_lookup "urls" db) (VArr [])) as [| | | |ys|]; try done.
  injection Hxs as ->. rewrite run_bind, run_lift, filterM_without by done.
  run_steps. by rewrite removed_count.
Qed.

(** The remove route on the store. *)
Lemma run_remove_store (w : Store.world) (id : string) (xs : list value) :
  urls_of (catalog w) = Some xs ->
  Forall (fun u => u <> VNull) xs ->
  exists t w' d' sha,
    run Store.handle (remove id) w
    = (t ++ [Ev (Respond (Response 200
                            (VObj [("ok", VBool true);
                                   ("removed", VNum (Z.of_nat (count_id id xs)))]))) tt],
       w', Ok tt)
    /\ responses t = []
    /\ Store.docs w' = <[URLS_PATH := (d', sha)]> (Store.docs w)
    /\ obj_lookup "urls" d'
       = Some (VArr (List.filter (fun u => negb (has_id id u)) xs)).
Proof.
  intros Hxs Hnn.
  pose proof (get_or_init_insert URLS_PATH [("urls", VArr [])] w) as Hdocs.
  pose proof (run_remove_mutator Store.handle id _ xs
                (StoreFacts.get_or_init URLS_PATH [("urls", VArr [])] w).1.2
                (eq_trans (f_equal urls_of (get_or_init_catalog w)) Hxs) Hnn) as Hm.
  pose proof (StoreFacts.run_ghUpdate_ok URLS_PATH (remove_mutator id)
                [("urls", VArr [])] "admin remove url" w _ _ _ Hm eq_refl) as Hupd.
  assert (emits silent (ghUpdate URLS_PATH (remove_mutator id)
                          [("urls", VArr [])] "admin remove url")) as Hem.
  { apply emits_ghUpdate; [apply store_request_silent|]. intros db.
    unfold remove_mutator.
    destruct (js_or_val (obj_lookup "urls" db) (VArr [])); try done.
    apply emits_bind; [apply emits_lift|]. done. }
  pose proof (emits_run Store.handle silent _ w Hem) as Hsilent.
  rewrite Hupd, trace_of_triple in Hsilent.
  unfold remove. rewrite run_try_catch, run_bind, Hupd. unfold respond. run_steps.
  eexists _, _, _, _. split; [reflexivity|].
  split; [by apply silent_responses|]. split.
  - rewrite Hdocs. by rewrite insert_insert_eq.
  - apply obj_lookup_set.
Qed.

Lemma urls_of_array (d : doc) (xs : list value) :
  obj_lookup "urls" d = Some (VArr xs) -> urls_of d = Some xs.
Proof. unfold urls_of. by intros ->. Qed.

Lemma catalog_insert (w w' : Store.world) (d : doc) (s : string) :
  Store.docs w' = <[URLS_PATH := (d, s)]> (Store.docs w) -> catalog w' = d.
Proof. intros Hd. unfold catalog. by rewrite Hd, lookup_insert_eq. Qed.

Lemma filter_fresh (id : string) (xs : list value) :
  Forall (fun u => has_id id u = false) xs ->
  List.filter (fun u => negb (has_id id u)) xs = xs
  /\ count_id id xs = 0%nat.
Proof.
  unfold count_id. induction 1 as [|u xs Hu _ [IH1 IH2]]; [done|].
  simpl. rewrite Hu. simpl. by rewrite IH1, IH2.
Qed.

Section Remove.
Context `{URLApi}.

(** C5. On the sequential store with a well-formed catalog, remove answers
    200 with [removed] the number of records that have the id: 1 when
    exactly one has it, 0 when none has, and never an error for an id that
    is not there. Hence add, then remove of the id add returned (a fresh
    one), answers 1, and the same remove once more answers 0. *)
Theorem remove_counts (w : Store.world) (id : string) (xs : list value) :
  urls_of (catalog w) = Some xs ->
  Forall (fun u => u <> VNull) xs ->
  responses (trace_of (run Store.handle (remove id) w))
  = [Response 200 (VObj [("ok", VBool true);
                         ("removed", VNum (Z.of_nat (count_id id xs)))])]
  /\ (forall body url,
        body_field body "url" = Some url ->
        truthy url = true ->
        Forall (fun u => has_id (Store.ids w (Store.next_id w)) u = false) xs ->
        let added := world_of (run Store.handle (add body) w) in
        let new_id := Store.ids w (Store.next_id w) in
        responses (trace_of (run Store.handle (remove new_id) added))
        = [Response 200 (VObj [("ok", VBool true); ("removed", VNum 1)])]
        /\ responses (trace_of (run Store.handle (remove new_id)
                                  (world_of (run Store.handle (remove new_id) added))))
           = [Response 200 (VObj [("ok", VBool true); ("removed", VNum 0)])]).
Proof.
  intros Hxs Hnn. split.
  - destruct (run_remove_store w id xs Hxs Hnn) as (t & w' & d' & sha & Hrun & Hresp & _).
    by rewrite Hrun, trace_of_triple, responses_app, Hresp.
  - intros body url Hurl Htruthy Hfresh added new_id.
    destruct (run_add_store w body url xs Hurl Htruthy Hxs Hnn Hfresh)
      as (t & wa & da & sha & Hrun & Hresp & Hdocs & Hurls).
    destruct (stored_record_shape new_id url (body_field body "title")
                (body_field body "favicon") (Store.clock w) (Store.web w url))
      as (t' & f' & Hshape & _).
    fold new_id in Hurls. rewrite Hshape in Hurls.
    assert (added = wa) as -> by (unfold added; by rewrite Hrun).
    set (stored := VObj [("id", VStr new_id); ("url", url); ("title", t');
                         ("favicon", f'); ("active", VBool true);
                         ("createdAt", VNum (Store.clock w))]) in *.
    assert (has_id new_id stored = true) as Hstored.
    { unfold has_id. simpl. by rewrite bool_decide_eq_true_2. }
    destruct (filter_fresh new_id xs Hfresh) as [Hkeep Hzero].
    assert (urls_of (catalog wa) = Some (xs ++ [stored])) as Hcat.
    { rewrite (catalog_insert w wa da sha Hdocs). by apply urls_of_array. }
    assert (Forall (fun u => u <> VNull) (xs ++ [stored])) as Hnn'.
    { apply Forall_app. split; [done|]. by repeat constructor. }
    destruct (run_remove_store wa new_id (xs ++ [stored]) Hcat Hnn')
      as (t1 & w1 & d1 & sha1 & Hrun1 & Hresp1 & Hdocs1 & Hurls1).
    rewrite Hrun1, trace_of_triple, responses_app, Hresp1. unfold world_of. simpl.
    assert (count_id new_id (xs ++ [stored]) = 1%nat) as Hone.
    { unfold count_id in *. rewrite List.filter_app, length_app, Hzero. simpl.
      by rewrite Hstored. }
    rewrite Hone. split; [done|].
    rewrite List.filter_app, Hkeep in Hurls1. simpl in Hurls1.
    rewrite Hstored in Hurls1. simpl in Hurls1. rewrite app_nil_r in Hurls1.
    assert (urls_of (catalog w1) = Some xs) as Hcat1.
    { rewrite (catalog_insert wa w1 d1 sha1 Hdocs1). by apply urls_of_array. }
    destruct (run_remove_store w1 new_id xs Hcat1 Hnn)
      as (t2 & w2 & d2 & sha2 & Hrun2 & Hresp2 & _).
    rewrite Hrun2, trace_of_triple, responses_app, Hresp2. by rewrite Hzero.
Qed.
End Remove.

Section AddPersists.
Context `{URLApi}.

End AddPersists.

(** The requests of the scenarios. *)
Definition untitled_body : option value :=
  Some (VObj [("url", VStr "http://example.com")]).

Definition titled_body : option value :=
  Some (VObj [("url", VStr "http://c.example"); ("title", VStr "T");
              ("favicon", VStr "F")]).

Definition demo_records : list value :=
  [record "aaa" "http://a.example" "A" "http://a.example/i.png" true;
   record "bbb" "http://b.example" "B" "" false].


Definition filled_record : value :=
  VObj [("id", VStr "id0"); ("url", VStr "http://example.com");
        ("title", VStr "Example Domain");
        ("favicon", VStr "http://example.com/favicon.ico");
        ("active", VBool true); ("createdAt", VNum 1700000000000)].



Lemma add_then_resolve_witness :
  responses (trace_of (run Store.handle (@add simple_urls titled_body) (demo_world true)))
  = [Response 200 (VObj [("ok", VBool true); ("id", VStr "id0")])]
  /\ exists t' f',
       responses (trace_of (run Store.handle (resolve "id0")
                              (world_of (run Store.handle (@add simple_urls titled_body)
                                           (demo_world true)))))
       = [Response 200 (VObj [("ok", VBool true); ("id", VStr "id0");
                              ("title", t'); ("favicon", f');
                              ("url", VStr "http://c.example")])]
       /\ (truthy_opt (body_field titled_body "title") = true ->
           body_field titled_body "title" = Some t')
       /\ (truthy_opt (body_field titled_body "favicon") = true ->
           body_field titled_body "favicon" = Some f').
Proof.
  apply (@add_then_resolve simple_urls (demo_world true) titled_body
           (VStr "http://c.example") demo_records); try reflexivity.
  - repeat constructor; discriminate.
  - repeat constructor.
Defined.

(** The round trip of the specification, run: add with title "T" and
    favicon "F", then resolve of the returned id. *)
Example add_then_resolve_exact :
  responses (trace_of (run Store.handle (resolve "id0")
                         (world_of (run Store.handle (@add simple_urls titled_body)
                                      (demo_world true)))))
  = [Response 200 (VObj [("ok", VBool true); ("id", VStr "id0"); ("title", VStr "T");
                         ("favicon", VStr "F"); ("url", VStr "http://c.example")])].
Proof. reflexivity. Qed.

Lemma remove_counts_witness :
  responses (trace_of (run Store.handle (remove "zzz") (demo_world true)))
  = [Response 200 (VObj [("ok", VBool true); ("removed", VNum 0)])]
  /\ responses (trace_of (run Store.handle (remove "aaa") (demo_world true)))
     = [Response 200 (VObj [("ok", VBool true); ("removed", VNum 1)])]
  /\ responses (trace_of (run Store.handle (remove "id0")
                            (world_of (run Store.handle (@add simple_urls titled_body)
                                         (demo_world true)))))
     = [Response 200 (VObj [("ok", VBool true); ("removed", VNum 1)])]
  /\ responses (trace_of (run Store.handle (remove "id0")
                            (world_of (run Store.handle (remove "id0")
                                         (world_of (run Store.handle
                                                      (@add simple_urls titled_body)
                                                      (demo_world true)))))))
     = [Response 200 (VObj [("ok", VBool true); ("removed", VNum 0)])].
Proof.
  assert (Forall (fun u => u <> VNull) demo_records) as Hnn
    by (repeat constructor; discriminate).
  split; [|split].
  - apply (proj1 (@remove_counts simple_urls (demo_world true) "zzz" demo_records
                    eq_refl Hnn)).
  - apply (proj1 (@remove_counts simple_urls (demo_world true) "aaa" demo_records
                    eq_refl Hnn)).
  - apply (proj2 (@remove_counts simple_urls (demo_world true) "aaa" demo_records
                    eq_refl Hnn) titled_body (VStr "http://c.example")
             eq_refl eq_refl).
    repeat constructor.
Defined.

(** ** The service state *)

(** Running the program on the store keeps the property of the world. *)
Definition keeps (P : Store.world -> Prop) {A} (p : prog A) : Prop :=
  forall w, P w -> P (world_of (run Store.handle p w)).

Lemma keeps_bind (P : Store.world -> Prop) {A B} (p : prog A) (f : A -> prog B) :
  keeps P p -> (forall a, keeps P (f a)) -> keeps P (bind p f).
Proof.
  intros Hp Hf w Hw. specialize (Hp w Hw). rewrite run_bind.
  destruct (run Store.handle p w) as [[t w1] [a|e]]; [|done].
  specialize (Hf a w1 Hp). unfold world_of in *. simpl in *.
  by destruct (run Store.handle (f a) w1) as [[t' w2] r].
Qed.

Lemma keeps_try_catch (P : Store.world -> Prop) {A} (p : prog A) (h : exn -> prog A) :
  keeps P p -> (forall e, keeps P (h e)) -> keeps P (try_catch p h).
Proof.
  intros Hp Hh w Hw. specialize (Hp w Hw). rewrite run_try_catch.
  destruct (run Store.handle p w) as [[t w1] [a|e]]; [done|].
  specialize (Hh e w1 Hp). unfold world_of in *. simpl in *.
  by destruct (run Store.handle (h e) w1) as [[t' w2] r].
Qed.

Lemma keeps_emits (P : Store.world -> Prop) (Q : forall X, eff X -> Prop) {A}
    (p : prog A) :
  (forall X (e : eff X) w, Q X e -> P w -> P (Store.handle X e w).2) ->
  emits Q p -> keeps P p.
Proof.
  intros Hstep. induction p as [a|e|X e k IH]; intros Hp w Hw; [done|done|].
  destruct Hp as [He Hk]. unfold world_of, run. fold (@run Store.world Store.handle A).
  specialize (Hstep X e w He Hw).
  destruct (Store.handle X e w) as [x w1]. simpl in Hstep.
  specialize (IH x (Hk x) w1 Hstep). unfold world_of in IH.
  by destruct (run Store.handle (k x) w1) as [[t w2] r].
Qed.

(** An effect that is not a request about the state file leaves the
    service state as it is. *)
Lemma handle_off_state (X : Type) (e : eff X) (w : Store.world) :
  off_path STATE_PATH X e ->
  service_enabled (Store.handle X e w).2 = service_enabled w.
Proof.
  destruct e as [p|p pl|u|n| |r]; simpl; try done.
  intros Hp. unfold service_enabled.
  destruct (Store.docs w !! p) as [[d s]|], (pl_sha pl) as [s'|]; simpl;
    try case_bool_decide; simpl; by rewrite ?lookup_insert_ne.
Qed.

Lemma keeps_off_state (b : bool) {A} (p : prog A) :
  emits (off_path STATE_PATH) p -> keeps (fun w => service_enabled w = b) p.
Proof.
  apply keeps_emits. intros X e w He Hw. by rewrite handle_off_state.
Qed.

(** Reading the state, with its initial value [{enabled: true}], leaves the
    service state as it is, also when the read creates the file. *)
Lemma keeps_read_state (b : bool) :
  keeps (fun w => service_enabled w = b) (ghRead STATE_PATH [("enabled", VBool true)]).
Proof.
  intros w Hw. rewrite StoreFacts.run_ghRead. unfold world_of. simpl.
  rewrite <- Hw. clear Hw. unfold service_enabled, StoreFacts.get_or_init.
  destruct (Store.docs w !! STATE_PATH) as [[d s]|] eqn:Hd; simpl.
  - by rewrite Hd.
  - by rewrite lookup_insert_eq.
Qed.

Lemma store_request_off (p q : string) (X : Type) (e : eff X) :
  p <> q -> store_request p X e -> off_path q X e.
Proof. intros Hpq. destruct e; simpl; intros; subst; done. Qed.

Lemma emits_respond (P : forall X, eff X -> Prop) (st : nat) (body : value) :
  (forall r, P _ (Respond r)) -> emits P (respond st body).
Proof. intros Hr. by apply emits_trigger. Qed.

Lemma emits_auth (P : forall X, eff X -> Prop) (hdr : option string)
    (tokens : gset string) (next : prog unit) :
  (forall r, P _ (Respond r)) -> emits P next -> emits P (auth hdr tokens next).
Proof.
  intros Hr Hnext. unfold auth.
  destruct (_ || _); [by apply emits_respond|done].
Qed.

(** The requests that consult the state file at all. *)
Definition consults_state (req : request) : bool :=
  match req with
  | GetUrls _ | GetResolve _ | PostToggle _ _ => true
  | _ => false
  end.

Section ServiceState.
Context `{URLApi}.

Lemma emits_add_off_state (body : option value) :
  emits (off_path STATE_PATH) (add body).
Proof.
  unfold add. destruct (body_field body "url") as [url|]; [|by apply emits_respond].
  destruct (truthy url); [|by apply emits_respond].
  apply emits_try_catch; [|intros e; by apply emits_respond].
  apply emits_bind.
  { apply emits_ghUpdate; [intros X e; by apply store_request_off|].
    intros db. by apply emits_add_mutator. }
  intros r. apply emits_bind; [apply emits_lift|]. intros last.
  apply emits_bind.
  { destruct (_ || _); [|done].
    apply emits_backfill; [done|intros X e; by apply store_request_off]. }
  intros _. apply emits_bind; [apply emits_lift|]. intros id.
  by apply emits_respond.
Qed.

Lemma emits_remove_off_state (id : string) :
  emits (off_path STATE_PATH) (remove id).
Proof.
  unfold remove. apply emits_try_catch; [|intros e; by apply emits_respond].
  apply emits_bind; [|intros r; by apply emits_respond].
  apply emits_ghUpdate; [intros X e; by apply store_request_off|].
  intros db. unfold remove_mutator.
  destruct (js_or_val (obj_lookup "urls" db) (VArr [])); try done.
  apply emits_bind; [apply emits_lift|]. done.
Qed.

Lemma emits_login_off_state (body : option value) (tokens : gset string) :
  emits (off_path STATE_PATH) (login body tokens).
Proof.
  unfold login. apply emits_bind.
  { destruct (body_field body "pin") as [p|]; [|done].
    destruct (truthy p); [|done].
    apply emits_bind; [|done]. unfold checkPin.
    apply emits_bind.
    { eapply emits_impl, emits_ghRead. intros X e. by apply store_request_off. }
    intros pins. destruct (obj_lookup "pins" pins) as [[| | | |xs|]|]; try done.
    apply emits_bind; [apply emits_lift|intros entries].
    apply emits_bind; [apply emits_lift|done]. }
  intros [|].
  - apply emits_bind; [by apply emits_respond|done].
  - apply emits_bind.
    { unfold randomToken. apply emits_bind; [by apply emits_trigger|done]. }
    intros token. apply emits_bind; [by apply emits_respond|done].
Qed.

Lemma emits_probe_off_state (body : option value) :
  emits (off_path STATE_PATH) (probe body).
Proof.
  unfold probe. destruct (body_field body "url") as [url|]; [|by apply emits_respond].
  destruct (truthy url); [|by apply emits_respond].
  apply emits_try_catch; [|intros e; by apply emits_respond].
  apply emits_bind; [by apply emits_getPageMeta|]. intros meta.
  by apply emits_respond.
Qed.

(** The routes other than list, resolve and toggle make no request about
    the state file. *)
Lemma serve_off_state (req : request) (tokens : gset string) :
  consults_state req = false ->
  emits (off_path STATE_PATH) (serve req tokens).
Proof.
  destruct req as [all|id|body|body|hdr body|hdr id|hdr body| ]; try done; intros _;
    simpl.
  - apply emits_bind; [apply emits_probe_off_state|done].
  - apply emits_login_off_state.
  - apply emits_bind; [|done]. apply emits_auth; [done|apply emits_add_off_state].
  - apply emits_bind; [|done]. apply emits_auth; [done|apply emits_remove_off_state].
Qed.

Lemma keeps_list_urls (b : bool) (all : option string) :
  keeps (fun w => service_enabled w = b) (list_urls all).
Proof.
  unfold list_urls. apply keeps_try_catch.
  - apply keeps_bind.
    { apply keeps_off_state. eapply emits_impl, emits_ghRead.
      intros X e. by apply store_request_off. }
    intros urls. apply keeps_bind; [apply keeps_read_state|]. intros state.
    apply keeps_off_state.
    apply emits_bind; [apply emits_lift|]. intros xs.
    apply emits_bind; [apply emits_lift|]. intros out. by apply emits_respond.
  - intros e. apply keeps_off_state. by apply emits_respond.
Qed.

Lemma keeps_resolve (b : bool) (id : string) :
  keeps (fun w => service_enabled w = b) (resolve id).
Proof.
  unfold resolve. apply keeps_try_catch.
  - apply keeps_bind; [apply keeps_read_state|]. intros state.
    apply keeps_off_state.
    destruct (negb _); [by apply emits_respond|].
    apply emits_bind.
    { eapply emits_impl, emits_ghRead. intros X e. by apply store_request_off. }
    intros urls. apply emits_bind; [apply emits_lift|]. intros [it|].
    + repeat (apply emits_bind; [apply emits_lift|]; intros ?).
      by apply emits_respond.
    + by apply emits_respond.
  - intros e. apply keeps_off_state. by apply emits_respond.
Qed.

(** Every request other than a toggle leaves the service state as it is. *)
Lemma serve_keeps_state (req : request) (tokens : gset string) (w : Store.world) :
  (forall hdr body, req <> PostToggle hdr body) ->
  service_enabled (world_of (run Store.handle (serve req tokens) w)) = service_enabled w.
Proof.
  intros Hreq.
  assert (keeps (fun w' => service_enabled w' = service_enabled w) (serve req tokens))
    as Hkeeps; [|by apply Hkeeps].
  destruct req as [all|id|body|body|hdr body|hdr id|hdr body| ] eqn:Ereq;
    try (apply keeps_off_state; by apply serve_off_state).
  - simpl. apply keeps_bind; [apply keeps_list_urls|]. intros _.
    by apply keeps_off_state.
  - simpl. apply keeps_bind; [apply keeps_resolve|]. intros _.
    by apply keeps_off_state.
  - by destruct (Hreq hdr body).
Qed.
End ServiceState.

(** What the list route shows of a record, and of a catalog. *)
Definition projected (u : value) : value :=
  obj_of [("id", field u "id"); ("title", field u "title");
          ("favicon", field u "favicon"); ("url", field u "url")].

Definition listed (all : option string) (xs : list value) : list value :=
  projected <$> (if bool_decide (all = Some "1") then xs
                 else List.filter (fun u => not_false (field u "active")) xs).

Lemma mapM_project (xs : list value) :
  Forall (fun u => u <> VNull) xs -> mapM project xs = Ok (projected <$> xs).
Proof.
  induction 1 as [|u xs Hu _ IH]; [done|].
  simpl. unfold project at 1. rewrite !get_prop_field by done. simpl.
  by rewrite IH.
Qed.

Lemma filterM_active_only (xs : list value) :
  Forall (fun u => u <> VNull) xs ->
  filterM (fun u => let? a := get_prop u "active" in Ok (not_false a)) xs
  = Ok (List.filter (fun u => not_false (field u "active")) xs).
Proof.
  induction 1 as [|u xs Hu _ IH]; [done|].
  simpl. rewrite (get_prop_field u "active" Hu), IH. simpl.
  by destruct (not_false (field u "active")).
Qed.

Lemma Forall_list_filter (P : value -> Prop) (f : value -> bool) (xs : list value) :
  Forall P xs -> Forall P (List.filter f xs).
Proof.
  induction 1 as [|u xs Hu _ IH]; [done|].
  simpl. destruct (f u); [by constructor|done].
Qed.

Lemma service_enabled_get_or_init (path : string) (init : doc) (w : Store.world) :
  path <> STATE_PATH ->
  service_enabled (StoreFacts.get_or_init path init w).1.2 = service_enabled w.
Proof.
  intros Hp. unfold service_enabled.
  by rewrite StoreFacts.get_or_init_other.
Qed.

(** The list route on the store: the catalog is listed whatever the
    service state is; the state is only reported. *)
Lemma run_list_store (w : Store.world) (all : option string) (xs : list value) :
  obj_lookup "urls" (catalog w) = Some (VArr xs) ->
  Forall (fun u => u <> VNull) xs ->
  responses (trace_of (run Store.handle (list_urls all) w))
  = [Response 200 (VObj [("ok", VBool true);
                         ("enabled", VBool (service_enabled w));
                         ("urls", VArr (listed all xs))])].
Proof.
  intros Hxs Hnn. unfold list_urls.
  rewrite run_try_catch, run_bind, StoreFacts.run_ghRead, get_or_init_catalog.
  cbn [fst snd]. rewrite run_bind, StoreFacts.run_ghRead. cbn [fst snd].
  rewrite get_or_init_enabled, service_enabled_get_or_init by done.
  rewrite Hxs. rewrite run_bind, run_lift.
  assert ((if bool_decide (all = Some "1") then Ok xs
           else filterM (fun u => let? a := get_prop u "active" in Ok (not_false a)) xs)
          = Ok (if bool_decide (all = Some "1") then xs
                else List.filter (fun u => not_false (field u "active")) xs)) as ->.
  { case_bool_decide; [done|]. by apply filterM_active_only. }
  cbn [fst snd]. rewrite run_bind, run_lift, mapM_project.
  2: { case_bool_decide; [done|]. by apply Forall_list_filter. }
  cbn [fst snd]. rewrite run_respond. cbn [fst snd].
  rewrite trace_of_triple, !responses_app.
  rewrite !app_nil_l.
  rewrite (responses_on_path URLS_PATH), (responses_on_path STATE_PATH); [done| |].
  - pose proof (ghRead_on_path Store.handle STATE_PATH [("enabled", VBool true)]
                  (StoreFacts.get_or_init URLS_PATH [("urls", VArr [])] w).1.2) as Hp.
    by rewrite StoreFacts.run_ghRead, trace_of_triple in Hp.
  - pose proof (ghRead_on_path Store.handle URLS_PATH [("urls", VArr [])] w) as Hp.
    by rewrite StoreFacts.run_ghRead, trace_of_triple in Hp.
Qed.

(** The toggle route on the store. *)
Lemma run_toggle_store (w : Store.world) (body : option value) (b : bool) :
  body_field body "enabled" = Some (VBool b) ->
  exists t w' sha,
    run Store.handle (toggle body) w
    = (t ++ [Ev (Respond (Response 200 (VObj [("ok", VBool true);
                                              ("enabled", VBool b)]))) tt],
       w', Ok tt)
    /\ responses t = []
    /\ Store.docs w' = <[STATE_PATH := ([("enabled", VBool b)], sha)]> (Store.docs w).
Proof.
  intros Hbody. unfold toggle. rewrite Hbody.
  pose proof (get_or_init_insert STATE_PATH [("enabled", VBool true)] w) as Hdocs.
  pose proof (StoreFacts.run_ghUpdate_ok STATE_PATH
                (fun db => Ret (Mutated [("enabled", VBool b)] db tt))
                [("enabled", VBool true)] "toggle service state" w _ _ _
                (run_Ret Store.handle _ _) eq_refl) as Hupd.
  assert (emits silent (ghUpdate STATE_PATH
                          (fun db => Ret (Mutated [("enabled", VBool b)] db tt))
                          [("enabled", VBool true)] "toggle service state")) as Hem.
  { by apply emits_ghUpdate; [apply store_request_silent|]. }
  pose proof (emits_run Store.handle silent _ w Hem) as Hsilent.
  rewrite Hupd, trace_of_triple in Hsilent.
  rewrite run_try_catch, run_bind, Hupd. unfold respond. run_steps.
  eexists _, _, _. split; [reflexivity|].
  split; [by apply silent_responses|].
  rewrite Hdocs. by rewrite insert_insert_eq.
Qed.

Section Toggle.
Context `{URLApi}.

(** C9. On the sequential store, for every boolean [b] and whatever the
    state file held before (or if there was none), toggle answers
    [{ok: true, enabled: b}], leaves the state file holding exactly
    [{enabled: b}], and leaves every other file as it was. No other request
    changes the service state. Resolve is the one route the state gates:
    the list route lists the catalog whatever the state is and only reports
    it, and probe, login, add and remove make no request about the state
    file at all. *)
Theorem toggle_overwrites_state :
  (forall (w : Store.world) (body : option value) (b : bool),
     body_field body "enabled" = Some (VBool b) ->
     responses (trace_of (run Store.handle (toggle body) w))
     = [Response 200 (VObj [("ok", VBool true); ("enabled", VBool b)])]
     /\ (exists sha,
           Store.docs (world_of (run Store.handle (toggle body) w)) !! STATE_PATH
           = Some ([("enabled", VBool b)], sha))
     /\ (forall path, path <> STATE_PATH ->
           Store.docs (world_of (run Store.handle (toggle body) w)) !! path
           = Store.docs w !! path))
  /\ (forall (req : request) (tokens : gset string) (w : Store.world),
        (forall hdr body, req <> PostToggle hdr body) ->
        service_enabled (world_of (run Store.handle (serve req tokens) w))
        = service_enabled w)
  /\ (forall (w : Store.world) (all : option string) (xs : list value),
        obj_lookup "urls" (catalog w) = Some (VArr xs) ->
        Forall (fun u => u <> VNull) xs ->
        responses (trace_of (run Store.handle (list_urls all) w))
        = [Response 200 (VObj [("ok", VBool true);
                               ("enabled", VBool (service_enabled w));
                               ("urls", VArr (listed all xs))])])
  /\ (forall (req : request) (tokens : gset string),
        consults_state req = false ->
        emits (off_path STATE_PATH) (serve req tokens)).
Proof.
  split; [|split; [|split]].
  - intros w body b Hbody.
    destruct (run_toggle_store w body b Hbody) as (t & w' & sha & Hrun & Hresp & Hdocs).
    rewrite Hrun, trace_of_triple. unfold world_of. simpl.
    split; [by rewrite responses_app, Hresp|]. split.
    + exists sha. by rewrite Hdocs, lookup_insert_eq.
    + intros path Hpath. by rewrite Hdocs, lookup_insert_ne.
  - intros req tokens w Hreq. by apply serve_keeps_state.
  - intros w all xs Hxs Hnn. by apply run_list_store.
  - intros req tokens Hreq. by apply serve_off_state.
Qed.
End Toggle.

(** A store whose state file holds more than the flag. *)
Definition cluttered_world : Store.world :=
  Store.World
    (<[STATE_PATH := ([("note", VStr "maintenance"); ("enabled", VBool true);
                       ("since", VNum 1690000000000)], "s7")]>
       (demo_docs true))
    8 (fun _ => None) (fun n => "id" +:+ pretty n) 0 1700000000000.

Lemma toggle_overwrites_state_witness :
  (responses (trace_of (run Store.handle
                          (toggle (Some (VObj [("enabled", VBool false)])))
                          cluttered_world))
   = [Response 200 (VObj [("ok", VBool true); ("enabled", VBool false)])]
   /\ (exists sha,
         Store.docs (world_of (run Store.handle
                                 (toggle (Some (VObj [("enabled", VBool false)])))
                                 cluttered_world)) !! STATE_PATH
         = Some ([("enabled", VBool false)], sha))
   /\ (forall path, path <> STATE_PATH ->
         Store.docs (world_of (run Store.handle
                                 (toggle (Some (VObj [("enabled", VBool false)])))
                                 cluttered_world)) !! path
         = Store.docs cluttered_world !! path))
  /\ service_enabled (world_of (run Store.handle
                                  (@serve simple_urls (DeleteRemove (Some "Bearer t") "aaa")
                                     {["t"]})
                                  (demo_world false)))
     = service_enabled (demo_world false)
  /\ responses (trace_of (run Store.handle (list_urls None) (demo_world false)))
     = [Response 200 (VObj [("ok", VBool true);
                            ("enabled", VBool (service_enabled (demo_world false)));
                            ("urls", VArr (listed None demo_records))])]
  /\ emits (off_path STATE_PATH) (@serve simple_urls (PostLogin None) ∅).
Proof.
  destruct (@toggle_overwrites_state simple_urls) as (Htoggle & Hkeep & Hlist & Hoff).
  split; [|split; [|split]].
  - apply Htoggle. reflexivity.
  - apply Hkeep. intros hdr body. discriminate.
  - apply Hlist; [reflexivity|]. repeat constructor; discriminate.
  - apply Hoff. reflexivity.
Defined.

(** The list route on a closed service still lists the active records. *)
Example list_not_gated :
  responses (trace_of (run Store.handle (list_urls None) (demo_world false)))
  = [Response 200
       (VObj [("ok", VBool true); ("enabled", VBool false);
              ("urls", VArr [VObj [("id", VStr "aaa"); ("title", VStr "A");
                                   ("favicon", VStr "http://a.example/i.png");
                                   ("url", VStr "http://a.example")]])])].
Proof. reflexivity. Qed.

(** ** A race with a second writer *)

(** Another admin's record, written to the catalog behind the service's
    back. *)
Definition rival_catalog : doc :=
  [("urls", VArr (demo_records ++ [record "rrr" "http://r.example" "R" "" true]))].

(** One foreign write lands just before the first put of the add: the put
    is refused with 409, the update fetches again, re-applies the mutator
    to the fresh catalog and puts with the fresh token. Both records are in
    the catalog afterwards. *)
Example update_absorbs_one_conflict :
  let o := run Store.handle_racing (@add simple_urls titled_body)
             (demo_world true, [Some (URLS_PATH, rival_catalog)]) in
  responses (trace_of o)
  = [Response 200 (VObj [("ok", VBool true); ("id", VStr "id1")])]
  /\ urls_of (catalog (world_of o).1)
     = Some (demo_records
               ++ [record "rrr" "http://r.example" "R" "" true;
                   VObj [("id", VStr "id1"); ("url", VStr "http://c.example");
                         ("title", VStr "T"); ("favicon", VStr "F");
                         ("active", VBool true); ("createdAt", VNum 1700000000000)]]).
Proof. split; reflexivity. Qed.

(** A second foreign write before the retry's put: the second conflict is
    final, and the route answers 500. *)
Example update_second_conflict_is_final :
  let o := run Store.handle_racing
             (ghUpdate URLS_PATH (add_mutator (VStr "http://c.example")
                                    (Some (VStr "T")) (Some (VStr "F")))
                [("urls", VArr [])] "admin add url")
             (demo_world true,
              [Some (URLS_PATH, rival_catalog); Some (URLS_PATH, demo_catalog)]) in
  result_of o = Err (AxiosError (Some 409%nat))
  /\ responses (trace_of (run Store.handle_racing (@add simple_urls titled_body)
                            (demo_world true,
                             [Some (URLS_PATH, rival_catalog);
                              Some (URLS_PATH, demo_catalog)])))
     = [Response 500 (fail_body "add failed")].
Proof. split; reflexivity. Qed.

Lemma ghUpdate_retries_once_witness :
  run Store.handle_racing
    (ghUpdate URLS_PATH (remove_mutator "aaa") [("urls", VArr [])] "admin remove url")
    (demo_world true, [Some (URLS_PATH, rival_catalog)])
  = update_spec Store.handle_racing URLS_PATH (remove_mutator "aaa")
      [("urls", VArr [])] "admin remove url"
      (demo_world true, [Some (URLS_PATH, rival_catalog)])
  /\ trace_of (run Store.handle_racing
                 (ghPut URLS_PATH demo_catalog (Some "u1") "admin remove url")
                 (demo_world true, []))
     = [Ev (GhPut URLS_PATH (Payload "admin remove url" demo_catalog GITHUB_BRANCH
                               (Some "u1")))
          (Store.handle_racing _
             (GhPut URLS_PATH (Payload "admin remove url" demo_catalog GITHUB_BRANCH
                                 (Some "u1")))
             (demo_world true, [])).1].
Proof.
  destruct (ghUpdate_retries_once Store.handle_racing URLS_PATH (remove_mutator "aaa")
              [("urls", VArr [])] "admin remove url"
              (demo_world true, [Some (URLS_PATH, rival_catalog)])) as [Hspec Hput].
  split; [exact Hspec|].
  apply (Hput demo_catalog "u1" (demo_world true, [])). discriminate.
Defined.

(** ** The local-file variant agrees *)

Module LocalFileFacts.

Section AnyHandler.
Context {W : Type}.
Variable handle : forall X, eff X -> W -> X * W.

(** Resolve on a closed service answers 403 whatever the id and the
    catalog file are. *)
Lemma local_resolve_closed (fs : LocalFile.files) (id : string) (w : W) :
  truthy_opt (obj_lookup "enabled" (LocalFile.state_file fs)) = false ->
  trace_of (run handle (LocalFile.resolve fs id) w)
  = [Ev (Respond (Response 403 (fail_body "Access disabled"))) tt].
Proof.
  intros Hoff. unfold LocalFile.resolve. rewrite Hoff. simpl.
  by rewrite run_respond.
Qed.

(** Resolve on an open service: 404, or the first active record with the
    id. *)
Lemma local_resolve_open (fs : LocalFile.files) (id : string) (xs : list value) (w : W) :
  truthy_opt (obj_lookup "enabled" (LocalFile.state_file fs)) = true ->
  obj_lookup "urls" (LocalFile.urls_file fs) = Some (VArr xs) ->
  Forall (fun u => u <> VNull) xs ->
  responses (trace_of (run handle (LocalFile.resolve fs id) w))
  = [match List.find (is_active_with_id id) xs with
     | None => Response 404 (fail_body "Not found")
     | Some it =>
         Response 200
           (obj_of [("ok", Some (VBool true)); ("id", Some (VStr id));
                    ("title", field it "title");
                    ("favicon", field it "favicon");
                    ("url", field it "url")])
     end].
Proof.
  intros Hon Hxs Hnn. unfold LocalFile.resolve. rewrite Hon, Hxs. simpl.
  rewrite run_bind, run_lift, findM_active by done. simpl.
  destruct (List.find (is_active_with_id id) xs) as [it|] eqn:Hfind.
  - apply find_some in Hfind as [Hin Hact].
    assert (it <> VNull) as Hit.
    { rewrite Forall_forall in Hnn. apply Hnn. by apply list_elem_of_In. }
    rewrite !run_bind, !get_prop_field by done. run_steps.
    by rewrite run_respond.
  - by rewrite run_respond.
Qed.

(** Toggle writes exactly [{enabled: b}] to the state file, whatever it
    held, and leaves the other two files. *)
Lemma local_toggle_overwrites (fs : LocalFile.files) (body : option value) (b : bool) (w : W) :
  body_field body "enabled" = Some (VBool b) ->
  result_of (run handle (LocalFile.toggle fs body) w)
  = Ok (LocalFile.Files (LocalFile.urls_file fs) (LocalFile.pins_file fs)
          [("enabled", VBool b)])
  /\ responses (trace_of (run handle (LocalFile.toggle fs body) w))
     = [Response 200 (VObj [("ok", VBool true); ("enabled", VBool b)])].
Proof.
  intros Hbody. unfold LocalFile.toggle. rewrite Hbody.
  rewrite run_bind, run_respond. by run_steps.
Qed.

(** Remove answers with the number of records that have the id and writes
    the catalog without them. *)
Lemma local_remove_counts (fs : LocalFile.files) (id : string) (xs : list value) (w : W) :
  obj_lookup "urls" (LocalFile.urls_file fs) = Some (VArr xs) ->
  Forall (fun u => u <> VNull) xs ->
  result_of (run handle (LocalFile.remove fs id) w)
  = Ok (LocalFile.Files
          (obj_set "urls" (VArr (List.filter (fun u => negb (has_id id u)) xs))
             (LocalFile.urls_file fs))
          (LocalFile.pins_file fs) (LocalFile.state_file fs))
  /\ responses (trace_of (run handle (LocalFile.remove fs id) w))
     = [Response 200 (VObj [("ok", VBool true);
                            ("removed", VNum (Z.of_nat (count_id id xs)))])].
Proof.
  intros Hxs Hnn. unfold LocalFile.remove. rewrite Hxs.
  rewrite run_bind, run_lift, filterM_without by done. simpl.
  rewrite run_bind, run_respond, removed_count. by run_steps.
Qed.

(** A missing or empty pin is refused before the pins file is looked at. *)
Lemma local_login_refuses_falsy_pin (fs : LocalFile.files) (body : option value)
    (tokens : gset string) (w : W) :
  truthy_opt (body_field body "pin") = false ->
  result_of (run handle (LocalFile.login fs body tokens) w) = Ok tokens
  /\ responses (trace_of (run handle (LocalFile.login fs body tokens) w))
     = [Response 401 (fail_body "bad pin")].
Proof.
  intros Hpin. unfold LocalFile.login.
  assert (run handle
            (match body_field body "pin" with
             | Some p => if truthy p
                         then let* ok := lift (LocalFile.checkPin fs p) in Ret (negb ok)
                         else Ret true
             | None => Ret true
             end) w = ([], w, Ok true)) as Hbad.
  { destruct (body_field body "pin") as [p|]; simpl in Hpin; [|done].
    by rewrite Hpin. }
  rewrite run_bind, Hbad. simpl. rewrite run_bind, run_respond. by run_steps.
Qed.
End AnyHandler.

(** An add without title and favicon: the page is probed before the record
    is written and the response sent. *)
Example local_add_awaits_probe :
  run Store.handle (@LocalFile.add simple_urls LocalFile.bootstrap untitled_body) web_world
  = ([Ev (Nanoid 10) "id0";
      Ev (AxiosGet (VStr "http://example.com"))
        (Some (Page "Example Domain" None None None));
      Ev DateNow 1700000000000;
      Ev (Respond (Response 200 (VObj [("ok", VBool true); ("id", VStr "id0")]))) tt],
     next_world web_world,
     Ok (LocalFile.Files [("urls", VArr [filled_record])]
           [("pins", VArr [VStr "1234"])] [("enabled", VBool true)])).
Proof. reflexivity. Qed.

(** Add with title and favicon, then resolve: exactly what was supplied. *)
Example local_add_then_resolve :
  match result_of (run Store.handle
                     (@LocalFile.add simple_urls LocalFile.bootstrap titled_body)
                     web_world) with
  | Ok fs => responses (trace_of (run Store.handle (LocalFile.resolve fs "id0") web_world))
  | Err _ => []
  end
  = [Response 200 (VObj [("ok", VBool true); ("id", VStr "id0"); ("title", VStr "T");
                         ("favicon", VStr "F"); ("url", VStr "http://c.example")])].
Proof. reflexivity. Qed.

End LocalFileFacts.

(** ** Every request is answered once

    What follows holds against every handler of the effects: whatever the
    store, the fetched pages, [nanoid] and the clock answer. *)

(** [p] either sends exactly one response, which satisfies [Q], and
    returns, or throws having sent none. *)
Definition answers_or_throws {A} (Q : response -> Prop) (p : prog A) : Prop :=
  forall W (handle : forall X, eff X -> W -> X * W) (w : W),
    match run handle p w with
    | (t, _, Ok _) => exists r, responses t = [r] /\ Q r
    | (t, _, Err _) => responses t = []
    end.

(** [p] sends exactly one response, which satisfies [Q], and returns. *)
Definition answers {A} (Q : response -> Prop) (p : prog A) : Prop :=
  forall W (handle : forall X, eff X -> W -> X * W) (w : W),
    exists r a,
      responses (trace_of (run handle p w)) = [r] /\ Q r
      /\ result_of (run handle p w) = Ok a.

Lemma answers_respond (Q : response -> Prop) (st : nat) (body : value) :
  Q (Response st body) -> answers Q (respond st body).
Proof.
  intros HQ W handle w. exists (Response st body), tt.
  by rewrite run_respond.
Qed.

Lemma answers_throws {A} (Q : response -> Prop) (p : prog A) :
  answers Q p -> answers_or_throws Q p.
Proof.
  intros Hp W handle w. destruct (Hp W handle w) as (r & a & Hr & HQ & Ha).
  destruct (run handle p w) as [[t w1] [x|e]]; [|done].
  by exists r.
Qed.

Lemma silent_run {W A} (handle : forall X, eff X -> W -> X * W) (p : prog A) (w : W) :
  emits silent p -> responses (trace_of (run handle p w)) = [].
Proof. intros Hp. apply silent_responses. by apply emits_run. Qed.

Lemma answers_or_throws_bind {A B} (Q : response -> Prop) (p : prog A)
    (k : A -> prog B) :
  emits silent p -> (forall a, answers_or_throws Q (k a)) ->
  answers_or_throws Q (bind p k).
Proof.
  intros Hp Hk W handle w. rewrite run_bind.
  pose proof (silent_run handle p w Hp) as Ht.
  destruct (run handle p w) as [[t w1] [a|e]]; [|done].
  specialize (Hk a W handle w1).
  destruct (run handle (k a) w1) as [[t' w2] [b|e]];
    rewrite responses_app; unfold trace_of in Ht; simpl in Ht; by rewrite Ht.
Qed.

Lemma answers_try_catch {A} (Q : response -> Prop) (p : prog A) (h : exn -> prog A) :
  answers_or_throws Q p -> (forall e, answers Q (h e)) -> answers Q (try_catch p h).
Proof.
  intros Hp Hh W handle w. rewrite run_try_catch.
  specialize (Hp W handle w).
  destruct (run handle p w) as [[t w1] [a|e]].
  - destruct Hp as (r & Hr & HQ). by exists r, a.
  - destruct (Hh e W handle w1) as (r & a & Hr & HQ & Ha).
    destruct (run handle (h e) w1) as [[t' w2] x].
    exists r, a. unfold trace_of in *. simpl in *.
    by rewrite responses_app, Hp.
Qed.

Lemma answers_auth (Q : response -> Prop) (hdr : option string) (tokens : gset string)
    (next : prog unit) :
  Q (Response 401 (fail_body "unauthorized")) -> answers Q next ->
  answers Q (auth hdr tokens next).
Proof.
  intros H401 Hn. unfold auth.
  destruct (_ || _); [by apply answers_respond|done].
Qed.

(** A route's answer becomes the request's: the token set is returned as
    it was. *)
Lemma answers_serve (Q : response -> Prop) (p : prog unit) (tokens : gset string)
    W (handle : forall X, eff X -> W -> X * W) (w : W) :
  answers Q p ->
  exists r,
    responses (trace_of (run handle (let* _ := p in Ret tokens) w)) = [r] /\ Q r
    /\ result_of (run handle (let* _ := p in Ret tokens) w) = Ok tokens.
Proof.
  intros Hp. destruct (Hp W handle w) as (r & a & Hr & HQ & Ha).
  exists r. rewrite run_bind.
  destruct (run handle p w) as [[t w1] [x|e]]; [|done].
  rewrite run_Ret. unfold trace_of, result_of in *. simpl in *.
  by rewrite app_nil_r.
Qed.

Lemma answers_or_throws_lift_eq {A B} (Q : response -> Prop) (r : result A)
    (k : A -> prog B) :
  (forall a, r = Ok a -> answers_or_throws Q (k a)) ->
  answers_or_throws Q (bind (lift r) k).
Proof.
  intros Hk W handle w. rewrite run_bind, run_lift.
  destruct r as [a|e]; [|done].
  specialize (Hk a eq_refl W handle w).
  by destruct (run handle (k a) w) as [[t' w2] [b|e]].
Qed.

Lemma silent_ghRead (path : string) (init : doc) : emits silent (ghRead path init).
Proof.
  eapply emits_impl; [|apply emits_ghRead]. apply store_request_silent.
Qed.

Lemma silent_ghUpdate {B} (path : string) (mutate : doc -> prog (mutated B))
    (init : doc) (msg : string) :
  (forall db, emits silent (mutate db)) -> emits silent (ghUpdate path mutate init msg).
Proof. intros Hm. apply emits_ghUpdate; [apply store_request_silent|done]. Qed.

(** The answers of the public routes. *)
Definition list_answer (r : response) : Prop :=
  r = Response 500 (fail_body "read failed") \/ res_status r = 200%nat.

Definition resolve_answer (r : response) : Prop :=
  r = Response 403 (fail_body "Access disabled")
  \/ r = Response 404 (fail_body "Not found")
  \/ r = Response 500 (fail_body "resolve failed")
  \/ res_status r = 200%nat.

Definition probe_answer (r : response) : Prop :=
  r = Response 400 (fail_body "url required") \/ res_status r = 200%nat.

Lemma answers_list_urls (all : option string) : answers list_answer (list_urls all).
Proof.
  unfold list_urls. apply answers_try_catch.
  - apply answers_or_throws_bind; [apply silent_ghRead|intros urls].
    apply answers_or_throws_bind; [apply silent_ghRead|intros state].
    apply answers_or_throws_bind; [apply emits_lift|intros onlyActive].
    apply answers_or_throws_bind; [apply emits_lift|intros out].
    apply answers_throws, answers_respond. by right.
  - intros _. apply answers_respond. by left.
Qed.

Lemma answers_resolve (id : string) : answers resolve_answer (resolve id).
Proof.
  unfold resolve. apply answers_try_catch.
  - apply answers_or_throws_bind; [apply silent_ghRead|intros state].
    destruct (negb _).
    { apply answers_throws, answers_respond. by left. }
    apply answers_or_throws_bind; [apply silent_ghRead|intros urls].
    apply answers_or_throws_bind; [apply emits_lift|intros [it|]].
    + do 4 (apply answers_or_throws_bind; [apply emits_lift|intros ?]).
      apply answers_throws, answers_respond. by do 3 right.
    + apply answers_throws, answers_respond. right. by left.
  - intros _. apply answers_respond. right. right. by left.
Qed.

Section ProbeRoute.
Context `{URLApi} {W : Type}.
Variable handle : forall X, eff X -> W -> X * W.

Lemma run_probe_missing (body : option value) (w : W) :
  truthy_opt (body_field body "url") = false ->
  run handle (probe body) w
  = ([Ev (Respond (Response 400 (fail_body "url required"))) tt],
     (handle _ (Respond (Response 400 (fail_body "url required"))) w).2, Ok tt).
Proof.
  intros Hu. unfold probe.
  destruct (body_field body "url") as [url|]; simpl in Hu;
    [rewrite Hu|]; apply run_respond.
Qed.

Lemma run_probe_url (body : option value) (url : value) (w : W) :
  body_field body "url" = Some url ->
  truthy url = true ->
  let fetched := (handle _ (AxiosGet url) w).1 in
  let answer :=
    Response 200
      (VObj [("ok", VBool true);
             ("meta", VObj [("title", VStr (meta_title (probe_spec url fetched)));
                            ("favicon", VStr (meta_favicon (probe_spec url fetched)))])]) in
  run handle (probe body) w
  = ([Ev (AxiosGet url) fetched; Ev (Respond answer) tt],
     (handle _ (Respond answer) (handle _ (AxiosGet url) w).2).2, Ok tt).
Proof.
  intros Hb Hu. unfold probe. rewrite Hb, Hu.
  rewrite run_try_catch, run_bind, run_getPageMeta. by rewrite run_respond.
Qed.
End ProbeRoute.

Definition add_answer (r : response) : Prop :=
  r = Response 401 (fail_body "unauthorized")
  \/ r = Response 400 (fail_body "url required")
  \/ r = Response 500 (fail_body "add failed")
  \/ res_status r = 200%nat.

Definition remove_answer (r : response) : Prop :=
  r = Response 401 (fail_body "unauthorized")
  \/ r = Response 500 (fail_body "remove failed")
  \/ res_status r = 200%nat.

Definition toggle_answer (r : response) : Prop :=
  r = Response 401 (fail_body "unauthorized")
  \/ r = Response 400 (fail_body "enabled boolean required")
  \/ r = Response 500 (fail_body "toggle failed")
  \/ res_status r = 200%nat.

Lemma silent_remove_mutator (id : string) (db : doc) :
  emits silent (remove_mutator id db).
Proof.
  unfold remove_mutator. destruct (js_or_val _ _); try done.
  apply emits_bind; [apply emits_lift|done].
Qed.

Lemma answers_remove (id : string) : answers remove_answer (remove id).
Proof.
  unfold remove. apply answers_try_catch.
  - apply answers_or_throws_bind;
      [apply silent_ghUpdate, silent_remove_mutator|intros r].
    apply answers_throws, answers_respond. by do 2 right.
  - intros _. apply answers_respond. right. by left.
Qed.

Lemma answers_toggle (body : option value) : answers toggle_answer (toggle body).
Proof.
  unfold toggle.
  assert (answers toggle_answer (respond 400 (fail_body "enabled boolean required")))
    as H400 by (apply answers_respond; right; by left).
  destruct (body_field body "enabled") as [[| | | | |]|]; try done.
  apply answers_try_catch.
  - apply answers_or_throws_bind; [by apply silent_ghUpdate|intros r].
    apply answers_throws, answers_respond. by do 3 right.
  - intros _. apply answers_respond. do 2 right. by left.
Qed.

Section AdminAnswers.
Context `{URLApi}.

Lemma silent_backfill (url : value) (last : option value) :
  emits silent (backfill url last).
Proof. apply emits_backfill; [done|apply store_request_silent]. Qed.

Lemma answers_add (body : option value) : answers add_answer (add body).
Proof.
  unfold add.
  assert (answers add_answer (respond 400 (fail_body "url required")))
    as H400 by (apply answers_respond; right; by left).
  destruct (body_field body "url") as [url|]; [|done].
  destruct (truthy url); [|done].
  apply answers_try_catch.
  - apply answers_or_throws_bind.
    { apply silent_ghUpdate. intros db. by apply emits_add_mutator. }
    intros r.
    apply answers_or_throws_bind; [apply emits_lift|intros last].
    apply answers_or_throws_bind.
    { destruct (_ || _); [apply silent_backfill|done]. }
    intros _.
    apply answers_or_throws_bind; [apply emits_lift|intros id].
    apply answers_throws, answers_respond. by do 3 right.
  - intros _. apply answers_respond. do 2 right. by left.
Qed.
End AdminAnswers.

(** The request [req] gets exactly one response, which is one of [Q], and
    leaves the token set as it was. *)
Definition answered_once `{URLApi} {W} (handle : forall X, eff X -> W -> X * W)
    (w : W) (tokens : gset string) (req : request) (Q : response -> Prop) : Prop :=
  exists r,
    responses (trace_of (run handle (serve req tokens) w)) = [r] /\ Q r
    /\ result_of (run handle (serve req tokens) w) = Ok tokens.

Section Answered.
Context `{URLApi} {W : Type}.
Variable handle : forall X, eff X -> W -> X * W.

(** X1. Whatever the store and the fetched page answer, each public route
    sends exactly one response and never throws: the list 200 or 500
    "read failed"; resolve 200, 403, 404 or 500 "resolve failed"; the probe
    200 or 400 "url required", never its 500; the root 200. *)
Theorem public_requests_answered_once (tokens : gset string) (w : W) :
  (forall all, answered_once handle w tokens (GetUrls all) list_answer)
  /\ (forall id, answered_once handle w tokens (GetResolve id) resolve_answer)
  /\ (forall body, answered_once handle w tokens (PostProbe body) probe_answer)
  /\ answered_once handle w tokens GetRoot
       (fun r => r = Response 200 (VObj [("ok", VBool true);
                                         ("service",
                                          VStr "weekly-link-giver (github-backed)")])).
Proof.
  repeat split.
  - intros all. apply answers_serve, answers_list_urls.
  - intros id. apply answers_serve, answers_resolve.
  - intros body. unfold answered_once. simpl. rewrite run_bind.
    destruct (truthy_opt (body_field body "url")) eqn:Hu.
    + destruct (body_field body "url") as [url|] eqn:Hb; [|done]. simpl in Hu.
      rewrite (run_probe_url handle body url w Hb Hu). cbv zeta. rewrite run_Ret.
      eexists. split; [reflexivity|]. split; [by right|done].
    + rewrite (run_probe_missing handle body w Hu). rewrite run_Ret.
      eexists. split; [reflexivity|]. split; [by left|done].
  - apply answers_serve. by apply answers_respond.
Qed.

(** X2. Whatever the store and the fetched page answer, each admin route
    behind [auth] sends exactly one response and never throws: 401, or the
    route's 400, 200 or 500; the token set is as before. *)
Theorem admin_requests_answered_once (tokens : gset string) (w : W) :
  (forall hdr body, answered_once handle w tokens (PostAdd hdr body) add_answer)
  /\ (forall hdr id, answered_once handle w tokens (DeleteRemove hdr id) remove_answer)
  /\ (forall hdr body, answered_once handle w tokens (PostToggle hdr body) toggle_answer).
Proof.
  repeat split.
  - intros hdr body. apply answers_serve, answers_auth; [by left|apply answers_add].
  - intros hdr id. apply answers_serve, answers_auth; [by left|apply answers_remove].
  - intros hdr body. apply answers_serve, answers_auth; [by left|apply answers_toggle].
Qed.
End Answered.

(** ** A store that answers as scripted

    For the failure cases: each request gets the answer the script has for
    it, and nothing is remembered between requests. *)
Module Scripted.

Record script : Type := Script {
  on_get : string -> result get_data;
  on_put : string -> payload -> result string;
  on_fetch : value -> option page
}.

Definition handle (s : script) (X : Type) (e : eff X) (w : unit) : X * unit :=
  match e in eff X return X * unit with
  | GhGet path => (on_get s path, w)
  | GhPut path pl => (on_put s path pl, w)
  | AxiosGet url => (on_fetch s url, w)
  | Nanoid _ => ("id0", w)
  | DateNow => (1700000000000, w)
  | Respond _ => (tt, w)
  end.

(** The contents API cannot be reached: every request fails with no
    response. *)
Definition unreachable : script :=
  Script (fun _ => Err (AxiosError None)) (fun _ _ => Err (AxiosError None))
    (fun _ => None).

End Scripted.

Lemma silent_checkPin (pin : value) : emits silent (checkPin pin).
Proof.
  unfold checkPin. apply emits_bind; [apply silent_ghRead|intros pins].
  destruct (obj_lookup "pins" pins) as [[| | | |xs|]|]; try done.
  apply emits_bind; [apply emits_lift|intros entries].
  apply emits_bind; [apply emits_lift|done].
Qed.

Section LoginOutcomes.
Context {W : Type}.
Variable handle : forall X, eff X -> W -> X * W.

(** A failure of the first request of a read that is not a 404 is the
    failure of the read. *)
Lemma run_ghRead_fails (path : string) (init : doc) (w w1 : W) (e : exn) :
  handle _ (GhGet path) w = (Err e, w1) ->
  response_status e <> Some 404%nat ->
  run handle (ghRead path init) w = ([Ev (GhGet path) (Err e)], w1, Err e).
Proof.
  intros Hg He. unfold ghRead. rewrite run_bind, run_ghGetOrInit_any.
  unfold getOrInit_spec. rewrite Hg.
  by rewrite bool_decide_eq_false_2.
Qed.

(** X3. The login route has no [try]: it answers 401 and leaves the token
    set alone, or answers 200 with a new token ["adm_" + nanoid(16)] that
    it adds to the set, or throws without having sent a response; a token
    is never removed. It throws when the read of the pins fails with
    anything but a 404, after that one request. *)
Theorem login_outcomes (body : option value) (tokens : gset string) (w : W) :
  match run handle (login body tokens) w with
  | (t, _, Ok tokens') =>
      (responses t = [Response 401 (fail_body "bad pin")] /\ tokens' = tokens)
      \/ (exists n,
            responses t = [Response 200 (VObj [("ok", VBool true);
                                               ("token", VStr ("adm_" +:+ n))])]
            /\ tokens' = {["adm_" +:+ n]} ∪ tokens)
  | (t, _, Err _) => responses t = [] /\ truthy_opt (body_field body "pin") = true
  end
  /\ (forall pin e w1,
        body_field body "pin" = Some pin ->
        truthy pin = true ->
        handle _ (GhGet PINS_PATH) w = (Err e, w1) ->
        response_status e <> Some 404%nat ->
        run handle (login body tokens) w = ([Ev (GhGet PINS_PATH) (Err e)], w1, Err e)).
Proof.
  split.
  - unfold login. rewrite run_bind.
    set (decide_bad := match body_field body "pin" with
                       | Some p => _
                       | None => _
                       end).
    assert (emits silent decide_bad /\
            (truthy_opt (body_field body "pin") = false ->
             decide_bad = Ret true)) as [Hs Hfalsy].
    { subst decide_bad. destruct (body_field body "pin") as [p|]; simpl; [|done].
      destruct (truthy p); [|done].
      split; [|done]. apply emits_bind; [apply silent_checkPin|done]. }
    pose proof (silent_run handle decide_bad w Hs) as Ht.
    destruct (run handle decide_bad w) as [[t w1] [bad|e]] eqn:Hrun.
    + unfold trace_of in Ht. simpl in Ht. destruct bad.
      * rewrite run_bind, run_respond, run_Ret. left.
        by rewrite responses_app, Ht.
      * unfold randomToken. rewrite !run_bind, run_trigger, run_Ret. simpl.
        rewrite run_bind, run_respond, run_Ret. simpl. right.
        exists (handle _ (Nanoid 16) w1).1.
        by rewrite !responses_app, Ht.
    + unfold trace_of in Ht. simpl in Ht. split; [done|].
      destruct (truthy_opt (body_field body "pin")) eqn:Hp; [done|].
      by rewrite (Hfalsy eq_refl), run_Ret in Hrun.
  - intros pin e w1 Hb Hp Hg He. unfold login, checkPin. rewrite Hb, Hp.
    rewrite !run_bind, (run_ghRead_fails _ _ w w1 e Hg He). done.
Qed.
End LoginOutcomes.

Lemma login_outcomes_witness :
  run (Scripted.handle Scripted.unreachable)
    (login (Some (VObj [("pin", VStr "1234")])) ∅) tt
  = ([Ev (GhGet PINS_PATH) (Err (AxiosError None))], tt, Err (AxiosError None)).
Proof.
  apply (proj2 (login_outcomes (Scripted.handle Scripted.unreachable)
                  (Some (VObj [("pin", VStr "1234")])) ∅ tt)
           (VStr "1234") (AxiosError None) tt).
  - reflexivity.
  - reflexivity.
  - reflexivity.
  - simpl. discriminate.
Defined.

(** ** Requests that are refused *)

Lemma auth_refuses (hdr : option string) (tokens : gset string) (next : prog unit) :
  remove_first "Bearer " (default "" hdr) = ""
  \/ remove_first "Bearer " (default "" hdr) ∉ tokens ->
  auth hdr tokens next = respond 401 (fail_body "unauthorized").
Proof.
  intros Hbad. unfold auth.
  destruct Hbad as [->|Hnot]; [done|].
  rewrite (bool_decide_eq_false_2 _ Hnot). simpl. by rewrite orb_true_r.
Qed.

Section Refused.
Context `{URLApi} {W : Type}.
Variable handle : forall X, eff X -> W -> X * W.

(** The whole of the request is the one response [st], [msg]. *)
Definition refused (req : request) (tokens : gset string) (w : W)
    (st : nat) (msg : string) : Prop :=
  run handle (serve req tokens) w
  = ([Ev (Respond (Response st (fail_body msg))) tt],
     (handle _ (Respond (Response st (fail_body msg))) w).2, Ok tokens).

Lemma refused_respond (req : request) (tokens : gset string) (w : W) (st : nat)
    (msg : string) :
  serve req tokens = (let* _ := respond st (fail_body msg) in Ret tokens) ->
  refused req tokens w st msg.
Proof.
  intros Hs. unfold refused. rewrite Hs, run_bind, run_respond, run_Ret.
  simpl. done.
Qed.

(** X4. A request that lacks what its route requires is refused before
    anything else happens, its one response being the only effect: an
    admin request whose token (the header less its first ["Bearer "]) is
    empty or not in the token set gets 401; a probe or an authorised add
    whose [url] is missing or falsy gets 400; an authorised toggle whose
    [enabled] is not a boolean gets 400. *)
Theorem refused_requests_touch_nothing (tokens : gset string) (w : W) :
  (forall hdr,
     remove_first "Bearer " (default "" hdr) = ""
     \/ remove_first "Bearer " (default "" hdr) ∉ tokens ->
     (forall body, refused (PostAdd hdr body) tokens w 401 "unauthorized")
     /\ (forall id, refused (DeleteRemove hdr id) tokens w 401 "unauthorized")
     /\ (forall body, refused (PostToggle hdr body) tokens w 401 "unauthorized"))
  /\ (forall body,
        truthy_opt (body_field body "url") = false ->
        refused (PostProbe body) tokens w 400 "url required")
  /\ (forall hdr body,
        remove_first "Bearer " (default "" hdr) <> "" ->
        remove_first "Bearer " (default "" hdr) ∈ tokens ->
        (truthy_opt (body_field body "url") = false ->
         refused (PostAdd hdr body) tokens w 400 "url required")
        /\ ((forall b, body_field body "enabled" <> Some (VBool b)) ->
            refused (PostToggle hdr body) tokens w 400 "enabled boolean required")).
Proof.
  split; [|split].
  - intros hdr Hbad.
    repeat split; intros; apply refused_respond; simpl; by rewrite auth_refuses.
  - intros body Hu. apply refused_respond. simpl. unfold probe.
    destruct (body_field body "url") as [url|]; simpl in Hu; by rewrite ?Hu.
  - intros hdr body Hne Hin.
    assert (forall next, auth hdr tokens next = next) as Hauth.
    { intros next. unfold auth.
      rewrite (bool_decide_eq_false_2 _ Hne), (bool_decide_eq_true_2 _ Hin). done. }
    split.
    + intros Hu. apply refused_respond. simpl. rewrite Hauth. unfold add.
      destruct (body_field body "url") as [url|]; simpl in Hu; by rewrite ?Hu.
    + intros Hb. apply refused_respond. simpl. rewrite Hauth. unfold toggle.
      destruct (body_field body "enabled") as [[|b| | | |]|]; try done.
      by destruct (Hb b).
Qed.
End Refused.

Lemma refused_requests_touch_nothing_witness :
  @refused simple_urls _ Store.handle (DeleteRemove (Some "Bearer adm_guess") "aaa")
    {["adm_id0"]} (demo_world true) 401 "unauthorized"
  /\ @refused simple_urls _ Store.handle (PostProbe (Some (VObj [("url", VStr "")])))
       {["adm_id0"]} (demo_world true) 400 "url required"
  /\ @refused simple_urls _ Store.handle (PostAdd (Some "Bearer adm_id0") None)
       {["adm_id0"]} (demo_world true) 400 "url required"
  /\ @refused simple_urls _ Store.handle
       (PostToggle (Some "Bearer adm_id0") (Some (VObj [("enabled", VStr "false")])))
       {["adm_id0"]} (demo_world true) 400 "enabled boolean required".
Proof.
  pose proof (@refused_requests_touch_nothing simple_urls _ Store.handle
                {["adm_id0"]} (demo_world true)) as (H401 & Hprobe & Hadmin).
  split; [|split; [|split]].
  - apply (H401 (Some "Bearer adm_guess")). right. vm_compute. set_solver.
  - apply Hprobe. reflexivity.
  - apply (Hadmin (Some "Bearer adm_id0") None); [discriminate|set_solver|reflexivity].
  - apply (Hadmin (Some "Bearer adm_id0") (Some (VObj [("enabled", VStr "false")])));
      [discriminate|set_solver|]. intros b. discriminate.
Defined.

(** ** What the public routes give out and write *)

(** An object with no property besides [id], [title], [favicon], [url]. *)
Definition public_fields (u : value) : Prop :=
  match u with
  | VObj fs => fs.*1 ⊆ ["id"; "title"; "favicon"; "url"]
  | _ => False
  end.

Lemma project_public_fields (u out : value) :
  project u = Ok out -> public_fields out.
Proof.
  unfold project. destruct (get_prop u "id") as [a|]; [|done].
  destruct (get_prop u "title") as [b|]; [|done].
  destruct (get_prop u "favicon") as [c|]; [|done].
  destruct (get_prop u "url") as [d|]; [|done].
  intros [= <-].
  destruct a, b, c, d; simpl; intros k; rewrite !elem_of_cons; tauto.
Qed.

Lemma mapM_project_public (xs out : list value) :
  mapM project xs = Ok out -> Forall public_fields out.
Proof.
  revert out. induction xs as [|x xs IH]; intros out; simpl.
  - by intros [= <-].
  - destruct (project x) as [y|] eqn:Hy; [|done]. simpl.
    destruct (mapM project xs) as [r|]; [|done]. simpl.
    intros [= <-]. constructor; [by eapply project_public_fields|by apply IH].
Qed.

(** What the list route may answer. *)
Definition listing (r : response) : Prop :=
  r = Response 500 (fail_body "read failed")
  \/ exists enabled out,
       r = Response 200 (VObj [("ok", VBool true); ("enabled", VBool enabled);
                               ("urls", VArr out)])
       /\ Forall public_fields out.

Section Listing.
Context {W : Type}.
Variable handle : forall X, eff X -> W -> X * W.

(** X5. Whatever the two documents hold, with or without [all=1], the list
    route answers either 500 "read failed" or 200 with [enabled] a boolean
    and [urls] an array of objects that have no property besides [id],
    [title], [favicon] and [url]: [active] and [createdAt] are never given
    out. *)
Theorem list_gives_public_fields_only (all : option string) (w : W) :
  exists r,
    responses (trace_of (run handle (list_urls all) w)) = [r] /\ listing r.
Proof.
  assert (answers listing (list_urls all)) as Ha.
  { unfold list_urls. apply answers_try_catch.
    - apply answers_or_throws_bind; [apply silent_ghRead|intros urls].
      apply answers_or_throws_bind; [apply silent_ghRead|intros state].
      apply answers_or_throws_bind; [apply emits_lift|intros onlyActive].
      apply answers_or_throws_lift_eq. intros out Hout.
      apply answers_throws, answers_respond. right.
      eexists _, out. split; [done|]. by eapply mapM_project_public.
    - intros _. apply answers_respond. by left. }
  destruct (Ha W handle w) as (r & a & Hr & HQ & _). by exists r.
Qed.
End Listing.

(** The only writes are creations of a missing document with its initial
    value. *)
Definition creates_only (X : Type) (e : eff X) : Prop :=
  match e with
  | GhPut path pl =>
      pl_sha pl = None
      /\ ((path = URLS_PATH /\ pl_content pl = [("urls", VArr [])])
          \/ (path = STATE_PATH /\ pl_content pl = [("enabled", VBool true)])
          \/ (path = PINS_PATH /\ pl_content pl = [("pins", VArr [VStr "1234"])]))
  | _ => True
  end.

Lemma emits_ghRead_creates (P : forall X, eff X -> Prop) (path : string) (init : doc) :
  P _ (GhGet path) ->
  (forall msg, P _ (GhPut path (Payload msg init GITHUB_BRANCH None))) ->
  emits P (ghRead path init).
Proof.
  intros Hget Hput. unfold ghRead. apply emits_bind; [|done].
  unfold ghGetOrInit. apply emits_try_catch.
  - apply emits_bind; [by apply emits_trigger|intros r].
    apply emits_bind; [apply emits_lift|intros data].
    apply emits_bind; [apply emits_lift|done].
  - intros e. destruct (bool_decide _); [|done].
    apply emits_bind; [|done]. unfold ghPut.
    apply emits_bind; [|intros r; apply emits_lift].
    apply emits_trigger, Hput.
Qed.

(** The requests that go through [auth]. *)
Definition behind_auth (req : request) : bool :=
  match req with
  | PostAdd _ _ | DeleteRemove _ _ | PostToggle _ _ => true
  | _ => false
  end.

Section Creates.
Context `{URLApi} {W : Type}.
Variable handle : forall X, eff X -> W -> X * W.

Lemma creates_ghRead (path : string) (init : doc) :
  (path = URLS_PATH /\ init = [("urls", VArr [])])
  \/ (path = STATE_PATH /\ init = [("enabled", VBool true)])
  \/ (path = PINS_PATH /\ init = [("pins", VArr [VStr "1234"])]) ->
  emits creates_only (ghRead path init).
Proof. intros Hp. by apply emits_ghRead_creates. Qed.

Lemma emits_open_routes (req : request) (tokens : gset string) :
  behind_auth req = false -> emits creates_only (serve req tokens).
Proof.
  intros Hreq.
  assert (forall st body, emits creates_only (respond st body)) as Hres.
  { intros st body. by apply emits_respond. }
  destruct req as [all|id|body|body| | | |]; try done; unfold serve.
  - apply emits_bind; [|done]. unfold list_urls. apply emits_try_catch; [|done].
    apply emits_bind; [apply creates_ghRead; by left|intros urls].
    apply emits_bind; [apply creates_ghRead; right; by left|intros state].
    apply emits_bind; [apply emits_lift|intros onlyActive].
    apply emits_bind; [apply emits_lift|done].
  - apply emits_bind; [|done]. unfold resolve. apply emits_try_catch; [|done].
    apply emits_bind; [apply creates_ghRead; right; by left|intros state].
    destruct (negb _); [done|].
    apply emits_bind; [apply creates_ghRead; by left|intros urls].
    apply emits_bind; [apply emits_lift|intros [it|]]; [|done].
    do 4 (apply emits_bind; [apply emits_lift|intros ?]). done.
  - apply emits_bind; [|done]. unfold probe.
    destruct (body_field body "url") as [url|]; [|done].
    destruct (truthy url); [|done].
    apply emits_try_catch; [|done].
    apply emits_bind; [by apply emits_getPageMeta|done].
  - unfold login. apply emits_bind.
    + destruct (body_field body "pin") as [p|]; [|done].
      destruct (truthy p); [|done].
      apply emits_bind; [|done]. unfold checkPin.
      apply emits_bind; [apply creates_ghRead; by do 2 right|intros pins].
      destruct (obj_lookup "pins" pins) as [[| | | |xs|]|]; try done.
      apply emits_bind; [apply emits_lift|intros entries].
      apply emits_bind; [apply emits_lift|done].
    + intros [|].
      * apply emits_bind; [done|done].
      * unfold randomToken. apply emits_bind; [|intros token].
        { apply emits_bind; [by apply emits_trigger|done]. }
        apply emits_bind; [done|done].
Qed.

End Creates.

(** The value each of the three documents is created with. *)
Definition initial_of (path : string) : option doc :=
  if bool_decide (path = URLS_PATH) then Some [("urls", VArr [])]
  else if bool_decide (path = STATE_PATH) then Some [("enabled", VBool true)]
  else if bool_decide (path = PINS_PATH) then Some [("pins", VArr [VStr "1234"])]
  else None.

(** From [w] to [w'] no document has changed: a file of [w] is in [w']
    with its content and version; a file [w] does not have is missing in
    [w'] too or was created there with its initial value. *)
Definition only_created (w w' : Store.world) : Prop :=
  forall path,
    match Store.docs w !! path with
    | Some x => Store.docs w' !! path = Some x
    | None =>
        Store.docs w' !! path = None
        \/ exists init sha,
             initial_of path = Some init /\ Store.docs w' !! path = Some (init, sha)
    end.

Lemma only_created_refl (w : Store.world) : only_created w w.
Proof. intros path. destruct (Store.docs w !! path); [done|by left]. Qed.

(** An effect that is no request to the store leaves the documents. *)
Definition storeless (X : Type) (e : eff X) : Prop :=
  match e with
  | GhGet _ | GhPut _ _ => False
  | _ => True
  end.

Lemma keeps_only_created_storeless (w0 : Store.world) {A} (p : prog A) :
  emits storeless p -> keeps (only_created w0) p.
Proof.
  apply keeps_emits. intros X e w He Hw.
  by destruct e as [q|q pl|u|n| |r].
Qed.

Lemma keeps_only_created_read (w0 : Store.world) (path : string) (init : doc) :
  initial_of path = Some init ->
  keeps (only_created w0) (ghRead path init).
Proof.
  intros Hinit w Hw. rewrite StoreFacts.run_ghRead. unfold world_of. simpl.
  unfold StoreFacts.get_or_init.
  destruct (Store.docs w !! path) as [[d s]|] eqn:Hd; simpl; [done|].
  intros q. specialize (Hw q).
  destruct (decide (q = path)) as [->|Hq].
  - rewrite Hd in Hw. simpl. rewrite lookup_insert_eq.
    destruct (Store.docs w0 !! path) as [x|]; [done|].
    right. by exists init, (Store.sha_of (Store.version w)).
  - simpl. by rewrite lookup_insert_ne.
Qed.

Lemma storeless_respond (st : nat) (body : value) : emits storeless (respond st body).
Proof. by apply emits_respond. Qed.

Lemma keeps_only_created_list (w0 : Store.world) (all : option string) :
  keeps (only_created w0) (list_urls all).
Proof.
  unfold list_urls. apply keeps_try_catch.
  - apply keeps_bind; [by apply keeps_only_created_read|intros urls].
    apply keeps_bind; [by apply keeps_only_created_read|intros state].
    apply keeps_only_created_storeless.
    apply emits_bind; [apply emits_lift|intros xs].
    apply emits_bind; [apply emits_lift|intros out]. apply storeless_respond.
  - intros e. apply keeps_only_created_storeless, storeless_respond.
Qed.

Lemma keeps_only_created_resolve (w0 : Store.world) (id : string) :
  keeps (only_created w0) (resolve id).
Proof.
  unfold resolve. apply keeps_try_catch.
  - apply keeps_bind; [by apply keeps_only_created_read|intros state].
    destruct (negb _); [apply keeps_only_created_storeless, storeless_respond|].
    apply keeps_bind; [by apply keeps_only_created_read|intros urls].
    apply keeps_only_created_storeless.
    apply emits_bind; [apply emits_lift|intros [it|]]; [|apply storeless_respond].
    do 4 (apply emits_bind; [apply emits_lift|intros ?]). apply storeless_respond.
  - intros e. apply keeps_only_created_storeless, storeless_respond.
Qed.

Lemma keeps_only_created_login (w0 : Store.world) (body : option value)
    (tokens : gset string) :
  keeps (only_created w0) (login body tokens).
Proof.
  unfold login. apply keeps_bind.
  - destruct (body_field body "pin") as [p|];
      [|by apply keeps_only_created_storeless].
    destruct (truthy p); [|by apply keeps_only_created_storeless].
    apply keeps_bind; [|intros ok; by apply keeps_only_created_storeless].
    unfold checkPin.
    apply keeps_bind; [by apply keeps_only_created_read|intros pins].
    apply keeps_only_created_storeless.
    destruct (obj_lookup "pins" pins) as [[| | | |xs|]|]; try done.
    apply emits_bind; [apply emits_lift|intros entries].
    apply emits_bind; [apply emits_lift|done].
  - intros bad. apply keeps_only_created_storeless. destruct bad.
    + apply emits_bind; [apply storeless_respond|done].
    + unfold randomToken. apply emits_bind.
      { apply emits_bind; [by apply emits_trigger|done]. }
      intros token. apply emits_bind; [apply storeless_respond|done].
Qed.

Section OnlyCreated.
Context `{URLApi}.

Lemma keeps_only_created_open (w0 : Store.world) (req : request)
    (tokens : gset string) :
  behind_auth req = false -> keeps (only_created w0) (serve req tokens).
Proof.
  intros Hreq.
  destruct req as [all|id|body|body| | | |]; try done; unfold serve.
  - apply keeps_bind; [apply keeps_only_created_list|].
    intros u. by apply keeps_only_created_storeless.
  - apply keeps_bind; [apply keeps_only_created_resolve|].
    intros u. by apply keeps_only_created_storeless.
  - apply keeps_only_created_storeless.
    apply emits_bind; [|done]. unfold probe.
    destruct (body_field body "url") as [url|]; [|apply storeless_respond].
    destruct (truthy url); [|apply storeless_respond].
    apply emits_try_catch; [|intros e; apply storeless_respond].
    apply emits_bind; [by apply emits_getPageMeta|intros meta].
    apply storeless_respond.
  - apply keeps_only_created_login.
  - apply keeps_only_created_storeless.
    apply emits_bind; [apply storeless_respond|done].
Qed.
End OnlyCreated.

(** X6. A request to a route that is not behind [auth] (list, resolve,
    probe, login, root) never changes a stored document. On the store
    with no other writer every document is afterwards what it was, content
    and version, and a document that was missing is still missing or was
    created with its initial value. Whatever the store answers, every
    write the request sends carries no version token and holds the initial
    value of [data/urls.json], [data/state.json] or [data/pins.json]. *)
Theorem open_routes_only_create `{URLApi} (req : request) (tokens : gset string) :
  behind_auth req = false ->
  (forall w : Store.world,
     only_created w (world_of (run Store.handle (serve req tokens) w)))
  /\ (forall (W : Type) (handle : forall X, eff X -> W -> X * W) (w : W),
        Forall (event_sat creates_only) (trace_of (run handle (serve req tokens) w))).
Proof.
  intros Hreq. split.
  - intros w. apply keeps_only_created_open; [done|apply only_created_refl].
  - intros W handle w. by apply emits_run, emits_open_routes.
Qed.

Lemma open_routes_only_create_witness :
  only_created empty_world
    (world_of (run Store.handle (@serve simple_urls (GetResolve "aaa") ∅) empty_world))
  /\ Forall (event_sat creates_only)
       (trace_of (run Store.handle (@serve simple_urls (GetResolve "aaa") ∅) empty_world)).
Proof.
  split.
  - apply (proj1 (@open_routes_only_create simple_urls (GetResolve "aaa") ∅ eq_refl)).
  - apply (proj2 (@open_routes_only_create simple_urls (GetResolve "aaa") ∅ eq_refl)).
Defined.

(** ** A store that fails, a file that is empty or corrupt *)

(** The failure of a read whose first request was answered by [r]: an
    error other than a 404, or a content that [JSON.parse] rejects. *)
Definition read_failure (r : result get_data) : option exn :=
  match r with
  | Err e => if bool_decide (response_status e = Some 404%nat) then None else Some e
  | Ok data =>
      match parse_content (data_content data) with
      | Ok _ => None
      | Err e => Some e
      end
  end.

Section StoreFailure.
Context `{URLApi} {W : Type}.
Variable handle : forall X, eff X -> W -> X * W.

Lemma run_ghGetOrInit_failure (path : string) (init : doc) (w w1 : W)
    (r : result get_data) (e : exn) :
  handle _ (GhGet path) w = (r, w1) ->
  read_failure r = Some e ->
  run handle (ghGetOrInit path init) w = ([Ev (GhGet path) r], w1, Err e).
Proof.
  intros Hg Hf. rewrite run_ghGetOrInit_any. unfold getOrInit_spec. rewrite Hg.
  unfold read_failure in Hf. destruct r as [data|e'].
  - destruct (parse_content (data_content data)); [done|]. by injection Hf as ->.
  - destruct (bool_decide _); [done|]. by injection Hf as ->.
Qed.

Lemma run_ghRead_failure (path : string) (init : doc) (w w1 : W)
    (r : result get_data) (e : exn) :
  handle _ (GhGet path) w = (r, w1) ->
  read_failure r = Some e ->
  run handle (ghRead path init) w = ([Ev (GhGet path) r], w1, Err e).
Proof.
  intros Hg Hf. unfold ghRead.
  by rewrite run_bind, (run_ghGetOrInit_failure _ _ _ _ _ _ Hg Hf).
Qed.

Lemma run_ghUpdate_failure {B} (path : string) (mutate : doc -> prog (mutated B))
    (init : doc) (msg : string) (w w1 : W) (r : result get_data) (e : exn) :
  handle _ (GhGet path) w = (r, w1) ->
  read_failure r = Some e ->
  run handle (ghUpdate path mutate init msg) w = ([Ev (GhGet path) r], w1, Err e).
Proof.
  intros Hg Hf. unfold ghUpdate.
  by rewrite run_bind, (run_ghGetOrInit_failure _ _ _ _ _ _ Hg Hf).
Qed.

(** The route asked the store once, was answered [r], and sent 500 with
    [msg]; it wrote nothing. *)
Definition fails_with (p : prog unit) (w : W) (path : string)
    (r : result get_data) (w1 : W) (msg : string) : Prop :=
  run handle p w
  = ([Ev (GhGet path) r; Ev (Respond (Response 500 (fail_body msg))) tt],
     (handle _ (Respond (Response 500 (fail_body msg))) w1).2, Ok tt).

(** X7. When the first read of a route fails (the store answers with an
    error other than a 404, or the file is not JSON), the route asks
    nothing more, writes nothing and answers 500 with its own message: a
    corrupt document is never overwritten with the initial value. *)
Theorem failed_read_answers_500 (w w1 : W) (r : result get_data) (e : exn) :
  read_failure r = Some e ->
  (handle _ (GhGet STATE_PATH) w = (r, w1) ->
   (forall id, fails_with (resolve id) w STATE_PATH r w1 "resolve failed")
   /\ (forall body b,
         body_field body "enabled" = Some (VBool b) ->
         fails_with (toggle body) w STATE_PATH r w1 "toggle failed"))
  /\ (handle _ (GhGet URLS_PATH) w = (r, w1) ->
      (forall all, fails_with (list_urls all) w URLS_PATH r w1 "read failed")
      /\ (forall id, fails_with (remove id) w URLS_PATH r w1 "remove failed")
      /\ (forall body url,
            body_field body "url" = Some url -> truthy url = true ->
            fails_with (add body) w URLS_PATH r w1 "add failed")).
Proof.
  intros Hf. split; intros Hg.
  - split.
    + intros id. unfold fails_with, resolve.
      rewrite run_try_catch, run_bind, (run_ghRead_failure _ _ _ _ _ _ Hg Hf).
      by rewrite run_respond.
    + intros body b Hb. unfold fails_with, toggle. rewrite Hb.
      rewrite run_try_catch, run_bind, (run_ghUpdate_failure _ _ _ _ _ _ _ _ Hg Hf).
      by rewrite run_respond.
  - split; [|split].
    + intros all. unfold fails_with, list_urls.
      rewrite run_try_catch, run_bind, (run_ghRead_failure _ _ _ _ _ _ Hg Hf).
      by rewrite run_respond.
    + intros id. unfold fails_with, remove.
      rewrite run_try_catch, run_bind, (run_ghUpdate_failure _ _ _ _ _ _ _ _ Hg Hf).
      by rewrite run_respond.
    + intros body url Hb Hu. unfold fails_with, add. rewrite Hb, Hu.
      rewrite run_try_catch, run_bind, (run_ghUpdate_failure _ _ _ _ _ _ _ _ Hg Hf).
      by rewrite run_respond.
Qed.

(** X8. A state file that is empty, or holds the empty object, closes the
    service: the empty content parses as [{}], whose [enabled] is
    [undefined], and resolve answers 403 right after that read. *)
Theorem empty_state_closes_service (w w1 : W) (c : raw_content) (sha : string)
    (id : string) :
  c = RawEmpty \/ c = RawJson [] ->
  handle _ (GhGet STATE_PATH) w = (Ok (GetData c sha), w1) ->
  run handle (resolve id) w
  = ([Ev (GhGet STATE_PATH) (Ok (GetData c sha));
      Ev (Respond (Response 403 (fail_body "Access disabled"))) tt],
     (handle _ (Respond (Response 403 (fail_body "Access disabled"))) w1).2, Ok tt).
Proof.
  intros Hc Hg. unfold resolve, ghRead.
  rewrite run_try_catch, !run_bind, run_ghGetOrInit_any. unfold getOrInit_spec.
  rewrite Hg. destruct Hc as [-> | ->]; simpl; by rewrite ?run_Ret, run_respond.
Qed.
End StoreFailure.

(** A store whose state file is empty and whose catalog is corrupt. *)
Definition damaged : Scripted.script :=
  Scripted.Script
    (fun path => if bool_decide (path = STATE_PATH) then Ok (GetData RawEmpty "s1")
                 else Ok (GetData RawMalformed "u1"))
    (fun _ _ => Ok "new") (fun _ => None).

Lemma failed_read_answers_500_witness :
  (forall id,
     @fails_with unit (Scripted.handle Scripted.unreachable) (resolve id) tt STATE_PATH
       (Err (AxiosError None)) tt "resolve failed")
  /\ (forall all,
        @fails_with unit (Scripted.handle damaged) (list_urls all) tt URLS_PATH
          (Ok (GetData RawMalformed "u1")) tt "read failed").
Proof.
  split.
  - apply (@failed_read_answers_500 simple_urls unit
             (Scripted.handle Scripted.unreachable) tt tt (Err (AxiosError None))
             (AxiosError None)); reflexivity.
  - apply (@failed_read_answers_500 simple_urls unit (Scripted.handle damaged) tt tt
             (Ok (GetData RawMalformed "u1")) SyntaxError); reflexivity.
Defined.

Lemma empty_state_closes_service_witness :
  run (Scripted.handle damaged) (resolve "aaa") tt
  = ([Ev (GhGet STATE_PATH) (Ok (GetData RawEmpty "s1"));
      Ev (Respond (Response 403 (fail_body "Access disabled"))) tt], tt, Ok tt).
Proof.
  apply (empty_state_closes_service (Scripted.handle damaged) tt tt RawEmpty "s1" "aaa").
  - by left.
  - reflexivity.
Defined.

(** ** On the sequential store: the pins *)

(** X9. While [data/pins.json] does not exist, the pin 1234 opens the admin
    routes: the login creates the file with the pins [["1234"]]; a
    non-empty pin whose conversion to a string gives ["1234"] (the string
    or the number) is accepted, one whose conversion gives another string
    is refused with 401, and one whose conversion throws makes the route
    throw with nothing sent. *)
Theorem missing_pins_accept_default (w : Store.world) (body : option value)
    (pin : value) (tokens : gset string) :
  Store.docs w !! PINS_PATH = None ->
  body_field body "pin" = Some pin ->
  truthy pin = true ->
  let o := run Store.handle (login body tokens) w in
  Store.docs (world_of o) !! PINS_PATH
  = Some ([("pins", VArr [VStr "1234"])], Store.sha_of (Store.version w))
  /\ (js_String pin = Ok "1234" ->
      responses (trace_of o)
      = [Response 200 (VObj [("ok", VBool true);
                             ("token", VStr ("adm_" +:+ Store.ids w (Store.next_id w)))])]
      /\ result_of o = Ok ({["adm_" +:+ Store.ids w (Store.next_id w)]} ∪ tokens))
  /\ (forall p,
        js_String pin = Ok p -> p <> "1234" ->
        responses (trace_of o) = [Response 401 (fail_body "bad pin")]
        /\ result_of o = Ok tokens)
  /\ (forall e,
        js_String pin = Err e ->
        responses (trace_of o) = [] /\ result_of o = Err e).
Proof.
  intros Hd Hb Hp o. subst o. unfold login. rewrite Hb, Hp.
  pose proof (StoreFacts.run_ghRead PINS_PATH [("pins", VArr [VStr "1234"])] w) as Hr.
  unfold StoreFacts.get_or_init in Hr. rewrite Hd in Hr. simpl in Hr.
  rewrite !run_bind, (run_checkPin Store.handle pin _ _ _ _ _ Hr eq_refl).
  simpl strings_of. simpl rbind.
  destruct (js_String pin) as [p|e] eqn:Hs; simpl.
  - destruct (decide (p = "1234")) as [->|Hne].
    + rewrite bool_decide_eq_true_2 by (by apply list_elem_of_singleton).
      simpl. split; [by rewrite lookup_insert_eq|]. split; [done|].
      split; [|done]. intros p [= <-] Hne. by destruct Hne.
    + rewrite bool_decide_eq_false_2 by (by intros ?%list_elem_of_singleton).
      simpl. split; [by rewrite lookup_insert_eq|].
      split; [by intros [= ->]|]. split; [|done]. by intros p' [= <-] _.
  - split; [by rewrite lookup_insert_eq|]. split; [done|]. split; [done|].
    by intros e' [= <-].
Qed.

Lemma missing_pins_accept_default_witness :
  let o := run Store.handle (login (Some (VObj [("pin", VNum 1234)])) ∅) empty_world in
  Store.docs (world_of o) !! PINS_PATH = Some ([("pins", VArr [VStr "1234"])], "v")
  /\ responses (trace_of o)
     = [Response 200 (VObj [("ok", VBool true); ("token", VStr "adm_id0")])]
  /\ result_of o = Ok ({["adm_id0"]} ∪ ∅).
Proof.
  destruct (missing_pins_accept_default empty_world (Some (VObj [("pin", VNum 1234)]))
              (VNum 1234) ∅) as (Hdoc & Hyes & _); [reflexivity..|].
  split; [exact Hdoc|]. apply Hyes. reflexivity.
Defined.

(** ** On the sequential store: how the routes compose *)

Lemma service_enabled_insert (w w' : Store.world) (path : string) (x : doc * string) :
  Store.docs w' = <[path := x]> (Store.docs w) ->
  path <> STATE_PATH ->
  service_enabled w' = service_enabled w.
Proof.
  intros Hd Hp. unfold service_enabled. by rewrite Hd, lookup_insert_ne.
Qed.

Lemma has_id_other (id id' : string) (u : value) :
  id' <> id -> has_id id u = true -> is_active_with_id id' u = false.
Proof.
  unfold has_id, is_active_with_id, strict_eq_str. intros Hne.
  destruct (field u "id") as [[| | |s| |]|]; try done.
  intros ->%bool_decide_eq_true. by rewrite bool_decide_eq_false_2.
Qed.

Lemma find_without_other (id id' : string) (xs : list value) :
  id' <> id ->
  List.find (is_active_with_id id') (List.filter (fun u => negb (has_id id u)) xs)
  = List.find (is_active_with_id id') xs.
Proof.
  intros Hne. induction xs as [|x xs IH]; [done|]. simpl.
  destruct (has_id id x) eqn:Hx; simpl.
  - by rewrite (has_id_other id id' x Hne Hx).
  - by rewrite IH.
Qed.

Lemma find_without_same (id : string) (xs : list value) :
  List.find (is_active_with_id id) (List.filter (fun u => negb (has_id id u)) xs) = None.
Proof.
  induction xs as [|x xs IH]; [done|]. simpl.
  destruct (has_id id x) eqn:Hx; simpl; [done|].
  unfold is_active_with_id. fold (has_id id x). by rewrite Hx.
Qed.

(** X10. On the sequential store, with the service enabled and a catalog
    of objects: after [remove id] the remaining records are the old ones
    without those whose [id] is [id], in their order; resolving [id]
    answers 404, and resolving any other id answers what it answered
    before. *)
Theorem remove_then_resolve (w : Store.world) (id : string) (d : doc) (s : string)
    (xs : list value) :
  Store.docs w !! URLS_PATH = Some (d, s) ->
  obj_lookup "urls" d = Some (VArr xs) ->
  Forall (fun u => u <> VNull) xs ->
  service_enabled w = true ->
  let w' := world_of (run Store.handle (remove id) w) in
  urls_of (catalog w') = Some (List.filter (fun u => negb (has_id id u)) xs)
  /\ responses (trace_of (run Store.handle (resolve id) w'))
     = [Response 404 (fail_body "Not found")]
  /\ (forall id', id' <> id ->
        responses (trace_of (run Store.handle (resolve id') w'))
        = responses (trace_of (run Store.handle (resolve id') w))).
Proof.
  intros Hd Hxs Hnn Hen w'.
  assert (urls_of (catalog w) = Some xs) as Hcat.
  { unfold catalog. rewrite Hd. by apply urls_of_array. }
  destruct (run_remove_store w id xs Hcat Hnn) as (t & w1 & d' & sha & Hrun & _ & Hdocs & Hd').
  subst w'. rewrite Hrun. unfold world_of. simpl.
  assert (service_enabled w1 = true) as Hen1.
  { by rewrite (service_enabled_insert w w1 _ _ Hdocs). }
  assert (Store.docs w1 !! URLS_PATH = Some (d', sha)) as Hd1.
  { by rewrite Hdocs, lookup_insert_eq. }
  assert (Forall (fun u => u <> VNull) (List.filter (fun u => negb (has_id id u)) xs))
    as Hnn' by by apply Forall_list_filter.
  split; [|split].
  - rewrite (catalog_insert w w1 d' sha Hdocs). by apply urls_of_array.
  - rewrite (run_resolve_store w1 id d' sha _ Hen1 Hd1 Hd' Hnn').
    by rewrite find_without_same.
  - intros id' Hne.
    rewrite (run_resolve_store w1 id' d' sha _ Hen1 Hd1 Hd' Hnn').
    rewrite (run_resolve_store w id' d s _ Hen Hd Hxs Hnn).
    by rewrite find_without_other.
Qed.

Lemma remove_then_resolve_witness :
  let w' := world_of (run Store.handle (remove "aaa") (demo_world true)) in
  urls_of (catalog w')
  = Some (List.filter (fun u => negb (has_id "aaa" u)) demo_records)
  /\ responses (trace_of (run Store.handle (resolve "aaa") w'))
     = [Response 404 (fail_body "Not found")]
  /\ (forall id', id' <> "aaa" ->
        responses (trace_of (run Store.handle (resolve id') w'))
        = responses (trace_of (run Store.handle (resolve id') (demo_world true)))).
Proof.
  apply (remove_then_resolve (demo_world true) "aaa" demo_catalog "u1" demo_records).
  - reflexivity.
  - reflexivity.
  - repeat constructor; discriminate.
  - reflexivity.
Defined.

Lemma run_resolve_closed_store (w : Store.world) (id : string) :
  service_enabled w = false ->
  responses (trace_of (run Store.handle (resolve id) w))
  = [Response 403 (fail_body "Access disabled")].
Proof.
  intros Hen.
  pose proof (StoreFacts.run_ghRead STATE_PATH [("enabled", VBool true)] w) as Hr.
  rewrite (run_resolve_closed Store.handle w id _ _ _ Hr)
    by by rewrite get_or_init_enabled.
  rewrite responses_app.
  pose proof (silent_run Store.handle _ w
                (silent_ghRead STATE_PATH [("enabled", VBool true)])) as Hs.
  rewrite Hr in Hs. unfold trace_of in Hs. simpl in Hs. by rewrite Hs.
Qed.

(** X11. On the sequential store, what a toggle writes is what the gate
    reads next: after [toggle {enabled: false}] every resolve answers 403,
    whatever the catalog holds; after [toggle {enabled: true}] a resolve
    answers by the catalog alone, 200 with the first active record that
    has the id or 404. *)
Theorem toggle_then_resolve (w : Store.world) (body : option value) (b : bool) :
  body_field body "enabled" = Some (VBool b) ->
  let w' := world_of (run Store.handle (toggle body) w) in
  service_enabled w' = b
  /\ (b = false ->
      forall id, responses (trace_of (run Store.handle (resolve id) w'))
                 = [Response 403 (fail_body "Access disabled")])
  /\ (b = true ->
      forall id d s xs,
        Store.docs w !! URLS_PATH = Some (d, s) ->
        obj_lookup "urls" d = Some (VArr xs) ->
        Forall (fun u => u <> VNull) xs ->
        responses (trace_of (run Store.handle (resolve id) w'))
        = [match List.find (is_active_with_id id) xs with
           | None => Response 404 (fail_body "Not found")
           | Some it =>
               Response 200
                 (obj_of [("ok", Some (VBool true)); ("id", field it "id");
                          ("title", field it "title");
                          ("favicon", field it "favicon");
                          ("url", field it "url")])
           end]).
Proof.
  intros Hb w'.
  destruct (run_toggle_store w body b Hb) as (t & w1 & sha & Hrun & _ & Hdocs).
  subst w'. rewrite Hrun. unfold world_of. simpl.
  assert (service_enabled w1 = b) as Hen.
  { unfold service_enabled. by rewrite Hdocs, lookup_insert_eq. }
  split; [done|]. split.
  - intros -> id. by apply run_resolve_closed_store.
  - intros -> id d s xs Hd Hxs Hnn.
    apply (run_resolve_store w1 id d s xs Hen); [|done..].
    by rewrite Hdocs, lookup_insert_ne.
Qed.

Lemma toggle_then_resolve_witness :
  let w' := world_of (run Store.handle
                        (toggle (Some (VObj [("enabled", VBool false)])))
                        (demo_world true)) in
  service_enabled w' = false
  /\ forall id, responses (trace_of (run Store.handle (resolve id) w'))
                = [Response 403 (fail_body "Access disabled")].
Proof.
  destruct (toggle_then_resolve (demo_world true)
              (Some (VObj [("enabled", VBool false)])) false eq_refl)
    as (Hen & Hclosed & _).
  split; [exact Hen|]. by apply Hclosed.
Defined.

Lemma find_active_some (id : string) (xs : list value) (u : value) :
  u ∈ xs -> is_active_with_id id u = true ->
  exists it, List.find (is_active_with_id id) xs = Some it
             /\ it ∈ xs /\ is_active_with_id id it = true.
Proof.
  intros Hu Hact. induction Hu as [u xs|u x xs Hu IH]; simpl.
  - rewrite Hact. exists u. split; [done|]. split; [left|done].
  - destruct (is_active_with_id id x) eqn:Hx.
    + exists x. split; [done|]. split; [left|done].
    + destruct (IH Hact) as (it & Hf & Hin & Hit). exists it.
      split; [done|]. split; [by right|done].
Qed.

Lemma find_active_none (id : string) (xs : list value) :
  (forall u, u ∈ xs -> is_active_with_id id u = false) ->
  List.find (is_active_with_id id) xs = None.
Proof.
  intros Hall. induction xs as [|x xs IH]; [done|]. simpl.
  rewrite (Hall x) by left. apply IH. intros u Hu. apply Hall. by right.
Qed.

(** X12. On the sequential store, with the service enabled and a catalog
    of objects: every record with a string id that the default listing
    shows (its [active] is not [false]) can be resolved, the answer being
    200 with an active record of that id; an id all of whose records have
    [active] [false] answers 404. *)
Theorem listed_ids_resolve (w : Store.world) (d : doc) (s : string) (xs : list value) :
  Store.docs w !! URLS_PATH = Some (d, s) ->
  obj_lookup "urls" d = Some (VArr xs) ->
  Forall (fun u => u <> VNull) xs ->
  service_enabled w = true ->
  (forall u i,
     u ∈ xs -> not_false (field u "active") = true -> field u "id" = Some (VStr i) ->
     exists it,
       it ∈ xs /\ field it "id" = Some (VStr i)
       /\ not_false (field it "active") = true
       /\ responses (trace_of (run Store.handle (resolve i) w))
          = [Response 200
               (obj_of [("ok", Some (VBool true)); ("id", Some (VStr i));
                        ("title", field it "title");
                        ("favicon", field it "favicon");
                        ("url", field it "url")])])
  /\ (forall i,
        (forall u, u ∈ xs -> has_id i u = true -> field u "active" = Some (VBool false)) ->
        responses (trace_of (run Store.handle (resolve i) w))
        = [Response 404 (fail_body "Not found")]).
Proof.
  intros Hd Hxs Hnn Hen. split.
  - intros u i Hu Hact Hid.
    assert (is_active_with_id i u = true) as Hu'.
    { unfold is_active_with_id. rewrite Hid, Hact. simpl.
      by rewrite bool_decide_eq_true_2. }
    destruct (find_active_some i xs u Hu Hu') as (it & Hf & Hin & Hit).
    apply andb_true_iff in Hit as [Hi Ha].
    assert (field it "id" = Some (VStr i)) as Hid'.
    { unfold strict_eq_str in Hi.
      destruct (field it "id") as [[| | |s'| |]|]; try done.
      by apply bool_decide_eq_true in Hi as ->. }
    exists it. split; [done|]. split; [done|]. split; [done|].
    by rewrite (run_resolve_store w i d s xs Hen Hd Hxs Hnn), Hf, Hid'.
  - intros i Hall.
    rewrite (run_resolve_store w i d s xs Hen Hd Hxs Hnn).
    rewrite find_active_none; [done|].
    intros u Hu. unfold is_active_with_id. fold (has_id i u).
    destruct (has_id i u) eqn:Hi; [|done].
    by rewrite (Hall u Hu Hi).
Qed.

Lemma listed_ids_resolve_witness :
  (exists it,
     it ∈ demo_records /\ field it "id" = Some (VStr "aaa")
     /\ not_false (field it "active") = true
     /\ responses (trace_of (run Store.handle (resolve "aaa") (demo_world true)))
        = [Response 200
             (obj_of [("ok", Some (VBool true)); ("id", Some (VStr "aaa"));
                      ("title", field it "title");
                      ("favicon", field it "favicon");
                      ("url", field it "url")])])
  /\ responses (trace_of (run Store.handle (resolve "bbb") (demo_world true)))
     = [Response 404 (fail_body "Not found")].
Proof.
  destruct (listed_ids_resolve (demo_world true) demo_catalog "u1" demo_records)
    as [Hlisted Hhidden].
  - reflexivity.
  - reflexivity.
  - repeat constructor; discriminate.
  - reflexivity.
  - split.
    + apply (Hlisted (record "aaa" "http://a.example" "A" "http://a.example/i.png" true)).
      * left.
      * reflexivity.
      * reflexivity.
    + apply Hhidden. intros u Hu Hi.
      apply elem_of_cons in Hu as [->|Hu]; [discriminate|].
      apply list_elem_of_singleton in Hu as ->. reflexivity.
Defined.

Section AddFills.
Context `{URLApi}.

(** X13. On the sequential store, for an add without a title (fresh id,
    catalog of objects), the record that ends up stored takes its title
    from the page when the probe found one, else from the host name of the
    url; its favicon, unless supplied, is the probe's. When neither a page
    title nor a host name can be had, the patch fails as a whole and the
    record stays as first written, with an empty title and no probed
    favicon. *)
Theorem add_fills_missing_title (w : Store.world) (body : option value) (url : value)
    (xs : list value) :
  body_field body "url" = Some url ->
  truthy url = true ->
  urls_of (catalog w) = Some xs ->
  Forall (fun u => u <> VNull) xs ->
  Forall (fun u => has_id (Store.ids w (Store.next_id w)) u = false) xs ->
  truthy_opt (body_field body "title") = false ->
  let meta := probe_spec url (Store.web w url) in
  let favicon := body_field body "favicon" in
  exists stored,
    urls_of (catalog (world_of (run Store.handle (add body) w))) = Some (xs ++ [stored])
    /\ (meta_title meta <> "" ->
        field stored "title" = Some (VStr (meta_title meta)))
    /\ (forall h,
          meta_title meta = "" -> URL_hostname url = Some h ->
          field stored "title" = Some (VStr h))
    /\ (meta_title meta <> "" \/ URL_hostname url <> None ->
        field stored "favicon"
        = Some (if truthy_opt favicon then js_or_val favicon (VStr "")
                else VStr (meta_favicon meta)))
    /\ (meta_title meta = "" -> URL_hostname url = None ->
        stored = new_record (Store.ids w (Store.next_id w)) url
                   (body_field body "title") favicon (Store.clock w)).
Proof.
  intros Hb Hu Hcat Hnn Hfresh Ht meta favicon.
  destruct (run_add_store w body url xs Hb Hu Hcat Hnn Hfresh)
    as (t & w' & d' & sha & Hrun & _ & Hdocs & Hd').
  rewrite Hrun. unfold world_of. simpl.
  rewrite (catalog_insert w w' d' sha Hdocs), (urls_of_array _ _ Hd').
  eexists. split; [reflexivity|].
  unfold stored_record, backfilled_record. rewrite Ht. simpl.
  fold meta. fold favicon. unfold hostname_of.
  destruct (bool_decide (meta_title meta = "")) eqn:Hm.
  - apply bool_decide_eq_true in Hm.
    destruct (URL_hostname url) as [h|] eqn:Hh; simpl.
    + split; [done|]. split; [by intros h' _ [= <-]|]. split; [done|done].
    + split; [done|]. split; [done|]. split; [|done].
      by intros [?|?].
  - apply bool_decide_eq_false in Hm. simpl.
    split; [done|]. split; [done|]. split; [done|done].
Qed.
End AddFills.

Lemma add_fills_missing_title_witness :
  exists stored,
    urls_of (catalog (world_of (run Store.handle (@add simple_urls untitled_body)
                                  (demo_world true))))
    = Some (demo_records ++ [stored])
    /\ field stored "title" = Some (VStr "example.com")
    /\ field stored "favicon" = Some (VStr "http://example.com/favicon.ico").
Proof.
  destruct (@add_fills_missing_title simple_urls (demo_world true) untitled_body
              (VStr "http://example.com") demo_records)
    as (stored & Hcat & _ & Hhost & Hicon & _).
  - reflexivity.
  - reflexivity.
  - reflexivity.
  - repeat constructor; discriminate.
  - repeat constructor.
  - reflexivity.
  - exists stored. split; [exact Hcat|]. split.
    + apply Hhost; reflexivity.
    + apply Hicon. right. discriminate.
Defined.

(** ** The update against a second writer *)

Lemma racing_get (path : string) (init d : doc) (s : string) (w : Store.world)
    (script : list (option (string * doc))) :
  Store.docs w !! path = Some (d, s) ->
  run Store.handle_racing (ghGetOrInit path init) (w, script)
  = ([Ev (GhGet path) (Ok (GetData (RawJson d) s))], (w, script), Ok (Fetched d s false)).
Proof.
  intros Hd. rewrite run_ghGetOrInit_any. unfold getOrInit_spec. simpl.
  by rewrite Hd.
Qed.

(** X14. On the sequential store with a second writer, for a mutator that
    only computes: when a rival write to the same file lands between the
    helper's read and its put, the put is refused (409) and the retry
    applies the mutator to the rival's content, not to the stale one; the
    result returned and the file are the mutator's output for the rival's
    content, so the rival's write is not lost. *)
Theorem update_survives_rival_write {B} (w : Store.world) (path : string)
    (mutate : doc -> prog (mutated B)) (init : doc) (msg : string)
    (d rival : doc) (s : string) (m1 m2 : mutated B) :
  Store.docs w !! path = Some (d, s) ->
  s <> "" ->
  s <> Store.sha_of (Store.version w) ->
  (forall r, run Store.handle_racing (mutate d) r = ([], r, Ok m1)) ->
  (forall r, run Store.handle_racing (mutate rival) r = ([], r, Ok m2)) ->
  let o := run Store.handle_racing (ghUpdate path mutate init msg)
             (w, [Some (path, rival)]) in
  result_of o = Ok (m_result m2, m_aux m2)
  /\ Store.docs (world_of o).1 !! path
     = Some (m_result m2, Store.sha_of (S (Store.version w)))
  /\ (forall q, q <> path -> Store.docs (world_of o).1 !! q = Store.docs w !! q)
  /\ responses (trace_of o) = []
  /\ length (trace_of o) = 4%nat.
Proof.
  intros Hd Hs Hv H1 H2 o. subst o.
  rewrite run_ghUpdate. unfold update_spec, update_round.
  rewrite (racing_get path init d s w _ Hd), H1. simpl.
  rewrite run_ghPut. simpl.
  rewrite (bool_decide_eq_false_2 _ Hs). simpl.
  rewrite lookup_insert_eq. simpl.
  rewrite bool_decide_eq_false_2 by done. simpl.
  rewrite racing_get with (d := rival) (s := Store.sha_of (Store.version w))
    by (simpl; by rewrite lookup_insert_eq).
  rewrite H2. simpl. rewrite run_ghPut. simpl.
  rewrite (bool_decide_eq_false_2 _ (StoreFacts.sha_of_nonempty _)). simpl.
  rewrite lookup_insert_eq. simpl.
  rewrite bool_decide_eq_true_2 by done. simpl.
  unfold result_of, world_of, trace_of. simpl.
  split; [done|]. split; [by rewrite lookup_insert_eq|].
  split; [|done].
  intros q Hq. by rewrite !lookup_insert_ne.
Qed.

Lemma update_survives_rival_write_witness :
  let o := run Store.handle_racing
             (ghUpdate URLS_PATH (remove_mutator "aaa") [("urls", VArr [])]
                "admin remove url")
             (demo_world true, [Some (URLS_PATH, rival_catalog)]) in
  result_of o
  = Ok ([("urls", VArr [record "bbb" "http://b.example" "B" "" false;
                        record "rrr" "http://r.example" "R" "" true])], 1)
  /\ Store.docs (world_of o).1 !! URLS_PATH
     = Some ([("urls", VArr [record "bbb" "http://b.example" "B" "" false;
                             record "rrr" "http://r.example" "R" "" true])],
             Store.sha_of 6).
Proof.
  pose (kept := [("urls", VArr [record "bbb" "http://b.example" "B" "" false])]).
  pose (merged := [("urls", VArr [record "bbb" "http://b.example" "B" "" false;
                                  record "rrr" "http://r.example" "R" "" true])]).
  destruct (update_survives_rival_write (demo_world true) URLS_PATH
              (remove_mutator "aaa") [("urls", VArr [])] "admin remove url"
              demo_catalog rival_catalog "u1"
              (Mutated kept kept 1) (Mutated merged merged 1))
    as (Hres & Hdoc & _).
  - reflexivity.
  - discriminate.
  - discriminate.
  - intros r. reflexivity.
  - intros r. reflexivity.
  - split; [exact Hres|exact Hdoc].
Defined.

(** What the file at [path] holds for a reader: its content, or the
    initial value the reader would create it with. *)
Definition current (w : Store.world) (path : string) (init : doc) : doc :=
  match Store.docs w !! path with
  | Some (d, _) => d
  | None => init
  end.

(** X15. On the sequential store, for a mutator that only computes, the
    update is a read-modify-write of the one file: it returns the
    mutator's output for the current content (the initial value when the
    file is missing); any later read of the file returns that output with
    a single request and changes nothing; no other file is touched. *)
Theorem update_then_read {B} (w : Store.world) (path : string)
    (mutate : doc -> prog (mutated B)) (init : doc) (msg : string) (m : mutated B) :
  (forall w0, run Store.handle (mutate (current w path init)) w0 = ([], w0, Ok m)) ->
  let o := run Store.handle (ghUpdate path mutate init msg) w in
  result_of o = Ok (m_result m, m_aux m)
  /\ (exists sha,
        forall init',
          run Store.handle (ghRead path init') (world_of o)
          = ([Ev (GhGet path) (Ok (GetData (RawJson (m_result m)) sha))],
             world_of o, Ok (m_result m)))
  /\ (forall q, q <> path -> Store.docs (world_of o) !! q = Store.docs w !! q).
Proof.
  intros Hm o.
  assert (f_json (StoreFacts.get_or_init path init w).2 = current w path init) as Hcur.
  { unfold StoreFacts.get_or_init, current.
    by destruct (Store.docs w !! path) as [[d s]|]. }
  pose proof (StoreFacts.run_ghUpdate_ok path mutate init msg w
                (StoreFacts.get_or_init path init w).1.2 [] m) as Hrun.
  rewrite Hcur in Hrun. specialize (Hrun (Hm _) eq_refl).
  subst o. rewrite Hrun. unfold result_of, world_of. simpl.
  split; [done|]. split.
  - eexists. intros init'. rewrite StoreFacts.run_ghRead.
    unfold StoreFacts.get_or_init. simpl. rewrite lookup_insert_eq. reflexivity.
  - intros q Hq. rewrite lookup_insert_ne by done.
    by apply StoreFacts.get_or_init_other.
Qed.

Lemma update_then_read_witness :
  let o := run Store.handle
             (ghUpdate STATE_PATH
                (fun db => Ret (Mutated [("enabled", VBool false)] db tt))
                [("enabled", VBool true)] "toggle service state") empty_world in
  result_of o = Ok ([("enabled", VBool false)], tt)
  /\ exists sha,
       forall init',
         run Store.handle (ghRead STATE_PATH init') (world_of o)
         = ([Ev (GhGet STATE_PATH) (Ok (GetData (RawJson [("enabled", VBool false)]) sha))],
            world_of o, Ok [("enabled", VBool false)]).
Proof.
  destruct (update_then_read empty_world STATE_PATH
              (fun db => Ret (Mutated [("enabled", VBool false)] db tt))
              [("enabled", VBool true)] "toggle service state"
              (Mutated [("enabled", VBool false)] [("enabled", VBool true)] tt))
    as (Hres & Hread & _).
  - intros w0. reflexivity.
  - split; [exact Hres|exact Hread].
Defined.

(** ** The local-file variant against the GitHub-backed one *)

Ltac run_route :=
  repeat first
    [ rewrite run_bind | rewrite run_try_catch | rewrite run_trigger
    | rewrite run_respond | rewrite run_lift | rewrite run_Ret | rewrite run_Throw
    | progress simpl ].

Section LocalAdd.
Context `{URLApi}.

Lemma run_local_add (w : Store.world) (fs : LocalFile.files) (body : option value)
    (url : value) (xs : list value) (r : value) :
  body_field body "url" = Some url ->
  truthy url = true ->
  obj_lookup "urls" (LocalFile.urls_file fs) = Some (VArr xs) ->
  (if truthy_opt (body_field body "title") && truthy_opt (body_field body "favicon")
   then Ok (new_record (Store.ids w (Store.next_id w)) url (body_field body "title")
              (body_field body "favicon") (Store.clock w))
   else backfilled_record (Store.ids w (Store.next_id w)) url (body_field body "title")
          (body_field body "favicon") (Store.clock w)
          (probe_spec url (Store.web w url))) = Ok r ->
  result_of (run Store.handle (LocalFile.add fs body) w)
  = Ok (LocalFile.Files (obj_set "urls" (VArr (xs ++ [r])) (LocalFile.urls_file fs))
          (LocalFile.pins_file fs) (LocalFile.state_file fs))
  /\ responses (trace_of (run Store.handle (LocalFile.add fs body) w))
     = [Response 200 (VObj [("ok", VBool true);
                            ("id", VStr (Store.ids w (Store.next_id w)))])].
Proof.
  intros Hb Hu Hxs Hr. unfold LocalFile.add. rewrite Hb, Hu, Hxs.
  rewrite run_bind, run_trigger. simpl.
  rewrite !truthy_js_or_val.
  unfold backfilled_record in Hr.
  destruct (truthy_opt (body_field body "title")) eqn:Ht;
    destruct (truthy_opt (body_field body "favicon")) eqn:Hf; simpl in *.
  - injection Hr as <-. by run_route.
  - injection Hr as <-. rewrite !run_bind, run_getPageMeta. by run_route.
  - rewrite !run_bind, run_getPageMeta. simpl.
    destruct (bool_decide (meta_title (probe_spec url (Store.web w url)) = ""));
      [destruct (hostname_of url) as [h|e]; [|done]|];
      simpl in Hr; injection Hr as <-; by run_route.
  - rewrite !run_bind, run_getPageMeta. simpl.
    destruct (bool_decide (meta_title (probe_spec url (Store.web w url)) = ""));
      [destruct (hostname_of url) as [h|e]; [|done]|];
      simpl in Hr; injection Hr as <-; by run_route.
Qed.
End LocalAdd.

Section LocalAddSame.
Context `{URLApi}.

(** X16. Started from the same records, with the same request, id, clock
    and fetched page, the local-file add and the GitHub-backed add end with
    the same list of records and the same answer, provided a title can be
    had (supplied, from the page, or the host name of the url). When none
    can, the two differ: the local-file route throws, answers nothing and
    writes nothing, where the GitHub-backed one keeps the record without a
    title and answers 200. *)
Theorem local_add_stores_same_record (w : Store.world) (fs : LocalFile.files)
    (body : option value) (url : value) (xs : list value) :
  body_field body "url" = Some url ->
  truthy url = true ->
  obj_lookup "urls" (LocalFile.urls_file fs) = Some (VArr xs) ->
  urls_of (catalog w) = Some xs ->
  Forall (fun u => u <> VNull) xs ->
  Forall (fun u => has_id (Store.ids w (Store.next_id w)) u = false) xs ->
  let local := run Store.handle (LocalFile.add fs body) w in
  let github := run Store.handle (add body) w in
  let meta := probe_spec url (Store.web w url) in
  responses (trace_of github)
  = [Response 200 (VObj [("ok", VBool true);
                         ("id", VStr (Store.ids w (Store.next_id w)))])]
  /\ (truthy_opt (body_field body "title") = true \/ meta_title meta <> ""
      \/ URL_hostname url <> None ->
      responses (trace_of local) = responses (trace_of github)
      /\ exists fs',
           result_of local = Ok fs'
           /\ urls_of (LocalFile.urls_file fs') = urls_of (catalog (world_of github)))
  /\ (truthy_opt (body_field body "title") = false -> meta_title meta = "" ->
      URL_hostname url = None ->
      result_of local = Err TypeError /\ responses (trace_of local) = []
      /\ urls_of (catalog (world_of github))
         = Some (xs ++ [new_record (Store.ids w (Store.next_id w)) url
                          (body_field body "title") (body_field body "favicon")
                          (Store.clock w)])).
Proof.
  intros Hb Hu Hxs Hcat Hnn Hfresh local github meta.
  destruct (run_add_store w body url xs Hb Hu Hcat Hnn Hfresh)
    as (t & w' & d' & sha & Hrun & Ht & Hdocs & Hd').
  assert (responses (trace_of github)
          = [Response 200 (VObj [("ok", VBool true);
                                 ("id", VStr (Store.ids w (Store.next_id w)))])])
    as Hres.
  { subst github. rewrite Hrun. unfold trace_of. simpl.
    by rewrite responses_app, Ht. }
  assert (urls_of (catalog (world_of github))
          = Some (xs ++ [stored_record (Store.ids w (Store.next_id w)) url
                           (body_field body "title") (body_field body "favicon")
                           (Store.clock w) (Store.web w url)])) as Hgh.
  { subst github. rewrite Hrun. unfold world_of. simpl.
    rewrite (catalog_insert w w' d' sha Hdocs). by apply urls_of_array. }
  split; [done|]. split.
  - intros Htitle.
    assert ((if truthy_opt (body_field body "title")
                && truthy_opt (body_field body "favicon")
             then Ok (new_record (Store.ids w (Store.next_id w)) url
                        (body_field body "title") (body_field body "favicon")
                        (Store.clock w))
             else backfilled_record (Store.ids w (Store.next_id w)) url
                    (body_field body "title") (body_field body "favicon")
                    (Store.clock w) meta)
            = Ok (stored_record (Store.ids w (Store.next_id w)) url
                    (body_field body "title") (body_field body "favicon")
                    (Store.clock w) (Store.web w url))) as Hsame.
    { unfold stored_record. fold meta.
      destruct (truthy_opt (body_field body "title")
                && truthy_opt (body_field body "favicon")); [done|].
      unfold backfilled_record, hostname_of.
      destruct (truthy_opt (body_field body "title")); [done|].
      destruct (bool_decide (meta_title meta = "")) eqn:Hm; [|done].
      apply bool_decide_eq_true in Hm.
      destruct (URL_hostname url); [done|].
      by destruct Htitle as [?|[?|?]]. }
    destruct (run_local_add w fs body url xs _ Hb Hu Hxs Hsame) as [Hok Hresp].
    split; [by rewrite Hres|].
    eexists. split; [exact Hok|]. simpl. rewrite Hgh.
    apply urls_of_array, obj_lookup_set.
  - intros Ht0 Hm Hh. split; [|split].
    + subst local. unfold LocalFile.add. rewrite Hb, Hu.
      rewrite run_bind, run_trigger. simpl. rewrite !truthy_js_or_val, Ht0. simpl.
      rewrite !run_bind, run_getPageMeta. simpl. fold meta. rewrite Hm. simpl.
      unfold hostname_of. rewrite Hh. by run_route.
    + subst local. unfold LocalFile.add. rewrite Hb, Hu.
      rewrite run_bind, run_trigger. simpl. rewrite !truthy_js_or_val, Ht0. simpl.
      rewrite !run_bind, run_getPageMeta. simpl. fold meta. rewrite Hm. simpl.
      unfold hostname_of. rewrite Hh. by run_route.
    + rewrite Hgh. unfold stored_record, backfilled_record, hostname_of.
      fold meta. rewrite Ht0, Hm, Hh. done.
Qed.
End LocalAddSame.

Lemma local_add_stores_same_record_witness :
  let local := run Store.handle (@LocalFile.add simple_urls LocalFile.bootstrap
                                   untitled_body) web_world in
  let github := run Store.handle (@add simple_urls untitled_body) web_world in
  responses (trace_of local) = responses (trace_of github)
  /\ exists fs',
       result_of local = Ok fs'
       /\ urls_of (LocalFile.urls_file fs') = urls_of (catalog (world_of github)).
Proof.
  destruct (@local_add_stores_same_record simple_urls web_world LocalFile.bootstrap
              untitled_body (VStr "http://example.com") [])
    as (_ & Hsame & _).
  - reflexivity.
  - reflexivity.
  - reflexivity.
  - reflexivity.
  - constructor.
  - constructor.
  - apply Hsame. right. left. discriminate.
Defined.

Lemma existsb_strict_eq (p : string) (xs : list value) :
  existsb (fun x => strict_eq_str (Some x) p) xs = true <-> VStr p ∈ xs.
Proof.
  induction xs as [|x xs IH]; simpl.
  - split; [done|by intros ?%not_elem_of_nil].
  - rewrite orb_true_iff, IH, elem_of_cons. unfold strict_eq_str.
    destruct x as [| | |s| |]; rewrite ?bool_decide_eq_true;
      intuition (try discriminate; try congruence).
Qed.

Lemma strings_of_elem (xs : list value) (entries : list string) (x : value) :
  strings_of xs = Ok entries -> x ∈ xs ->
  exists s, js_String x = Ok s /\ s ∈ entries.
Proof.
  revert entries. induction xs as [|y xs IH]; intros entries Hs Hx.
  - by apply elem_of_nil in Hx.
  - simpl in Hs. destruct (js_String y) as [sy|] eqn:Hy; [|done]. simpl in Hs.
    destruct (strings_of xs) as [r|]; [|done]. simpl in Hs. injection Hs as <-.
    apply elem_of_cons in Hx as [->|Hx].
    + exists sy. split; [done|left].
    + destruct (IH r eq_refl Hx) as (s & Hsx & Hin). exists s. split; [done|by right].
Qed.

Section Pins.
Context {W : Type}.
Variable handle : forall X, eff X -> W -> X * W.

(** X17. The two pin checks differ on what the file may hold. For a pin
    and an array of entries whose conversions to strings do not throw: the
    local-file check accepts the pin exactly when its string form is
    itself an element of the array, so an entry kept as a number is never
    matched; the GitHub-backed check compares string forms on both sides,
    so it accepts whatever the local-file check accepts, and it accepts
    the string form of a number the array holds. *)
Theorem local_pins_compare_strictly (fs : LocalFile.files) (pin : value)
    (xs : list value) (p : string) (entries : list string) :
  obj_lookup "pins" (LocalFile.pins_file fs) = Some (VArr xs) ->
  js_String pin = Ok p ->
  strings_of xs = Ok entries ->
  (exists accepted,
     LocalFile.checkPin fs pin = Ok accepted
     /\ (accepted = true <-> VStr p ∈ xs))
  /\ (forall w t1 w1,
        run handle (ghRead PINS_PATH [("pins", VArr [VStr "1234"])]) w
        = (t1, w1, Ok (LocalFile.pins_file fs)) ->
        run handle (checkPin pin) w = (t1, w1, Ok (bool_decide (p ∈ entries))))
  /\ (LocalFile.checkPin fs pin = Ok true -> p ∈ entries)
  /\ (forall n,
        VNum n ∈ xs -> VStr (number_to_string n) ∉ xs -> p = number_to_string n ->
        LocalFile.checkPin fs pin = Ok false /\ p ∈ entries).
Proof.
  intros Hp Hpin Hxs.
  assert (LocalFile.checkPin fs pin
          = Ok (existsb (fun x => strict_eq_str (Some x) p) xs)) as Hlocal.
  { unfold LocalFile.checkPin. by rewrite Hp, Hpin. }
  split; [|split; [|split]].
  - eexists. split; [apply Hlocal|]. apply existsb_strict_eq.
  - intros w t1 w1 Hr.
    by rewrite (run_checkPin handle pin w w1 t1 _ xs Hr Hp), Hxs, Hpin.
  - rewrite Hlocal. intros [= Hin%existsb_strict_eq].
    destruct (strings_of_elem xs entries (VStr p) Hxs Hin) as (s & Hs & Hse).
    simpl in Hs. by injection Hs as <-.
  - intros n Hn Hs ->. split.
    + rewrite Hlocal. f_equal.
      destruct (existsb _ xs) eqn:He; [|done].
      by apply existsb_strict_eq in He.
    + destruct (strings_of_elem xs entries (VNum n) Hxs Hn) as (s & Hsn & Hse).
      simpl in Hsn. by injection Hsn as <-.
Qed.

(** X18. In the local-file variant [pins.includes] is also what a string
    has: when the file holds a string where the array of pins should be,
    every non-empty pin whose string form occurs in that string logs in. *)
Theorem local_string_pins_accept_substrings (fs : LocalFile.files)
    (body : option value) (pin : value) (p a b : string) (tokens : gset string) (w : W) :
  obj_lookup "pins" (LocalFile.pins_file fs) = Some (VStr (a +:+ p +:+ b)) ->
  body_field body "pin" = Some pin ->
  truthy pin = true ->
  js_String pin = Ok p ->
  result_of (run handle (LocalFile.login fs body tokens) w)
  = Ok ({["adm_" +:+ (handle _ (Nanoid 16) w).1]} ∪ tokens)
  /\ responses (trace_of (run handle (LocalFile.login fs body tokens) w))
     = [Response 200 (VObj [("ok", VBool true);
                            ("token", VStr ("adm_" +:+ (handle _ (Nanoid 16) w).1))])].
Proof.
  intros Hp Hb Ht Hs. unfold LocalFile.login, LocalFile.checkPin. rewrite Hb, Ht, Hp, Hs.
  simpl rbind.
  assert (occurs p (a +:+ p +:+ b) = true) as ->.
  { destruct (occurs _ _) eqn:Ho; [done|].
    by destruct (occurs_false _ _ Ho a b). }
  by run_route.
Qed.

(** X19. The local-file routes have no [try]: when [urls] in the file is
    not an array, the list, an open resolve and the remove throw before
    anything is sent or written. *)
Theorem local_routes_throw_on_bad_catalog (fs : LocalFile.files) (w : W) :
  (forall xs, obj_lookup "urls" (LocalFile.urls_file fs) <> Some (VArr xs)) ->
  (forall all, run handle (LocalFile.list_urls fs all) w = ([], w, Err TypeError))
  /\ (truthy_opt (obj_lookup "enabled" (LocalFile.state_file fs)) = true ->
      forall id, run handle (LocalFile.resolve fs id) w = ([], w, Err TypeError))
  /\ (forall id, run handle (LocalFile.remove fs id) w = ([], w, Err TypeError)).
Proof.
  intros Hbad. split; [|split].
  - intros all. unfold LocalFile.list_urls.
    destruct (obj_lookup "urls" (LocalFile.urls_file fs)) as [[| | | |xs|]|];
      try by rewrite run_bind, run_lift.
    by destruct (Hbad xs).
  - intros Hen id. unfold LocalFile.resolve. rewrite Hen. simpl.
    destruct (obj_lookup "urls" (LocalFile.urls_file fs)) as [[| | | |xs|]|];
      try by rewrite run_bind, run_lift.
    by destruct (Hbad xs).
  - intros id. unfold LocalFile.remove.
    destruct (obj_lookup "urls" (LocalFile.urls_file fs)) as [[| | | |xs|]|];
      try done.
    by destruct (Hbad xs).
Qed.
End Pins.

(** Files whose pins are a number and a string, a string, and whose
    catalog has no [urls]. *)
Definition numeric_pins : doc := [("pins", VArr [VNum 1234; VStr "9999"])].

Definition numeric_pins_world : Store.world :=
  Store.World (<[PINS_PATH := (numeric_pins, "p1")]> ∅) 1 (fun _ => None)
    (fun n => "id" +:+ pretty n) 0 1700000000000.

Definition odd_files : LocalFile.files :=
  LocalFile.Files [] [("pins", VStr "1234")] [("enabled", VBool true)].

Lemma local_pins_compare_strictly_witness :
  LocalFile.checkPin (LocalFile.Files [] numeric_pins []) (VStr "1234") = Ok false
  /\ run Store.handle (checkPin (VStr "1234")) numeric_pins_world
     = ([Ev (GhGet PINS_PATH) (Ok (GetData (RawJson numeric_pins) "p1"))],
        numeric_pins_world, Ok true).
Proof.
  destruct (local_pins_compare_strictly Store.handle
              (LocalFile.Files [] numeric_pins []) (VStr "1234")
              [VNum 1234; VStr "9999"] "1234" ["1234"; "9999"] eq_refl eq_refl eq_refl)
    as (_ & Hgithub & _ & Hnum).
  split.
  - apply (Hnum 1234).
    + left.
    + intros Hin. apply elem_of_cons in Hin as [Hin|Hin]; [discriminate|].
      apply list_elem_of_singleton in Hin. discriminate.
    + reflexivity.
  - apply (Hgithub numeric_pins_world). reflexivity.
Defined.

Lemma local_string_pins_accept_substrings_witness :
  result_of (run Store.handle
               (LocalFile.login odd_files (Some (VObj [("pin", VStr "23")])) ∅)
               empty_world)
  = Ok ({["adm_id0"]} ∪ ∅).
Proof.
  apply (local_string_pins_accept_substrings Store.handle odd_files
           (Some (VObj [("pin", VStr "23")])) (VStr "23") "23" "1" "4" ∅ empty_world).
  - reflexivity.
  - reflexivity.
  - reflexivity.
  - reflexivity.
Defined.

Lemma local_routes_throw_on_bad_catalog_witness :
  run Store.handle (LocalFile.resolve odd_files "aaa") empty_world
  = ([], empty_world, Err TypeError)
  /\ run Store.handle (LocalFile.remove odd_files "aaa") empty_world
     = ([], empty_world, Err TypeError).
Proof.
  destruct (local_routes_throw_on_bad_catalog Store.handle odd_files empty_world)
    as (_ & Hresolve & Hremove).
  - intros xs. discriminate.
  - split; [by apply Hresolve|apply Hremove].
Defined.

(** ** The catalog stays well formed *)

(** Every record is an object with a string [id], and no two records have
    the same [id]. *)
Definition well_formed (xs : list value) : Prop :=
  Forall (fun u => exists i, field u "id" = Some (VStr i)) xs
  /\ NoDup ((fun u => field u "id") <$> xs).

(** The catalog a reader finds holds an array of well-formed records. *)
Definition catalog_ok (w : Store.world) : Prop :=
  exists xs, obj_lookup "urls" (catalog w) = Some (VArr xs) /\ well_formed xs.

Lemma well_formed_objects (xs : list value) :
  well_formed xs -> Forall (fun u => u <> VNull) xs.
Proof.
  intros [Hids _]. eapply Forall_impl; [exact Hids|].
  intros u [i Hi] ->. done.
Qed.

Lemma well_formed_filter (f : value -> bool) (xs : list value) :
  well_formed xs -> well_formed (List.filter f xs).
Proof.
  intros [Hids Hnd]. split; [by apply Forall_list_filter|].
  clear Hids. induction xs as [|x xs IH]; [done|]. simpl in *.
  apply NoDup_cons in Hnd as [Hx Hnd].
  destruct (f x); [|by apply IH].
  rewrite fmap_cons. apply NoDup_cons. split; [|by apply IH].
  intros Hin. apply Hx.
  apply list_elem_of_fmap in Hin as (y & Hy & Hin).
  apply list_elem_of_fmap. exists y. split; [done|].
  apply list_elem_of_In, filter_In in Hin as [Hin _]. by apply list_elem_of_In.
Qed.

Lemma well_formed_snoc (xs : list value) (u : value) (id : string) :
  well_formed xs ->
  field u "id" = Some (VStr id) ->
  Forall (fun v => has_id id v = false) xs ->
  well_formed (xs ++ [u]).
Proof.
  intros [Hids Hnd] Hu Hfresh. split.
  - apply Forall_app. split; [done|]. constructor; [by exists id|done].
  - rewrite fmap_app. apply NoDup_app. split; [done|]. split.
    + intros o Ho Hin. simpl in Hin. apply list_elem_of_singleton in Hin. subst o.
      apply list_elem_of_fmap in Ho as (y & Hy & Hin).
      rewrite Forall_forall in Hfresh. specialize (Hfresh y Hin).
      unfold has_id in Hfresh. rewrite <- Hy, Hu in Hfresh. simpl in Hfresh.
      by rewrite bool_decide_eq_true_2 in Hfresh.
    + simpl. apply NoDup_singleton.
Qed.

Lemma count_id_well_formed (id : string) (xs : list value) :
  well_formed xs -> (count_id id xs <= 1)%nat.
Proof.
  intros [Hids Hnd]. unfold count_id. clear Hids.
  induction xs as [|x xs IH]; simpl; [lia|].
  simpl in Hnd. apply NoDup_cons in Hnd as [Hx Hnd]. specialize (IH Hnd).
  destruct (has_id id x) eqn:Hid; [|done]. simpl.
  assert (List.filter (has_id id) xs = []) as ->; [|simpl; lia].
  destruct (List.filter (has_id id) xs) as [|y ys] eqn:Hys; [done|].
  exfalso. apply Hx.
  assert (In y (List.filter (has_id id) xs)) as Hy by (rewrite Hys; by left).
  apply filter_In in Hy as [Hin Hy].
  apply list_elem_of_fmap. exists y. split; [|by apply list_elem_of_In].
  unfold has_id, strict_eq_str in Hid, Hy.
  destruct (field x "id") as [[| | |s| |]|]; try done.
  destruct (field y "id") as [[| | |s'| |]|]; try done.
  apply bool_decide_eq_true in Hid, Hy. by subst.
Qed.

(** An effect that writes nothing to the catalog leaves it as it is. *)
Lemma handle_off_catalog (X : Type) (e : eff X) (w : Store.world) :
  off_path URLS_PATH X e -> catalog (Store.handle X e w).2 = catalog w.
Proof.
  destruct e as [p|p pl|u|n| |r]; simpl; try done.
  intros Hp. unfold catalog.
  destruct (Store.docs w !! p) as [[d s]|], (pl_sha pl) as [s'|]; simpl;
    try case_bool_decide; simpl; by rewrite ?lookup_insert_ne.
Qed.

(** A creation leaves the catalog as it is or makes it the empty one. *)
Lemma handle_creates_catalog (X : Type) (e : eff X) (w : Store.world) :
  creates_only X e -> catalog_ok w -> catalog_ok (Store.handle X e w).2.
Proof.
  destruct e as [p|p pl|u|n| |r]; simpl; try done.
  intros [Hsha Hinit] Hok. rewrite Hsha.
  assert (catalog_ok (Store.write p (pl_content pl) w).2) as Hw.
  { unfold catalog_ok, catalog, Store.write. simpl.
    destruct Hinit as [[-> ->]|[[-> ->]|[-> ->]]].
    - rewrite lookup_insert_eq. exists []. split; [done|].
      split; [constructor|apply NoDup_nil_2].
    - by rewrite lookup_insert_ne.
    - by rewrite lookup_insert_ne. }
  by destruct (Store.docs w !! p) as [[d s]|].
Qed.

Lemma world_of_serve {A B} (p : prog A) (b : B) (w : Store.world) :
  world_of (run Store.handle (let* _ := p in Ret b) w)
  = world_of (run Store.handle p w).
Proof.
  rewrite run_bind. destruct (run Store.handle p w) as [[t w1] [a|e]]; [|done].
  by rewrite run_Ret.
Qed.

Lemma world_of_respond (st : nat) (body : value) (w : Store.world) :
  world_of (run Store.handle (respond st body) w) = w.
Proof. by rewrite run_respond. Qed.

Section CatalogInvariant.
Context `{URLApi}.

Lemma emits_toggle_off_catalog (body : option value) :
  emits (off_path URLS_PATH) (toggle body).
Proof.
  unfold toggle.
  assert (forall st b, emits (off_path URLS_PATH) (respond st b)) as Hres.
  { intros st b. by apply emits_respond. }
  destruct (body_field body "enabled") as [[| | | | |]|]; try done.
  apply emits_try_catch; [|done].
  apply emits_bind; [|done].
  apply emits_ghUpdate; [|done].
  intros X e. by apply store_request_off.
Qed.

Lemma add_keeps_catalog_ok (body : option value) (w : Store.world) :
  catalog_ok w ->
  (forall xs, obj_lookup "urls" (catalog w) = Some (VArr xs) ->
              Forall (fun u => has_id (Store.ids w (Store.next_id w)) u = false) xs) ->
  catalog_ok (world_of (run Store.handle (add body) w)).
Proof.
  intros (xs & Hxs & Hwf) Hfresh. specialize (Hfresh xs Hxs).
  destruct (truthy_opt (body_field body "url")) eqn:Hu.
  - destruct (body_field body "url") as [url|] eqn:Hb; [|done]. simpl in Hu.
    destruct (run_add_store w body url xs Hb Hu (urls_of_array _ _ Hxs)
                (well_formed_objects xs Hwf) Hfresh)
      as (t & w' & d' & sha & Hrun & _ & Hdocs & Hd').
    rewrite Hrun. unfold world_of. simpl.
    exists (xs ++ [stored_record (Store.ids w (Store.next_id w)) url
                     (body_field body "title") (body_field body "favicon")
                     (Store.clock w) (Store.web w url)]).
    rewrite (catalog_insert w w' d' sha Hdocs). split; [done|].
    destruct (stored_record_shape (Store.ids w (Store.next_id w)) url
                (body_field body "title") (body_field body "favicon")
                (Store.clock w) (Store.web w url)) as (t' & f' & Hs & _).
    apply (well_formed_snoc xs _ (Store.ids w (Store.next_id w))); [done| |done].
    by rewrite Hs.
  - unfold add. exists xs.
    destruct (body_field body "url") as [url|]; simpl in Hu;
      rewrite ?Hu, world_of_respond; done.
Qed.

Lemma remove_keeps_catalog_ok (id : string) (w : Store.world) :
  catalog_ok w -> catalog_ok (world_of (run Store.handle (remove id) w)).
Proof.
  intros (xs & Hxs & Hwf).
  destruct (run_remove_store w id xs (urls_of_array _ _ Hxs) (well_formed_objects xs Hwf))
    as (t & w' & d' & sha & Hrun & _ & Hdocs & Hd').
  rewrite Hrun. unfold world_of. simpl.
  exists (List.filter (fun u => negb (has_id id u)) xs).
  rewrite (catalog_insert w w' d' sha Hdocs). split; [done|].
  by apply well_formed_filter.
Qed.

(** X20. On the sequential store, that the catalog holds an array of
    objects with string ids, no two of them equal, is an invariant of the
    service: every request keeps it, an add provided the id [nanoid]
    gives is not already in the catalog. While it holds, a remove reports
    0 or 1. *)
Theorem serve_keeps_catalog_well_formed (w : Store.world) :
  catalog_ok w ->
  (forall req tokens,
     (forall xs, obj_lookup "urls" (catalog w) = Some (VArr xs) ->
                 Forall (fun u => has_id (Store.ids w (Store.next_id w)) u = false) xs) ->
     catalog_ok (world_of (run Store.handle (serve req tokens) w)))
  /\ (forall id,
        exists n, (n = 0 \/ n = 1)
                  /\ responses (trace_of (run Store.handle (remove id) w))
                     = [Response 200 (VObj [("ok", VBool true); ("removed", VNum n)])]).
Proof.
  intros Hok. split.
  - intros req tokens Hfresh.
    destruct (behind_auth req) eqn:Hreq.
    + assert (forall hdr next,
                catalog_ok (world_of (run Store.handle next w)) ->
                catalog_ok (world_of (run Store.handle (auth hdr tokens next) w)))
        as Hauth.
      { intros hdr next Hn. unfold auth.
        destruct (_ || _); [by rewrite world_of_respond|done]. }
      destruct req as [| | | |hdr body|hdr id|hdr body|]; try done; simpl;
        rewrite world_of_serve; apply Hauth.
      * by apply add_keeps_catalog_ok.
      * by apply remove_keeps_catalog_ok.
      * pose proof (keeps_emits (fun w' => catalog w' = catalog w)
                      (off_path URLS_PATH) (toggle body)) as Hk.
        unfold keeps in Hk. unfold catalog_ok. rewrite Hk; [done| |apply emits_toggle_off_catalog|done].
        intros X e w0 He Hw0. by rewrite handle_off_catalog.
    + apply (keeps_emits catalog_ok creates_only); [|by apply emits_open_routes|done].
      intros X e w0. apply handle_creates_catalog.
  - intros id. destruct Hok as (xs & Hxs & Hwf).
    destruct (run_remove_store w id xs (urls_of_array _ _ Hxs) (well_formed_objects xs Hwf))
      as (t & w' & d' & sha & Hrun & Ht & _).
    exists (Z.of_nat (count_id id xs)). split.
    + pose proof (count_id_well_formed id xs Hwf). lia.
    + rewrite Hrun. unfold trace_of. simpl. by rewrite responses_app, Ht.
Qed.
End CatalogInvariant.

Lemma serve_keeps_catalog_well_formed_witness :
  catalog_ok (world_of (run Store.handle
                          (@serve simple_urls (PostAdd (Some "Bearer adm_id0") titled_body)
                             {["adm_id0"]})
                          (demo_world true))).
Proof.
  assert (well_formed demo_records) as Hwf.
  { split.
    - repeat constructor; by eexists.
    - simpl. apply NoDup_cons. split.
      + intros Hin. apply list_elem_of_singleton in Hin. discriminate.
      + apply NoDup_singleton. }
  apply (@serve_keeps_catalog_well_formed simple_urls (demo_world true)).
  - by exists demo_records.
  - intros xs [= <-]. repeat constructor.
Defined.

(** ** The initial value is shared with the mutator *)

Section SharedInitial.
Context {W : Type}.
Variable handle : forall X, eff X -> W -> X * W.
Context {B : Type}.

(** X21. [ghGetOrInit] returns the very object it was given as initial
    value, and the mutators of the routes change their argument in place.
    So when the first read created the file, the put then met a conflict
    and the retry's read finds the file missing again, the retry creates
    the file not with the initial value but with what the mutator made of
    it: the write that re-creates the file carries the content the
    mutator's argument has after the first call. *)
Theorem retry_recreates_with_mutated_initial (path : string)
    (mutate : doc -> prog (mutated B)) (init : doc) (msg : string)
    (w wa w0 w1 w2 w3 : W) (e0 e e' : exn) (sha : string) (t1 t2 : list event)
    (m : mutated B) :
  handle _ (GhGet path) w = (Err e0, wa) ->
  response_status e0 = Some 404%nat ->
  handle _ (GhPut path (Payload ("init " +:+ path) init GITHUB_BRANCH None)) wa
  = (Ok sha, w0) ->
  run handle (mutate init) w0 = (t1, w1, Ok m) ->
  run handle (ghPut path (m_result m) (Some sha) msg) w1 = (t2, w2, Err e) ->
  response_status e = Some 409%nat ->
  handle _ (GhGet path) w2 = (Err e', w3) ->
  response_status e' = Some 404%nat ->
  let recreate := GhPut path (Payload ("init " +:+ path) (m_arg m) GITHUB_BRANCH None) in
  exists rest,
    trace_of (run handle (ghUpdate path mutate init msg) w)
    = [Ev (GhGet path) (Err e0);
       Ev (GhPut path (Payload ("init " +:+ path) init GITHUB_BRANCH None)) (Ok sha)]
      ++ t1 ++ t2
      ++ [Ev (GhGet path) (Err e'); Ev recreate (handle _ recreate w3).1]
      ++ rest.
Proof.
  intros Hg H404 Hi Hm Hp H409 Hg' H404' recreate.
  rewrite run_ghUpdate. unfold update_spec, update_round.
  rewrite !run_ghGetOrInit_any. unfold getOrInit_spec.
  rewrite Hg, (bool_decide_eq_true_2 _ H404), Hi. simpl.
  rewrite Hm. simpl. rewrite Hp. simpl.
  rewrite (bool_decide_eq_true_2 _ H409).
  rewrite run_ghGetOrInit_any. unfold getOrInit_spec.
  rewrite Hg', (bool_decide_eq_true_2 _ H404'). fold recreate.
  destruct (handle _ recreate w3) as [[sha'|e''] w4]; simpl.
  - destruct (run handle (mutate (m_arg m)) w4) as [[t4 w5] [m'|e'']].
    + destruct (run handle (ghPut path (m_result m') (Some sha') (msg +:+ " (retry)")) w5)
        as [[t5 w6] [s|e'']]; unfold trace_of; simpl;
        exists (t4 ++ t5); by rewrite <- !app_assoc.
    + unfold trace_of; simpl. exists t4. by rewrite <- !app_assoc.
  - unfold trace_of; simpl. exists []. by rewrite <- !app_assoc.
Qed.
End SharedInitial.

(** A store on which the file never stays: every read answers 404, a
    creation succeeds and a conditional put meets a conflict. *)
Definition vanishing : Scripted.script :=
  Scripted.Script
    (fun _ => Err (AxiosError (Some 404%nat)))
    (fun _ pl => match pl_sha pl with
                 | None => Ok "s0"
                 | Some _ => Err (AxiosError (Some 409%nat))
                 end)
    (fun _ => None).

Lemma retry_recreates_with_mutated_initial_witness :
  exists rest,
    trace_of (run (Scripted.handle vanishing)
                (ghUpdate URLS_PATH
                   (add_mutator (VStr "http://c.example") (Some (VStr "T"))
                      (Some (VStr "F")))
                   [("urls", VArr [])] "admin add url") tt)
    = [Ev (GhGet URLS_PATH) (Err (AxiosError (Some 404%nat)));
       Ev (GhPut URLS_PATH (Payload "init data/urls.json" [("urls", VArr [])]
                              GITHUB_BRANCH None)) (Ok "s0")]
      ++ [Ev (Nanoid 10) "id0"; Ev DateNow 1700000000000]
      ++ [Ev (GhPut URLS_PATH
                (Payload "admin add url"
                   [("urls", VArr [new_record "id0" (VStr "http://c.example")
                                     (Some (VStr "T")) (Some (VStr "F")) 1700000000000])]
                   GITHUB_BRANCH (Some "s0")))
            (Err (AxiosError (Some 409%nat)))]
      ++ [Ev (GhGet URLS_PATH) (Err (AxiosError (Some 404%nat)));
          Ev (GhPut URLS_PATH
                (Payload "init data/urls.json"
                   [("urls", VArr [new_record "id0" (VStr "http://c.example")
                                     (Some (VStr "T")) (Some (VStr "F")) 1700000000000])]
                   GITHUB_BRANCH None))
            (Ok "s0")]
      ++ rest.
Proof.
  pose (rec1 := new_record "id0" (VStr "http://c.example") (Some (VStr "T"))
                  (Some (VStr "F")) 1700000000000).
  apply (retry_recreates_with_mutated_initial (Scripted.handle vanishing) URLS_PATH
           (add_mutator (VStr "http://c.example") (Some (VStr "T")) (Some (VStr "F")))
           [("urls", VArr [])] "admin add url" tt tt tt tt tt tt
           (AxiosError (Some 404%nat)) (AxiosError (Some 409%nat))
           (AxiosError (Some 404%nat)) "s0"
           [Ev (Nanoid 10) "id0"; Ev DateNow 1700000000000]
           [Ev (GhPut URLS_PATH
                  (Payload "admin add url" [("urls", VArr [rec1])] GITHUB_BRANCH
                     (Some "s0")))
              (Err (AxiosError (Some 409%nat)))]
           (Mutated [("urls", VArr [rec1])] [("urls", VArr [rec1])] tt));
    reflexivity.
Defined.

(** ** A pins document without an array of pins *)

Section OddPins.
Context {W : Type}.
Variable handle : forall X, eff X -> W -> X * W.

(** X22. What the GitHub-backed login does with a pins document that has
    no array under [pins]: when the property is missing or [null], the
    optional chain gives [undefined] and every pin is refused with 401;
    when it holds anything else, [map] is not a function, the route throws
    and answers nothing. *)
Theorem login_without_pins_array (body : option value) (pin : value)
    (tokens : gset string) (w w1 : W) (t1 : list event) (pins : doc) :
  body_field body "pin" = Some pin ->
  truthy pin = true ->
  run handle (ghRead PINS_PATH [("pins", VArr [VStr "1234"])]) w = (t1, w1, Ok pins) ->
  (obj_lookup "pins" pins = None \/ obj_lookup "pins" pins = Some VNull ->
   responses (trace_of (run handle (login body tokens) w))
   = [Response 401 (fail_body "bad pin")]
   /\ result_of (run handle (login body tokens) w) = Ok tokens)
  /\ (forall v,
        obj_lookup "pins" pins = Some v -> v <> VNull -> (forall xs, v <> VArr xs) ->
        run handle (login body tokens) w = (t1, w1, Err TypeError)).
Proof.
  intros Hb Hp Hr.
  pose proof (silent_run handle _ w
                (silent_ghRead PINS_PATH [("pins", VArr [VStr "1234"])])) as Hs.
  rewrite Hr in Hs. unfold trace_of in Hs. simpl in Hs.
  split.
  - intros Hmiss. unfold login, checkPin. rewrite Hb, Hp.
    rewrite !run_bind, Hr. simpl.
    destruct Hmiss as [-> | ->]; run_route; unfold trace_of, result_of; simpl;
      by rewrite !app_nil_r, responses_app, Hs.
  - intros v Hv Hnull Harr. unfold login, checkPin. rewrite Hb, Hp.
    rewrite !run_bind, Hr. simpl. rewrite Hv.
    destruct v as [| | | |xs|];
      first [done | by destruct (Harr xs) | run_route; by rewrite ?app_nil_r].
Qed.
End OddPins.

Definition no_pins_world : Store.world :=
  Store.World (<[PINS_PATH := ([("pins", VStr "1234")], "p1")]> ∅) 1 (fun _ => None)
    (fun n => "id" +:+ pretty n) 0 1700000000000.

Lemma login_without_pins_array_witness :
  run Store.handle (login (Some (VObj [("pin", VStr "1234")])) ∅) no_pins_world
  = ([Ev (GhGet PINS_PATH) (Ok (GetData (RawJson [("pins", VStr "1234")]) "p1"))],
     no_pins_world, Err TypeError).
Proof.
  destruct (login_without_pins_array Store.handle (Some (VObj [("pin", VStr "1234")]))
              (VStr "1234") ∅ no_pins_world no_pins_world
              [Ev (GhGet PINS_PATH) (Ok (GetData (RawJson [("pins", VStr "1234")]) "p1"))]
              [("pins", VStr "1234")]) as [_ Hthrows].
  - reflexivity.
  - reflexivity.
  - reflexivity.
  - apply (Hthrows (VStr "1234")).
    + reflexivity.
    + discriminate.
    + intros xs. discriminate.
Defined.

(** ** The local-file resolve and remove *)

Section LocalRoutes.
Context {W : Type}.
Variable handle : forall X, eff X -> W -> X * W.

(** X23. The local-file resolve is gated the same way: with [enabled]
    falsy in the state file it answers 403 and nothing else happens;
    otherwise, on a catalog of objects, it answers 200 with the first
    record that has the id and whose [active] is not [false], or 404. *)
Theorem local_resolve_gated (fs : LocalFile.files) (id : string) (w : W) :
  (truthy_opt (obj_lookup "enabled" (LocalFile.state_file fs)) = false ->
   trace_of (run handle (LocalFile.resolve fs id) w)
   = [Ev (Respond (Response 403 (fail_body "Access disabled"))) tt])
  /\ (truthy_opt (obj_lookup "enabled" (LocalFile.state_file fs)) = true ->
      forall xs,
        obj_lookup "urls" (LocalFile.urls_file fs) = Some (VArr xs) ->
        Forall (fun u => u <> VNull) xs ->
        responses (trace_of (run handle (LocalFile.resolve fs id) w))
        = [match List.find (is_active_with_id id) xs with
           | None => Response 404 (fail_body "Not found")
           | Some it =>
               Response 200
                 (obj_of [("ok", Some (VBool true)); ("id", Some (VStr id));
                          ("title", field it "title");
                          ("favicon", field it "favicon");
                          ("url", field it "url")])
           end]).
Proof.
  split.
  - apply LocalFileFacts.local_resolve_closed.
  - intros Hen xs Hxs Hnn. by apply LocalFileFacts.local_resolve_open.
Qed.
End LocalRoutes.

Definition demo_files (enabled : bool) : LocalFile.files :=
  LocalFile.Files demo_catalog [("pins", VArr [VStr "1234"])]
    [("enabled", VBool enabled)].

Lemma local_resolve_gated_witness :
  trace_of (run Store.handle (LocalFile.resolve (demo_files false) "aaa") empty_world)
  = [Ev (Respond (Response 403 (fail_body "Access disabled"))) tt]
  /\ responses (trace_of (run Store.handle (LocalFile.resolve (demo_files true) "bbb")
                            empty_world))
     = [Response 404 (fail_body "Not found")].
Proof.
  split.
  - by apply (local_resolve_gated Store.handle (demo_files false) "aaa" empty_world).
  - apply (proj2 (local_resolve_gated Store.handle (demo_files true) "bbb" empty_world)
             eq_refl demo_records).
    + reflexivity.
    + repeat constructor; discriminate.
Defined.

Section LocalRemove.
Context {W : Type}.
Variable handle : forall X, eff X -> W -> X * W.

(** X24. The local-file remove, on a catalog of objects: it answers with
    the number of records that have the id and writes the catalog without
    them, the other records in their order and the two other files as they
    were; when the records are well formed that number is 0 or 1. *)
Theorem local_remove_reports_count (fs : LocalFile.files) (id : string)
    (xs : list value) (w : W) :
  obj_lookup "urls" (LocalFile.urls_file fs) = Some (VArr xs) ->
  Forall (fun u => u <> VNull) xs ->
  result_of (run handle (LocalFile.remove fs id) w)
  = Ok (LocalFile.Files
          (obj_set "urls" (VArr (List.filter (fun u => negb (has_id id u)) xs))
             (LocalFile.urls_file fs))
          (LocalFile.pins_file fs) (LocalFile.state_file fs))
  /\ responses (trace_of (run handle (LocalFile.remove fs id) w))
     = [Response 200 (VObj [("ok", VBool true);
                            ("removed", VNum (Z.of_nat (count_id id xs)))])]
  /\ (well_formed xs -> (count_id id xs <= 1)%nat).
Proof.
  intros Hxs Hnn.
  destruct (LocalFileFacts.local_remove_counts handle fs id xs w Hxs Hnn) as [Hres Hresp].
  split; [done|]. split; [done|]. apply count_id_well_formed.
Qed.
End LocalRemove.

Lemma local_remove_reports_count_witness :
  result_of (run Store.handle (LocalFile.remove (demo_files true) "aaa") empty_world)
  = Ok (LocalFile.Files
          (obj_set "urls"
             (VArr (List.filter (fun u => negb (has_id "aaa" u)) demo_records))
             demo_catalog)
          [("pins", VArr [VStr "1234"])] [("enabled", VBool true)])
  /\ responses (trace_of (run Store.handle (LocalFile.remove (demo_files true) "aaa")
                            empty_world))
     = [Response 200 (VObj [("ok", VBool true);
                            ("removed", VNum (Z.of_nat (count_id "aaa" demo_records)))])].
Proof.
  destruct (local_remove_reports_count Store.handle (demo_files true) "aaa"
              demo_records empty_world) as (Hres & Hresp & _).
  - reflexivity.
  - repeat constructor; discriminate.
  - split; [exact Hres|exact Hresp].
Defined.

(** ** The probe and the list of the local-file variant *)

Section LocalProbe.
Context `{URLApi}.

(** [getPageMeta] as [server.js] has it: the title is assigned only when
    the trimmed text of the page's title is not empty. *)
Definition getPageMeta_local (targetUrl : value) : prog page_meta :=
  let* resp := trigger (AxiosGet targetUrl) in
  match resp with
  | None => Ret (getPageMeta_catch targetUrl "")
  | Some pg =>
      let t := pg_title pg in
      let title := if negb (bool_decide (t = "")) then t else "" in
      let iconHref :=
        default "" (attr_or (pg_icon pg)
                      (attr_or (pg_shortcut_icon pg)
                         (attr_or (pg_apple_touch_icon pg) (Some "")))) in
      if bool_decide (iconHref = "") then
        match URL_origin targetUrl with
        | Some origin => Ret (PageMeta title (origin +:+ "/favicon.ico"))
        | None => Ret (getPageMeta_catch targetUrl title)
        end
      else
        match URL_href iconHref targetUrl with
        | Some href => Ret (PageMeta title href)
        | None => Ret (getPageMeta_catch targetUrl title)
        end
  end.

(** X25. The probe of [server.js] and the probe of the GitHub-backed
    server are the same function: against every handler they make the
    same request and return the same title and favicon. *)
Theorem local_probe_is_the_same {W} (handle : forall X, eff X -> W -> X * W)
    (targetUrl : value) (w : W) :
  run handle (getPageMeta_local targetUrl) w = run handle (getPageMeta targetUrl) w.
Proof.
  unfold getPageMeta_local, getPageMeta. rewrite !run_bind, !run_trigger. simpl.
  destruct (handle _ (AxiosGet targetUrl) w).1 as [pg|]; [|done].
  assert ((if negb (bool_decide (pg_title pg = "")) then pg_title pg else "")
          = pg_title pg) as ->; [|done].
  by case_bool_decide.
Qed.
End LocalProbe.

(** What the local-file list may answer: [enabled] is the property of the
    state file as it stands. *)
Definition local_listing (fs : LocalFile.files) (r : response) : Prop :=
  exists out,
    r = Response 200
          (obj_of [("ok", Some (VBool true));
                   ("enabled", obj_lookup "enabled" (LocalFile.state_file fs));
                   ("urls", Some (VArr out))])
    /\ Forall public_fields out.

Section LocalList.
Context {W : Type}.
Variable handle : forall X, eff X -> W -> X * W.

(** X26. The local-file list asks nothing of the outside: it either throws
    before sending anything, or answers 200 with [urls] an array of
    objects that have no property besides [id], [title], [favicon] and
    [url]; [enabled] is passed on as the state file has it, whatever its
    type, and is left out when the file has none (the GitHub-backed list
    always gives a boolean). *)
Theorem local_list_gives_public_fields (fs : LocalFile.files) (all : option string)
    (w : W) :
  (exists e, run handle (LocalFile.list_urls fs all) w = ([], w, Err e))
  \/ (exists r,
        trace_of (run handle (LocalFile.list_urls fs all) w) = [Ev (Respond r) tt]
        /\ local_listing fs r
        /\ result_of (run handle (LocalFile.list_urls fs all) w) = Ok tt).
Proof.
  unfold LocalFile.list_urls. rewrite run_bind, run_lift.
  match goal with |- context [match ?x with Ok _ => _ | Err _ => _ end] =>
    destruct x as [onlyActive|e] end; [|left; by exists e].
  rewrite run_bind, run_lift.
  destruct (mapM project onlyActive) as [out|e] eqn:Hout; [|left; by exists e].
  right. rewrite run_respond. simpl.
  eexists. split; [reflexivity|]. split; [|done].
  exists out. split; [done|]. by eapply mapM_project_public.
Qed.
End LocalList.
